(** * flux-state: statechart documents, simulation and interchange

    A shallow embedding of the core of the flux-state editor:
    - [src/types/machine.ts]      the document model;
    - [src/lib/ids.ts]            slugs and fresh identifiers;
    - [src/lib/simulation.ts]     entry resolution and event resolution;
    - [src/lib/machine-format.ts] export to / import from the nested format;
    - [src/examples/machines.ts]  the bundled machines;
    - [src/lib/codegen.ts]        the names the generated code uses;
    - [src/lib/code-format.ts]    the formatter of generated code;
    - [src/lib/history.ts]        the undo history;
    - [src/App.tsx]               the action field and the parent field.

    Conventions.  A JavaScript string is the [string] of its UTF-8 bytes:
    the code splits, compares and searches strings at ASCII characters
    only, where bytes and code units agree; [trim] knows all of
    ECMAScript's white space.  JavaScript numbers that the code computes
    with are integers and are [Z].  A [Map] is a [gmap]; a [Set] used
    only for membership is a [gset]; a [Set] whose iteration order is
    observed is a list without repeats.  Loops and recursions that the
    source does not bound take a [fuel] argument and answer [None] when
    it runs out; a guard is code of the user's, and its call may return,
    throw or never return. *)

From Stdlib Require Import ZArith Ascii String List.
From stdpp Require Import base tactics option list strings gmap pretty.

Open Scope string_scope.
Open Scope list_scope.

(** ** JavaScript strings *)

Module Js.

(** A string is falsy exactly when it is empty. *)
Definition truthy (s : string) : bool :=
  match s with EmptyString => false | String _ _ => true end.

Definition code (c : ascii) : N := N_of_ascii c.

Definition between (lo hi : N) (c : ascii) : bool :=
  (lo <=? code c)%N && (code c <=? hi)%N.

(** The ASCII part of ECMAScript's WhiteSpace and LineTerminator. *)
Definition is_white (c : ascii) : bool := between 9 13 c || between 32 32 c.

Fixpoint dropStart (p : ascii -> bool) (s : string) : string :=
  match s with
  | String c s' => if p c then dropStart p s' else s
  | EmptyString => EmptyString
  end.

(** A character in [p] stays only when something that stays follows it. *)
Fixpoint dropEnd (p : ascii -> bool) (s : string) : string :=
  match s with
  | EmptyString => EmptyString
  | String c s' =>
      match dropEnd p s' with
      | EmptyString => if p c then EmptyString else String c EmptyString
      | t => String c t
      end
  end.

(** The text whose UTF-8 bytes are [bytes]. *)
Definition utf8 (bytes : list nat) : string :=
  foldr (fun byte text => String (ascii_of_nat byte) text) EmptyString bytes.

(** The rest of WhiteSpace and LineTerminator: U+00A0, U+1680, U+2000 to
    U+200A, U+2028, U+2029, U+202F, U+205F, U+3000 and U+FEFF. *)
Definition wideSpaces : list string :=
  [ utf8 [194; 160]; utf8 [225; 154; 128] ]
  ++ ((fun last => utf8 [226; 128; last])
        <$> [128; 129; 130; 131; 132; 133; 134; 135; 136; 137; 138; 168; 169; 175])
  ++ [ utf8 [226; 129; 159]; utf8 [227; 128; 128]; utf8 [239; 187; 191] ].

(** [s] without [prefix], when it starts with it. *)
Fixpoint after (prefix s : string) : option string :=
  match prefix with
  | EmptyString => Some s
  | String p prefix' =>
      match s with
      | String c s' => if Ascii.eqb p c then after prefix' s' else None
      | EmptyString => None
      end
  end.

(** What follows the first of [spaces] that [s] starts with. *)
Definition firstAfter (spaces : list string) (s : string) : option string :=
  foldr (fun space found =>
           match after space s with
           | Some rest => Some rest
           | None => found
           end) None spaces.

(** What follows the white space character [s] starts with, if any. *)
Definition afterSpace (s : string) : option string :=
  match s with
  | EmptyString => None
  | String c rest => if is_white c then Some rest else firstAfter wideSpaces s
  end.

(** White space characters are dropped from the start, one in a round. *)
Fixpoint trimStart_go (fuel : nat) (s : string) : string :=
  match fuel with
  | O => s
  | S fuel =>
      match afterSpace s with
      | Some rest => trimStart_go fuel rest
      | None => s
      end
  end.

(** [s.trimStart()]: one round for each byte is enough. *)
Definition trimStart (s : string) : string := trimStart_go (String.length s) s.

(** Nothing but white space. *)
Definition blank (s : string) : bool := negb (truthy (trimStart s)).

(** [s.trimEnd()]: the text up to the last stretch of white space. *)
Fixpoint trimEnd (s : string) : string :=
  match s with
  | EmptyString => EmptyString
  | String c rest => if blank s then EmptyString else String c (trimEnd rest)
  end.

(** [s.trim()] *)
Definition trim (s : string) : string := trimEnd (trimStart s).

Definition lower_char (c : ascii) : ascii :=
  if between 65 90 c then ascii_of_N (code c + 32) else c.

(** [s.toLowerCase()] as far as ASCII is reached: the letters [A-Z], and
    the two characters beyond ASCII whose lower case holds an ASCII
    letter, U+212A ([k]) and U+0130 ([i] and U+0307).  Every other
    character beyond ASCII is kept as it is; its lower case is again
    beyond ASCII. *)
Fixpoint toLowerCase (s : string) : string :=
  match s with
  | EmptyString => EmptyString
  | String c rest =>
      match rest with
      | String d rest' =>
          if between 196 196 c && between 176 176 d
          then String "i" (utf8 [204; 135] +:+ toLowerCase rest')
          else match rest' with
               | String e rest'' =>
                   if between 226 226 c && between 132 132 d && between 170 170 e
                   then String "k" (toLowerCase rest'')
                   else String (lower_char c) (toLowerCase rest)
               | EmptyString => String (lower_char c) (toLowerCase rest)
               end
      | EmptyString => String (lower_char c) (toLowerCase rest)
      end
  end.

(** [/[a-z0-9]/] *)
Definition is_slug_char (c : ascii) : bool := between 97 122 c || between 48 57 c.

(** [.replace(/[^a-z0-9]+/g, '_')]; [inRun] says that the run the next
    character would continue has already been replaced. *)
Fixpoint collapseRuns (inRun : bool) (s : string) : string :=
  match s with
  | EmptyString => EmptyString
  | String c s' =>
      if is_slug_char c then String c (collapseRuns false s')
      else if inRun then collapseRuns true s'
      else String "_" (collapseRuns true s')
  end.

Definition is_underscore (c : ascii) : bool := between 95 95 c.

(** [.replace(/^_+|_+$/g, '')] *)
Definition stripUnderscores (s : string) : string :=
  dropEnd is_underscore (dropStart is_underscore s).

Definition digit36 (d : N) : ascii :=
  if (d <? 10)%N then ascii_of_N (48 + d) else ascii_of_N (87 + d).

Fixpoint toString36_go (fuel : nat) (n : N) (acc : string) : string :=
  match fuel with
  | O => acc
  | S fuel =>
      let acc := String (digit36 (n mod 36)) acc in
      if (n / 36 =? 0)%N then acc else toString36_go fuel (n / 36) acc
  end.

(** [n.toString(36)] *)
Definition toString36 (n : N) : string :=
  toString36_go (S (N.to_nat (N.log2 n))) n "".

End Js.

(** ** JavaScript values of JSON shape

    What [JSON.parse] returns and [JSON.stringify] accepts.  An object is
    the list of its own properties in enumeration order.  A property whose
    value is [undefined] is written as an absent one: every read of it
    gives [undefined] and [JSON.stringify] leaves it out. *)

#[warnings="-register-all"]
Inductive jsval :=
| JNull
| JBool (b : bool)
| JNum (n : Z)
| JStr (s : string)
| JArr (items : list jsval)
| JObj (props : list (string * jsval)).

(** ** The document model ([src/types/machine.ts]) *)

Inductive NodeKind := atomic | initial | final | parallel.

#[global] Instance NodeKind_eq_dec : EqDecision NodeKind.
Proof. solve_decision. Defined.

Record StateNodeData := { label : string; kind : NodeKind }.

Record XYPosition := { pos_x : Z; pos_y : Z }.

(** [Node<StateNodeData> & { type: 'stateNode' }]: the fields this
    repository writes.  [type] is the constant ['stateNode']; [extent] is
    ['parent'] or absent; [style] is an opaque CSS object. *)
Record StateNode := {
  id : string;
  position : XYPosition;
  parentNode : option string;
  extent : bool;
  style : option jsval;
  data : StateNodeData;
}.

Record TransitionData := {
  event : string;
  guard : string;
  actions : list string;
}.

(** [Edge<TransitionData> & { type: 'transitionEdge' }]; [markerEnd] is an
    opaque marker description. *)
Record TransitionEdge := {
  edge_id : string;
  source : string;
  target : string;
  markerEnd : option jsval;
  edge_data : TransitionData;
}.

Record Viewport := { view_x : Z; view_y : Z; zoom : Z }.

(** [version] is the constant [1]. *)
Record MachineDocument := {
  machineId : string;
  nodes : list StateNode;
  edges : list TransitionEdge;
  viewport : Viewport;
}.

(** How a call into the engine ends: it returns a value, it throws, or
    it never returns. *)
Inductive Called (A : Type) := Gives (result : A) | Raises | Hangs.
Arguments Gives {A} result.
Arguments Raises {A}.
Arguments Hangs {A}.

(** ** The host platform

    What the code takes from the JavaScript engine rather than from this
    repository.
    - [Function_call body eventType] builds
      [new Function('context', 'event', body)] and calls it on [{}] and
      [{ type: eventType }]: [Gives b] when the call returns a value whose
      [Boolean(..)] is [b], [Raises] when building or calling throws,
      [Hangs] when the call never returns.  Guard evaluation is taken to
      be free of effects, as the specification requires of it.
    - [localeCompare a b] is [a.localeCompare(b)].
    - [JSON_parse raw] is [None] when [JSON.parse(raw)] throws.
    - [JSON_stringify v] is [JSON.stringify(v, null, 2)].
    - [Date_now k] is what [Date.now()] reads at the [k]-th call of
      [createId]. *)
Class Platform := {
  Function_call : string -> string -> Called bool;
  localeCompare : string -> string -> Z;
  JSON_parse : string -> option jsval;
  JSON_stringify : jsval -> string;
  Date_now : N -> N;
}.

(** ** Simulation ([src/lib/simulation.ts]) *)

Record SimulationMaps := {
  nodeById : gmap string StateNode;
  edgesBySource : gmap string (list TransitionEdge);
  childrenByParent : gmap (option string) (list StateNode);
}.

(** [map.get(k) ?? []; existing.push(x); map.set(k, existing)] *)
Definition map_push `{Countable K} {A} (k : K) (x : A)
    (m : gmap K (list A)) : gmap K (list A) :=
  <[k := default [] (m !! k) ++ [x]]> m.

Definition buildMaps (machine : MachineDocument) : SimulationMaps :=
  {| nodeById := foldl (fun m node => <[id node := node]> m) ∅ (nodes machine);
     edgesBySource :=
       foldl (fun m edge => map_push (source edge) edge m) ∅ (edges machine);
     childrenByParent :=
       foldl (fun m node => map_push (parentNode node) node m) ∅ (nodes machine) |}.

Definition is_marker (node : StateNode) : bool :=
  bool_decide (kind (data node) = initial).

Definition outgoing (maps : SimulationMaps) (sourceId : string) : list TransitionEdge :=
  default [] (edgesBySource maps !! sourceId).

Definition childrenOf (maps : SimulationMaps) (parentId : option string) : list StateNode :=
  default [] (childrenByParent maps !! parentId).

Definition findInitialTarget (parentId : option string) (maps : SimulationMaps)
    : option string :=
  let siblings := childrenOf maps parentId in
  let fallback := id <$> List.find (fun node => negb (is_marker node)) siblings in
  match List.find is_marker siblings with
  | Some initialMarker =>
      match head (outgoing maps (id initialMarker)) with
      | Some edge => Some (target edge)
      | None => fallback
      end
  | None => fallback
  end.

(** [leaves.add(leaf)] on a [Set] kept in insertion order. *)
Definition set_add (leaves : list string) (leaf : string) : list string :=
  if bool_decide (leaf ∈ leaves) then leaves else leaves ++ [leaf].

Fixpoint enterNode (fuel : nat) (nodeId : string) (maps : SimulationMaps)
    (seen : gset string) : option (list string) :=
  match fuel with
  | O => None
  | S fuel =>
      if bool_decide (nodeId ∈ seen) then Some [] else
      let seen := {[nodeId]} ∪ seen in
      match nodeById maps !! nodeId with
      | None => Some []
      | Some node =>
          if is_marker node then
            match head (outgoing maps (id node)) with
            | Some edge =>
                if Js.truthy (target edge)
                then enterNode fuel (target edge) maps seen
                else Some []
            | None => Some []
            end
          else
            let children :=
              List.filter (fun child => negb (is_marker child))
                          (childrenOf maps (Some (id node))) in
            match children with
            | [] => Some [id node]
            | first :: _ =>
                if bool_decide (kind (data node) = parallel) then
                  entered ← mapM (fun child => enterNode fuel (id child) maps seen)
                                 children;
                  Some (foldl set_add [] (concat entered))
                else
                  let initialTarget :=
                    default (id first) (findInitialTarget (Some (id node)) maps) in
                  if Js.truthy initialTarget
                  then enterNode fuel initialTarget maps seen
                  else Some [id node]
            end
      end
  end.

(** The recursion of [enterNode] never needs more fuel than this. *)
Definition enterFuel (maps : SimulationMaps) : nat := S (size (nodeById maps)).

(** [while (current) { chain.push(current); current = ...parentNode }] *)
Fixpoint getAncestors (fuel : nat) (current : option string) (maps : SimulationMaps)
    : option (list string) :=
  match current with
  | None => Some []
  | Some nodeId =>
      if Js.truthy nodeId then
        match fuel with
        | O => None
        | S fuel =>
            chain ← getAncestors fuel (nodeById maps !! nodeId ≫= parentNode) maps;
            Some (nodeId :: chain)
        end
      else Some []
  end.

Section WithPlatform.
Context `{Platform}.

(** The test of the trimmed text, then
    [try { .. return Boolean(fn({}, { type: eventType })); } catch { return false; }]:
    what the call throws is caught, and a call that never returns leaves
    [evaluateGuard] without a result. *)
Definition evaluateGuard (guardText : string) (eventType : string) : Called bool :=
  if negb (Js.truthy (Js.trim guardText)) then Gives true
  else match Function_call ("return (" +:+ guardText +:+ ");") eventType with
       | Gives result => Gives result
       | Raises => Gives false
       | Hangs => Hangs
       end.

(** [edge.data.event === eventType && evaluateGuard(edge.data.guard, eventType)] *)
Definition edge_matches (eventType : string) (edge : TransitionEdge) : Called bool :=
  if bool_decide (event (edge_data edge) = eventType)
  then evaluateGuard (guard (edge_data edge)) eventType
  else Gives false.

(** [transitions.find((edge) => ..)]: the search goes no further than a
    test that does not answer. *)
Fixpoint findMatch (eventType : string) (transitions : list TransitionEdge)
    : Called (option TransitionEdge) :=
  match transitions with
  | [] => Gives None
  | edge :: rest =>
      match edge_matches eventType edge with
      | Gives true => Gives (Some edge)
      | Gives false => findMatch eventType rest
      | Raises => Raises
      | Hangs => Hangs
      end
  end.

(** The [for (const source of ancestors)] loop. *)
Fixpoint findInChain (ancestors : list string) (eventType : string)
    (maps : SimulationMaps) : Called (option TransitionEdge) :=
  match ancestors with
  | [] => Gives None
  | sourceId :: rest =>
      match findMatch eventType (outgoing maps sourceId) with
      | Gives None => findInChain rest eventType maps
      | ended => ended
      end
  end.

(** [None] when no answer comes back: the walk of [getAncestors] or the
    evaluation of a guard does not end.  [evaluateGuard] catches what a
    guard throws, so nothing is raised here. *)
Definition findTransitionForEvent (fuel : nat) (activeLeaf : string)
    (eventType : string) (maps : SimulationMaps) : option (option TransitionEdge) :=
  ancestors ← getAncestors fuel (Some activeLeaf) maps;
  match findInChain ancestors eventType maps with
  | Gives found => Some found
  | Raises | Hangs => None
  end.

End WithPlatform.

Definition initialSimulationState (machine : MachineDocument) : option (list string) :=
  let maps := buildMaps machine in
  let fallback :=
    List.find (fun node => negb (Js.truthy (default "" (parentNode node)))
                           && negb (is_marker node))
              (nodes machine) in
  match findInitialTarget None maps with
  | Some rootTarget =>
      if Js.truthy rootTarget then enterNode (enterFuel maps) rootTarget maps ∅
      else match fallback with
           | Some node => enterNode (enterFuel maps) (id node) maps ∅
           | None => Some []
           end
  | None =>
      match fallback with
      | Some node => enterNode (enterFuel maps) (id node) maps ∅
      | None => Some []
      end
  end.

Record SimulationStep := {
  nextActiveLeafIds : list string;
  takenEdgeId : option string;
}.

Section Engine.
Context `{Platform}.

(** [events.add(..)] for every edge of every ancestor of one leaf. *)
Definition collectEvents (maps : SimulationMaps) (events : list string)
    (ancestors : list string) : list string :=
  foldl (fun events sourceId =>
           foldl (fun events edge =>
                    let name := Js.trim (event (edge_data edge)) in
                    if Js.truthy name then set_add events name else events)
                 events (outgoing maps sourceId))
        events ancestors.

Fixpoint availableLoop (fuel : nat) (maps : SimulationMaps) (events : list string)
    (leaves : list string) : option (list string) :=
  match leaves with
  | [] => Some events
  | leaf :: rest =>
      ancestors ← getAncestors fuel (Some leaf) maps;
      availableLoop fuel maps (collectEvents maps events ancestors) rest
  end.

(** [Array.prototype.sort] is stable; an element goes after those it does
    not order before. *)
Fixpoint sortInsert (name : string) (sorted : list string) : list string :=
  match sorted with
  | [] => [name]
  | other :: rest =>
      if (localeCompare name other <? 0)%Z then name :: other :: rest
      else other :: sortInsert name rest
  end.

Definition sortByLocale (names : list string) : list string :=
  foldl (fun sorted name => sortInsert name sorted) [] names.

Definition getAvailableEvents (fuel : nat) (machine : MachineDocument)
    (activeLeafIds : list string) : option (list string) :=
  events ← availableLoop fuel (buildMaps machine) [] activeLeafIds;
  Some (sortByLocale events).

(** The [for (const leaf of activeLeafIds)] loop of
    [triggerSimulationEvent], with both of its exits. *)
Fixpoint triggerLoop (fuel : nat) (maps : SimulationMaps) (leaves : list string)
    (eventType : string) (activeLeafIds : list string) : option SimulationStep :=
  match leaves with
  | [] => Some {| nextActiveLeafIds := activeLeafIds; takenEdgeId := None |}
  | leaf :: rest =>
      found ← findTransitionForEvent fuel leaf eventType maps;
      match found with
      | None => triggerLoop fuel maps rest eventType activeLeafIds
      | Some transition =>
          nextLeaves ← enterNode (enterFuel maps) (target transition) maps ∅;
          Some {| nextActiveLeafIds := nextLeaves;
                  takenEdgeId := Some (edge_id transition) |}
      end
  end.

Definition triggerSimulationEvent (fuel : nat) (machine : MachineDocument)
    (activeLeafIds : list string) (eventType : string) : option SimulationStep :=
  triggerLoop fuel (buildMaps machine) activeLeafIds eventType activeLeafIds.

End Engine.

(** ** The bundled machines ([src/examples/machines.ts]) *)

(** reactflow's [MarkerType.ArrowClosed]. *)
Definition MarkerType_ArrowClosed : string := "arrowclosed".

Definition arrowMarker : jsval := JObj [("type", JStr MarkerType_ArrowClosed)].

Module Examples.

Definition node (id : string) (label : string) (kind : NodeKind) (x y : Z)
    (parentNode : option string) (width height : option Z) : StateNode :=
  {| id := id;
     position := {| pos_x := x; pos_y := y |};
     parentNode := parentNode;
     extent := Js.truthy (default "" parentNode);
     style :=
       match width, height with
       | Some w, Some h =>
           if bool_decide (w ≠ 0%Z) && bool_decide (h ≠ 0%Z)
           then Some (JObj [("width", JNum w); ("height", JNum h)]) else None
       | _, _ => None
       end;
     data := {| label := label; kind := kind |} |}.

Definition edge (id source target event guard : string) (actions : list string)
    : TransitionEdge :=
  {| edge_id := id;
     source := source;
     target := target;
     markerEnd := Some arrowMarker;
     edge_data := {| event := event; guard := guard; actions := actions |} |}.

Definition origin : Viewport := {| view_x := 0; view_y := 0; zoom := 1 |}.

Definition trafficLightMachine : MachineDocument :=
  {| machineId := "trafficLight";
     viewport := origin;
     nodes :=
       [ node "tl_init" "Initial" initial 40 165 None None None;
         node "red" "Red" atomic 220 140 None None None;
         node "green" "Green" atomic 460 140 None None None;
         node "yellow" "Yellow" atomic 700 140 None None None ];
     edges :=
       [ edge "e_tl_init_red" "tl_init" "red" "INIT" "" [];
         edge "e_tl_red_green" "red" "green" "TIMER" "" ["startGoTimer"];
         edge "e_tl_green_yellow" "green" "yellow" "TIMER" "" ["warnDrivers"];
         edge "e_tl_yellow_red" "yellow" "red" "TIMER" "" ["stopTraffic"] ] |}.

Definition checkoutMachine : MachineDocument :=
  {| machineId := "checkoutFlow";
     viewport := origin;
     nodes :=
       [ node "co_init" "Initial" initial 30 210 None None None;
         node "cart" "Cart" atomic 190 180 None None None;
         node "review" "Review (Parallel)" parallel 420 80 None (Some 520%Z) (Some 320%Z);
         node "review_shipping" "Shipping" atomic 40 70 (Some "review") None None;
         node "review_payment" "Payment" atomic 260 70 (Some "review") None None;
         node "review_init_shipping" "Initial" initial 18 22 (Some "review") None None;
         node "confirm" "Confirm" atomic 1020 180 None None None;
         node "done" "Done" final 1240 180 None None None ];
     edges :=
       [ edge "e_co_init_cart" "co_init" "cart" "INIT" "" [];
         edge "e_cart_review" "cart" "review" "BEGIN_CHECKOUT" "" ["lockInventory"];
         edge "e_review_init_shipping" "review_init_shipping" "review_shipping" "INIT" "" [];
         edge "e_shipping_payment" "review_shipping" "review_payment" "SHIPPING_OK" "" [];
         edge "e_payment_confirm" "review_payment" "confirm" "PAYMENT_OK" "true"
              ["capturePayment"];
         edge "e_confirm_done" "confirm" "done" "PLACE_ORDER" "" ["emitOrderPlaced"] ] |}.

End Examples.

(** ** Identifiers ([src/lib/ids.ts]) *)

(** [createId] reads and advances the module's [counter]. *)
Definition createId `{Platform} (prefix : string) (counter : N) : string * N :=
  let counter := (counter + 1)%N in
  (prefix +:+ "_" +:+ Js.toString36 (Date_now counter) +:+ "_" +:+ Js.toString36 counter,
   counter).

(** [value.trim().toLowerCase().replace(/[^a-z0-9]+/g, '_')
      .replace(/^_+|_+$/g, '') || 'state'].  Whatever is beyond ASCII
    after the lower-casing becomes [_] with its neighbours, the bytes of
    a character as its code units would. *)
Definition slugify (value : string) : string :=
  let slug :=
    Js.stripUnderscores (Js.collapseRuns false (Js.toLowerCase (Js.trim value))) in
  if Js.truthy slug then slug else "state".

(** ** Plain objects used as dictionaries

    [const o: Record<string, V> = {}] is an ordinary object: it lists its
    own properties with the array indices first, in ascending order, and
    the other names after them in the order they were added; a read of a
    name it does not own falls through to [Object.prototype]. *)

Module Obj.

Definition prototype_members : list string :=
  [ "constructor"; "__proto__"; "hasOwnProperty"; "isPrototypeOf";
    "propertyIsEnumerable"; "toLocaleString"; "toString"; "valueOf";
    "__defineGetter__"; "__defineSetter__"; "__lookupGetter__";
    "__lookupSetter__" ].

Inductive read (V : Type) := Own (v : V) | Inherited | Missing.
Arguments Own {V} v.
Arguments Inherited {V}.
Arguments Missing {V}.

Fixpoint own {V} (k : string) (props : list (string * V)) : option V :=
  match props with
  | [] => None
  | (k', v) :: rest => if String.eqb k k' then Some v else own k rest
  end.

(** [o[k]] *)
Definition get {V} (k : string) (props : list (string * V)) : read V :=
  match own k props with
  | Some v => Own v
  | None => if bool_decide (k ∈ prototype_members) then Inherited else Missing
  end.

Definition digit_value (c : ascii) : option N :=
  if Js.between 48 57 c then Some (Js.code c - 48)%N else None.

Fixpoint digits_value (acc : N) (s : string) : option N :=
  match s with
  | EmptyString => Some acc
  | String c s' => d ← digit_value c; digits_value (acc * 10 + d)%N s'
  end.

(** The canonical decimal name of an integer below [2^32 - 1]. *)
Definition array_index (k : string) : option N :=
  match k with
  | EmptyString => None
  | String c rest =>
      if Js.between 48 48 c && Js.truthy rest then None
      else n ← digits_value 0 k; if (n <? 4294967295)%N then Some n else None
  end.

Fixpoint replace {V} (k : string) (v : V) (props : list (string * V))
    : list (string * V) :=
  match props with
  | [] => []
  | (k', v') :: rest =>
      if String.eqb k k' then (k', v) :: rest else (k', v') :: replace k v rest
  end.

Fixpoint add_index {V} (i : N) (k : string) (v : V) (props : list (string * V))
    : list (string * V) :=
  match props with
  | [] => [(k, v)]
  | (k', v') :: rest =>
      match array_index k' with
      | Some j => if (i <? j)%N then (k, v) :: props
                  else (k', v') :: add_index i k v rest
      | None => (k, v) :: props
      end
  end.

(** Defining the own property [k]: its place is kept when it exists. *)
Definition define {V} (k : string) (v : V) (props : list (string * V))
    : list (string * V) :=
  match own k props with
  | Some _ => replace k v props
  | None =>
      match array_index k with
      | Some i => add_index i k v props
      | None => props ++ [(k, v)]
      end
  end.

(** [o[k] = v] for a [v] that is not an object: the name [__proto__] is
    an accessor of [Object.prototype], which ignores such a value. *)
Definition assign {V} (k : string) (v : V) (props : list (string * V))
    : list (string * V) :=
  if String.eqb k "__proto__" then props else define k v props.

(** [delete o[k]], also what writing [undefined] amounts to here. *)
Definition remove {V} (k : string) (props : list (string * V))
    : list (string * V) :=
  List.filter (fun p => negb (String.eqb k (fst p))) props.

Definition keys {V} (props : list (string * V)) : list string := fst <$> props.

End Obj.

(** ** Outcomes of a call

    [Throw] is a raised exception; [OutOfFuel] stands for a recursion that
    was cut off by the fuel it was given. *)

Inductive JsError := SyntaxError | TypeError.

Inductive Run (A : Type) := Return (a : A) | Throw (e : JsError) | OutOfFuel.
Arguments Return {A} a.
Arguments Throw {A} e.
Arguments OutOfFuel {A}.

#[global] Instance Run_ret : MRet Run := fun A a => Return a.
#[global] Instance Run_bind : MBind Run := fun A B f m =>
  match m with
  | Return a => f a
  | Throw e => Throw e
  | OutOfFuel => OutOfFuel
  end.

#[global] Instance Run_fmap : FMap Run := fun A B f m =>
  match m with
  | Return a => Return (f a)
  | Throw e => Throw e
  | OutOfFuel => OutOfFuel
  end.

(** ** Documents as JavaScript values

    The object a typed document is at run time, its absent optional fields
    left out. *)

Definition kind_name (k : NodeKind) : string :=
  match k with
  | atomic => "atomic"
  | initial => "initial"
  | final => "final"
  | parallel => "parallel"
  end.

(** A property that is present only when its value is defined. *)
Definition prop (k : string) (v : option jsval) : list (string * jsval) :=
  match v with
  | Some v => [(k, v)]
  | None => []
  end.

Definition xy_value (x y : Z) : jsval := JObj [("x", JNum x); ("y", JNum y)].

Definition node_value (node : StateNode) : jsval :=
  JObj ([ ("id", JStr (id node));
          ("type", JStr "stateNode");
          ("position", xy_value (pos_x (position node)) (pos_y (position node))) ]
        ++ prop "parentNode" (JStr <$> parentNode node)
        ++ prop "extent" (if extent node then Some (JStr "parent") else None)
        ++ prop "style" (style node)
        ++ [ ("data", JObj [ ("label", JStr (label (data node)));
                             ("kind", JStr (kind_name (kind (data node)))) ]) ]).

Definition edge_value (edge : TransitionEdge) : jsval :=
  JObj ([ ("id", JStr (edge_id edge));
          ("type", JStr "transitionEdge");
          ("source", JStr (source edge));
          ("target", JStr (target edge)) ]
        ++ prop "markerEnd" (markerEnd edge)
        ++ [ ("data", JObj [ ("event", JStr (event (edge_data edge)));
                             ("guard", JStr (guard (edge_data edge)));
                             ("actions", JArr (JStr <$> actions (edge_data edge))) ]) ]).

Definition viewport_value (x y zoom : Z) : jsval :=
  JObj [("x", JNum x); ("y", JNum y); ("zoom", JNum zoom)].

Definition doc_value (machine : MachineDocument) : jsval :=
  JObj [ ("version", JNum 1);
         ("machineId", JStr (machineId machine));
         ("nodes", JArr (node_value <$> nodes machine));
         ("edges", JArr (edge_value <$> edges machine));
         ("viewport", viewport_value (view_x (viewport machine))
                                     (view_y (viewport machine))
                                     (zoom (viewport machine))) ].

(** ** Export ([src/lib/machine-format.ts]) *)

(** [JSON.parse(JSON.stringify(machine))].  The text printed here has no
    indentation, unlike the one [JSON_stringify] stands for; the two
    differ in white space between tokens only, which [JSON.parse] skips,
    so one printer serves both. *)
Definition toSerializableMachine `{Platform} (machine : MachineDocument) : Run jsval :=
  match JSON_parse (JSON_stringify (doc_value machine)) with
  | Some copy => Return copy
  | None => Throw SyntaxError
  end.

Definition buildChildrenMap (nodes : list StateNode)
    : gmap (option string) (list StateNode) :=
  foldl (fun m node => map_push (parentNode node) node m) ∅ nodes.

Definition buildEdgeMap (edges : list TransitionEdge)
    : gmap string (list TransitionEdge) :=
  foldl (fun m edge => map_push (source edge) edge m) ∅ edges.

Definition firstInitialTarget (parentId : option string)
    (childrenMap : gmap (option string) (list StateNode))
    (edgeMap : gmap string (list TransitionEdge)) : option string :=
  let siblings := default [] (childrenMap !! parentId) in
  match List.find is_marker siblings with
  | None => None
  | Some marker => target <$> head (default [] (edgeMap !! id marker))
  end.

Definition toTransitionValue (edge : TransitionEdge) : jsval :=
  let guardText := Js.trim (guard (edge_data edge)) in
  let kept := List.filter (fun entry => Js.truthy (Js.trim entry))
                          (actions (edge_data edge)) in
  JObj ([ ("target", JStr ("#" +:+ target edge)) ]
        ++ prop "guard" (if Js.truthy guardText then Some (JStr guardText) else None)
        ++ prop "actions" match kept with
                          | [] => None
                          | [only] => Some (JStr only)
                          | _ => Some (JArr (JStr <$> kept))
                          end).

Record BuiltStates := {
  states : list (string * jsval);
  idToKey : list (string * string);
}.

(** The first loop of [buildStatesForParent]. *)
Definition assignKeys (children : list StateNode) : list (string * string) :=
  snd (foldl (fun '(keyCount, idToKey) child =>
                let base := slugify (label (data child)) in
                let count := default 0%nat ((keyCount : gmap string nat) !! base) in
                (<[base := S count]> keyCount,
                 Obj.assign (id child)
                   (if bool_decide (count = 0%nat) then base
                    else base +:+ "_" +:+ pretty (S count))
                   idToKey))
             (∅, []) children).

(** [existing.push] throws when [grouped[eventType]] is a member of
    [Object.prototype], which has no [push]. *)
Fixpoint groupTransitions (transitions : list TransitionEdge)
    (grouped : list (string * list jsval)) : Run (list (string * list jsval)) :=
  match transitions with
  | [] => Return grouped
  | edge :: rest =>
      let eventType := Js.trim (event (edge_data edge)) in
      if negb (Js.truthy eventType) then groupTransitions rest grouped
      else match Obj.get eventType grouped with
           | Obj.Own existing =>
               groupTransitions rest
                 (Obj.define eventType (existing ++ [toTransitionValue edge]) grouped)
           | Obj.Missing =>
               groupTransitions rest
                 (Obj.define eventType [toTransitionValue edge] grouped)
           | Obj.Inherited => Throw TypeError
           end
  end.

Definition onValue (grouped : list (string * list jsval)) : list (string * jsval) :=
  foldl (fun on '(eventType, entries) =>
           Obj.define eventType
             match entries with
             | [only] => only
             | _ => JArr entries
             end on)
        [] grouped.

(** What [JSON.stringify] makes of an inherited member stored in a
    property: [Object.prototype] itself prints as [{}], the others are
    functions and the property is left out. *)
Definition inheritedValue (k : string) : option jsval :=
  if String.eqb k "__proto__" then Some (JObj []) else None.

(** [idToKey[target]] as the value of an [initial] property; the Boolean
    says whether the read was truthy. *)
Definition readKey (k : string) (idToKey : list (string * string))
    : bool * option jsval :=
  match Obj.get k idToKey with
  | Obj.Own key => (Js.truthy key, Some (JStr key))
  | Obj.Inherited => (true, inheritedValue k)
  | Obj.Missing => (false, None)
  end.

(** [states[idToKey[child.id]]]: a key that is not a string is converted
    to one. *)
Definition stateKey (childId : string) (idToKey : list (string * string)) : string :=
  match Obj.get childId idToKey with
  | Obj.Own key => key
  | Obj.Inherited => "[object Object]"
  | Obj.Missing => "undefined"
  end.

Section Builder.
Variable childrenMap : gmap (option string) (list StateNode).
Variable edgeMap : gmap string (list TransitionEdge).

(** The body of the second loop of [buildStatesForParent], given the
    nested call's result. *)
Definition stateConfigOf (child : StateNode) (nested : BuiltStates) : Run jsval :=
  let typeName :=
    match kind (data child) with
    | final => Some (JStr "final")
    | parallel => Some (JStr "parallel")
    | _ => None
    end in
  let initialKey :=
    if bool_decide (kind (data child) = parallel) then None
    else match firstInitialTarget (Some (id child)) childrenMap edgeMap with
         | Some initialTargetId =>
             if Js.truthy initialTargetId
                && fst (readKey initialTargetId (idToKey nested))
             then snd (readKey initialTargetId (idToKey nested))
             else None
         | None => None
         end in
  grouped ← groupTransitions (default [] (edgeMap !! id child)) [];
  Return
    (JObj ([ ("id", JStr (id child));
             ("meta", JObj ([ ("kind", JStr (kind_name (kind (data child))));
                              ("position", xy_value (pos_x (position child))
                                                    (pos_y (position child))) ]
                            ++ prop "style" (style child))) ]
           ++ prop "type" typeName
           ++ prop "states" match states nested with
                            | [] => None
                            | _ => Some (JObj (states nested))
                            end
           ++ prop "initial" initialKey
           ++ prop "on" match grouped with
                        | [] => None
                        | _ => Some (JObj (onValue grouped))
                        end)).

(** The second loop of [buildStatesForParent]; [build] is the nested
    call. *)
Definition statesLoop (build : option string -> Run BuiltStates)
    (idToKey : list (string * string))
    : list StateNode -> list (string * jsval) -> Run (list (string * jsval)) :=
  fix loop todo states :=
    match todo with
    | [] => Return states
    | child :: rest =>
        nested ← build (Some (id child));
        stateConfig ← stateConfigOf child nested;
        loop rest (Obj.define (stateKey (id child) idToKey) stateConfig states)
    end.

Fixpoint buildStatesForParent (fuel : nat) (parentId : option string)
    : Run BuiltStates :=
  match fuel with
  | O => OutOfFuel
  | S fuel =>
      let children :=
        List.filter (fun node => negb (is_marker node))
                    (default [] (childrenMap !! parentId)) in
      let idToKey := assignKeys children in
      built ← statesLoop (buildStatesForParent fuel) idToKey children [];
      Return {| states := built; idToKey := idToKey |}
  end.

End Builder.

Definition buildRootState `{Platform} (fuel : nat) (machine : MachineDocument)
    : Run jsval :=
  let childrenMap := buildChildrenMap (nodes machine) in
  let edgeMap := buildEdgeMap (edges machine) in
  root ← buildStatesForParent childrenMap edgeMap fuel None;
  let rootInitialTarget := firstInitialTarget None childrenMap edgeMap in
  let firstStateKey := head (Obj.keys (states root)) in
  fluxState ← toSerializableMachine machine;
  let fromMarker :=
    match rootInitialTarget with
    | Some targetId =>
        if Js.truthy targetId then readKey targetId (idToKey root) else (false, None)
    | None => (false, None)
    end in
  let initialKey :=
    if fst fromMarker then snd fromMarker
    else match firstStateKey with
         | Some key => if Js.truthy key then Some (JStr key) else None
         | None => None
         end in
  Return (JObj ([ ("id", JStr (machineId machine));
                  ("states", JObj (states root));
                  ("meta", JObj [("fluxState", fluxState)]) ]
                ++ prop "initial" initialKey)).

Definition exportMachineAsXState `{Platform} (fuel : nat) (machine : MachineDocument)
    : Run string :=
  root ← buildRootState fuel machine;
  Return (JSON_stringify root).

(** ** Reading parsed values

    Property reads, truthiness and conversions on values whose shape the
    code does not know.  The names the code reads ([id], [meta], [states],
    [data], ...) are members of no built-in prototype, so a value that is
    not a plain object has none of them. *)

Module Dyn.

(** [undefined] is [None]. *)
Definition truthy (v : option jsval) : bool :=
  match v with
  | None | Some JNull => false
  | Some (JBool b) => b
  | Some (JNum n) => negb (n =? 0)%Z
  | Some (JStr s) => Js.truthy s
  | Some (JArr _) | Some (JObj _) => true
  end.

Definition nullish (v : option jsval) : bool :=
  match v with
  | None | Some JNull => true
  | _ => false
  end.

(** [v.k] for a [v] that is neither [null] nor [undefined]. *)
Definition field (v : jsval) (k : string) : option jsval :=
  match v with
  | JObj props => Obj.own k props
  | _ => None
  end.

(** [v.k] *)
Definition get (v : option jsval) (k : string) : Run (option jsval) :=
  match v with
  | None | Some JNull => Throw TypeError
  | Some v => Return (field v k)
  end.

(** [v?.k] *)
Definition get_opt (v : option jsval) (k : string) : option jsval :=
  match v with
  | None | Some JNull => None
  | Some v => field v k
  end.

(** [a ?? b] *)
Definition coalesce (a b : option jsval) : option jsval :=
  if nullish a then b else a.

Definition chars (s : string) : list jsval :=
  (fun c => JStr (String c EmptyString)) <$> list_ascii_of_string s.

Definition indexed (items : list jsval) : list (string * jsval) :=
  imap (fun i item => (pretty i, item)) items.

(** [Object.entries(v)], also the properties [{...v}] copies. *)
Definition entries (v : jsval) : list (string * jsval) :=
  match v with
  | JObj props => props
  | JArr items => indexed items
  | JStr s => indexed (chars s)
  | _ => []
  end.

Definition join (sep : string) (parts : list string) : string :=
  match parts with
  | [] => ""
  | first :: rest => foldl (fun acc part => acc +:+ sep +:+ part) first rest
  end.

(** [String(v)] *)
Fixpoint to_string (v : jsval) : string :=
  match v with
  | JNull => "null"
  | JBool true => "true"
  | JBool false => "false"
  | JNum n => pretty n
  | JStr s => s
  | JArr items =>
      join "," ((fun item => match item with
                             | JNull => ""
                             | _ => to_string item
                             end) <$> items)
  | JObj _ => "[object Object]"
  end.

Definition is_array (v : option jsval) : bool :=
  match v with Some (JArr _) => true | _ => false end.

Definition is_string (v : option jsval) : bool :=
  match v with Some (JStr _) => true | _ => false end.

(** [v === s] *)
Definition is_str (s : string) (v : option jsval) : bool :=
  match v with Some (JStr t) => String.eqb s t | _ => false end.

(** An upper bound on how deep objects and arrays nest in [v]. *)
Fixpoint depth (v : jsval) : nat :=
  match v with
  | JArr items => S (foldr (fun item d => Nat.max (depth item) d) 0%nat items)
  | JObj props => S (foldr (fun p d => Nat.max (depth (snd p)) d) 0%nat props)
  | _ => 0%nat
  end.

End Dyn.

(** ** Import ([src/lib/machine-format.ts]) *)

Definition isMachineDocument (value : option jsval) : bool :=
  match value with
  | Some (JObj _ as candidate) =>
      Dyn.is_array (Dyn.field candidate "nodes")
      && Dyn.is_array (Dyn.field candidate "edges")
      && Dyn.is_string (Dyn.field candidate "machineId")
  | _ => false
  end.

(** [{ ...o, k: v }] for each of the properties written after the spread;
    writing [undefined] leaves the property absent. *)
Definition override (k : string) (v : option jsval) (props : list (string * jsval))
    : list (string * jsval) :=
  match v with
  | Some v => Obj.define k v props
  | None => Obj.remove k props
  end.

Definition normalizeNode (node : jsval) : Run jsval :=
  nodeData ← Dyn.get (Some node) "data";
  labelText ← Dyn.get nodeData "label";
  kindText ← Dyn.get nodeData "kind";
  Return
    (JObj (override "extent"
             (if Dyn.truthy (Dyn.field node "parentNode")
              then Some (JStr "parent") else None)
          (override "data"
             (Some (JObj (prop "label" (Dyn.coalesce labelText (Dyn.field node "id"))
                          ++ prop "kind" (Dyn.coalesce kindText (Some (JStr "atomic"))))))
          (override "type" (Some (JStr "stateNode"))
          (Dyn.entries node))))).

Definition normalizeEdge (edge : jsval) : Run jsval :=
  marker ← Dyn.get (Some edge) "markerEnd";
  edgeData ← Dyn.get (Some edge) "data";
  eventText ← Dyn.get edgeData "event";
  guardText ← Dyn.get edgeData "guard";
  actionList ← Dyn.get edgeData "actions";
  Return
    (JObj (override "data"
             (Some (JObj (prop "event" (Dyn.coalesce eventText (Some (JStr "EVENT")))
                          ++ prop "guard" (Dyn.coalesce guardText (Some (JStr "")))
                          ++ prop "actions" (Dyn.coalesce actionList (Some (JArr []))))))
          (override "markerEnd" (Dyn.coalesce marker (Some arrowMarker))
          (override "type" (Some (JStr "transitionEdge"))
          (Dyn.entries edge))))).

(** [machine.nodes.map(f)]; what is not an array has no [map]. *)
Definition mapArray (f : jsval -> Run jsval) (v : option jsval) : Run jsval :=
  match v with
  | Some (JArr items) => JArr <$> mapM f items
  | _ => Throw TypeError
  end.

Definition normalizeImportedMachine (machine : jsval) : Run jsval :=
  let machineIdValue :=
    if Dyn.truthy (Dyn.field machine "machineId") then Dyn.field machine "machineId"
    else Some (JStr "importedMachine") in
  nodeValues ← mapArray normalizeNode (Dyn.field machine "nodes");
  edgeValues ← mapArray normalizeEdge (Dyn.field machine "edges");
  Return (JObj ([ ("version", JNum 1) ]
                ++ prop "machineId" machineIdValue
                ++ [ ("nodes", nodeValues); ("edges", edgeValues) ]
                ++ prop "viewport" (Dyn.coalesce (Dyn.field machine "viewport")
                                                 (Some (viewport_value 0 0 1))))).

(** *** The heuristic reconstruction

    [nodes], [edges], [pathToId] and the module's [counter] are written as
    the walk goes, and what was written stays written when an exception
    cuts the walk short.  ([idToPath] is written too and never read.) *)

Record ImportState := {
  imp_nodes : list jsval;
  imp_edges : list jsval;
  imp_pathToId : gmap string jsval;
  imp_counter : N;
}.

Definition Imp (A : Type) : Type := ImportState -> Run A * ImportState.

Definition imp_ret {A} (a : A) : Imp A := fun st => (Return a, st).

Definition imp_lift {A} (r : Run A) : Imp A := fun st => (r, st).

Definition imp_bind {A B} (m : Imp A) (f : A -> Imp B) : Imp B := fun st =>
  match m st with
  | (Return a, st') => f a st'
  | (Throw e, st') => (Throw e, st')
  | (OutOfFuel, st') => (OutOfFuel, st')
  end.

Notation "'let*' x ':=' m 'in' k" := (imp_bind m (fun x => k))
  (at level 10, x name, m at level 100, k at level 200, only parsing).

Notation "m ';;' k" := (imp_bind m (fun _ => k))
  (at level 100, k at level 200, right associativity, only parsing).

(** [for (const x of l) body(x)] *)
Definition imp_for {A} (l : list A) (body : A -> Imp unit) : Imp unit :=
  foldr (fun x rest => body x ;; rest) (imp_ret tt) l.

Definition imp_get : Imp ImportState := fun st => (Return st, st).

Definition pushNode (node : jsval) : Imp unit := fun st =>
  (Return tt, {| imp_nodes := imp_nodes st ++ [node];
                 imp_edges := imp_edges st;
                 imp_pathToId := imp_pathToId st;
                 imp_counter := imp_counter st |}).

Definition pushEdge (edge : jsval) : Imp unit := fun st =>
  (Return tt, {| imp_nodes := imp_nodes st;
                 imp_edges := imp_edges st ++ [edge];
                 imp_pathToId := imp_pathToId st;
                 imp_counter := imp_counter st |}).

Definition setPath (path : string) (nodeId : jsval) : Imp unit := fun st =>
  (Return tt, {| imp_nodes := imp_nodes st;
                 imp_edges := imp_edges st;
                 imp_pathToId := <[path := nodeId]> (imp_pathToId st);
                 imp_counter := imp_counter st |}).

Definition freshId `{Platform} (prefix : string) : Imp string := fun st =>
  let '(newId, counter) := createId prefix (imp_counter st) in
  (Return newId, {| imp_nodes := imp_nodes st;
                    imp_edges := imp_edges st;
                    imp_pathToId := imp_pathToId st;
                    imp_counter := counter |}).

(** [a || b] for a [b] that is defined. *)
Definition or_else (a : option jsval) (b : jsval) : jsval :=
  match a with
  | Some v => if Dyn.truthy a then v else b
  | None => b
  end.

(** [parentPath ? `${parentPath}.${key}` : key] *)
Definition joinPath (parentPath key : string) : string :=
  if Js.truthy parentPath then parentPath +:+ "." +:+ key else key.

Definition kindOfType (typeField : option jsval) : string :=
  if Dyn.is_str "final" typeField then "final"
  else if Dyn.is_str "parallel" typeField then "parallel"
  else "atomic".

Definition createNode (key : string) (config : jsval) (parentId : option jsval)
    (path : string) (index : Z) : Imp unit :=
  let* configId := imp_lift (Dyn.get (Some config) "id") in
  let nodeId := or_else configId (JStr path) in
  let kindText := kindOfType (Dyn.field config "type") in
  let metaPosition := Dyn.get_opt (Dyn.field config "meta") "position" in
  let defaultX := (90 + (index mod 4) * 220)%Z in
  let defaultY := (90 + (index / 4) * 150)%Z in
  let node :=
    JObj ([ ("id", nodeId); ("type", JStr "stateNode") ]
          ++ prop "position"
                  (Dyn.coalesce metaPosition (Some (xy_value defaultX defaultY)))
          ++ prop "parentNode" parentId
          ++ prop "extent" (if Dyn.truthy parentId then Some (JStr "parent") else None)
          ++ prop "style"
                  (Dyn.coalesce (Dyn.get_opt (Dyn.field config "meta") "style")
                     (if String.eqb kindText "parallel"
                      then Some (JObj [("width", JNum 320); ("height", JNum 220)])
                      else None))
          ++ [ ("data", JObj [("label", JStr key); ("kind", JStr kindText)]) ]) in
  pushNode node ;;
  setPath path nodeId.

Definition numbered {A} (l : list A) : list (Z * A) :=
  imap (fun i x => (Z.of_nat i, x)) l.

Fixpoint walkStates (fuel : nat) (states : option jsval) (parentId : option jsval)
    (parentPath : string) : Imp unit :=
  match states with
  | None => imp_ret tt
  | Some statesValue =>
      if negb (Dyn.truthy states) then imp_ret tt else
      match fuel with
      | O => imp_lift OutOfFuel
      | S fuel =>
          imp_for (numbered (Dyn.entries statesValue))
            (fun '(index, (key, config)) =>
               let path := joinPath parentPath key in
               createNode key config parentId path index ;;
               walkStates fuel (Dyn.field config "states")
                          (Some (or_else (Dyn.field config "id") (JStr path))) path)
      end
  end.

Definition lookupPath (pathToId : gmap string jsval) (path : jsval) : option jsval :=
  match path with
  | JStr text => pathToId !! text
  | _ => None
  end.

Definition createInitialMarker `{Platform} (parentId : option jsval)
    (parentPath : string) (initialKey : jsval) : Imp unit :=
  let targetPath :=
    if Js.truthy parentPath
    then JStr (parentPath +:+ "." +:+ Dyn.to_string initialKey)
    else initialKey in
  let* st := imp_get in
  match lookupPath (imp_pathToId st) targetPath with
  | Some targetId =>
      if negb (Dyn.truthy (Some targetId)) then imp_ret tt else
      let* markerId :=
        freshId (if Dyn.truthy parentId then "initial_child" else "initial_root") in
      pushNode
        (JObj ([ ("id", JStr markerId); ("type", JStr "stateNode");
                 ("position", if Dyn.truthy parentId then xy_value 22 22
                              else xy_value 40 120) ]
               ++ prop "parentNode" parentId
               ++ prop "extent" (if Dyn.truthy parentId then Some (JStr "parent")
                                 else None)
               ++ [ ("data", JObj [("label", JStr "Initial");
                                   ("kind", JStr "initial")]) ])) ;;
      let* edgeId := freshId "edge" in
      pushEdge
        (JObj [ ("id", JStr edgeId); ("type", JStr "transitionEdge");
                ("source", JStr markerId); ("target", targetId);
                ("markerEnd", arrowMarker);
                ("data", JObj [("event", JStr "INIT"); ("guard", JStr "");
                               ("actions", JArr [])]) ])
  | None => imp_ret tt
  end.

Definition readActions (value : option jsval) : list string :=
  if negb (Dyn.truthy value) then []
  else match value with
       | Some (JArr items) => Dyn.to_string <$> items
       | Some v => [Dyn.to_string v]
       | None => []
       end.

Definition normalizeTransitions (value : jsval) : list jsval :=
  let wrap text := JObj [("target", JStr text)] in
  match value with
  | JArr items =>
      (fun entry => match entry with JStr text => wrap text | _ => entry end) <$> items
  | JStr text => [wrap text]
  | _ => [value]
  end.

(** [path.slice(0, path.lastIndexOf('.'))], [None] when [path] has no dot. *)
Fixpoint beforeLastDot (path : string) : option string :=
  match path with
  | EmptyString => None
  | String c rest =>
      match beforeLastDot rest with
      | Some prefix => Some (String c prefix)
      | None => if Js.between 46 46 c then Some EmptyString else None
      end
  end.

(** [target.startsWith] is not a function unless [target] is a string. *)
Definition resolveTarget (target : jsval) (currentPath : string)
    (pathToId : gmap string jsval) (idSet : list jsval) : Run (option jsval) :=
  if negb (Dyn.truthy (Some target)) then Return None else
  match target with
  | JStr text =>
      match text with
      | String "#" absoluteId =>
          Return (if existsb (fun known => Dyn.is_str absoluteId (Some known)) idSet
                  then Some (JStr absoluteId) else None)
      | _ =>
          match pathToId !! text with
          | Some found => Return (Some found)
          | None =>
              let parentPath := default "" (beforeLastDot currentPath) in
              match pathToId !! joinPath parentPath text with
              | Some found => Return (Some found)
              | None => Return (pathToId !! (currentPath +:+ "." +:+ text))
              end
          end
      end
  | _ => Throw TypeError
  end.

Section Reconstruct.
Context `{Platform}.

(** The body of [for (const target of targets)]. *)
Definition addEdge (sourceId : jsval) (statePath eventType : string)
    (transition : jsval) (idSet : list jsval) (target : jsval) : Imp unit :=
  let* st := imp_get in
  let* resolvedTarget :=
    imp_lift (resolveTarget target statePath (imp_pathToId st) idSet) in
  match resolvedTarget with
  | Some resolved =>
      if negb (Dyn.truthy resolvedTarget) then imp_ret tt else
      let* edgeId := freshId "edge" in
      pushEdge
        (JObj ([ ("id", JStr edgeId); ("type", JStr "transitionEdge");
                 ("source", sourceId); ("target", resolved);
                 ("markerEnd", arrowMarker);
                 ("data",
                  JObj ([ ("event", JStr eventType) ]
                        ++ prop "guard"
                             (Dyn.coalesce (Dyn.field transition "guard")
                                (Dyn.coalesce (Dyn.field transition "cond")
                                              (Some (JStr ""))))
                        ++ [ ("actions",
                              JArr (JStr <$> readActions
                                               (Dyn.field transition "actions"))) ])) ]))
  | None => imp_ret tt
  end.

(** The body of [for (const transition of transitions)]. *)
Definition addTransition (sourceId : jsval) (statePath eventType : string)
    (idSet : list jsval) (transition : jsval) : Imp unit :=
  let* targetField := imp_lift (Dyn.get (Some transition) "target") in
  let targets :=
    match targetField with
    | Some (JArr items) => items
    | Some single => if Dyn.truthy targetField then [single] else []
    | None => []
    end in
  imp_for targets (addEdge sourceId statePath eventType transition idSet).

Fixpoint walkTransitions (fuel : nat) (states : option jsval) (parentPath : string)
    (idSet : list jsval) : Imp unit :=
  match states with
  | None => imp_ret tt
  | Some statesValue =>
      if negb (Dyn.truthy states) then imp_ret tt else
      match fuel with
      | O => imp_lift OutOfFuel
      | S fuel =>
          imp_for (Dyn.entries statesValue)
            (fun '(key, config) =>
               let statePath := joinPath parentPath key in
               let* st := imp_get in
               match imp_pathToId st !! statePath with
               | Some sourceId =>
                   if negb (Dyn.truthy (Some sourceId)) then imp_ret tt else
                   let* initialKey := imp_lift (Dyn.get (Some config) "initial") in
                   match initialKey with
                   | Some key' =>
                       if Dyn.truthy initialKey
                       then createInitialMarker (Some sourceId) statePath key'
                       else imp_ret tt
                   | None => imp_ret tt
                   end ;;
                   imp_for (Dyn.entries
                              (default (JObj [])
                                 (Dyn.coalesce (Dyn.field config "on") (Some (JObj [])))))
                     (fun '(eventType, targetConfig) =>
                        imp_for (normalizeTransitions targetConfig)
                          (addTransition sourceId statePath eventType idSet)) ;;
                   walkTransitions fuel (Dyn.field config "states") statePath idSet
               | None => imp_ret tt
               end)
      end
  end.

Definition emptyImport (counter : N) : ImportState :=
  {| imp_nodes := []; imp_edges := []; imp_pathToId := ∅; imp_counter := counter |}.

Definition reconstruct (parsed : jsval) : Imp jsval :=
  let machineIdValue := or_else (Dyn.field parsed "id") (JStr "importedMachine") in
  let fuel := S (Dyn.depth parsed) in
  walkStates fuel (Dyn.field parsed "states") None "" ;;
  let* walked := imp_get in
  let idSet := omap (fun node => Dyn.field node "id") (imp_nodes walked) in
  match Dyn.field parsed "initial" with
  | Some initialKey =>
      if Dyn.truthy (Some initialKey) then createInitialMarker None "" initialKey
      else imp_ret tt
  | None => imp_ret tt
  end ;;
  walkTransitions fuel (Dyn.field parsed "states") "" idSet ;;
  let* built := imp_get in
  imp_lift (normalizeImportedMachine
              (JObj [ ("version", JNum 1);
                      ("machineId", machineIdValue);
                      ("nodes", JArr (imp_nodes built));
                      ("edges", JArr (imp_edges built));
                      ("viewport", viewport_value 0 0 1) ])).

(** The result, and the module's [counter] after the call. *)
Definition importMachineFromXState (raw : string) (counter : N) : Run jsval * N :=
  match JSON_parse raw with
  | None => (Throw SyntaxError, counter)
  | Some parsed =>
      match Dyn.get (Some parsed) "meta" with
      | Return meta =>
          let embedded := Dyn.get_opt meta "fluxState" in
          if isMachineDocument embedded
          then (normalizeImportedMachine (default JNull embedded), counter)
          else let '(result, st) := reconstruct parsed (emptyImport counter) in
               (result, imp_counter st)
      | Throw e => (Throw e, counter)
      | OutOfFuel => (OutOfFuel, counter)
      end
  end.

End Reconstruct.

(** ** A reference platform

    One engine the platform interface can stand for, used where a
    statement is checked on a concrete run: a JSON printer and parser for
    integers, strings, arrays and objects, byte-wise ordering for
    [localeCompare], a clock that stands still, and an engine for the
    guards of a fragment of the language. *)

Module Reference.

Definition quote : ascii := ascii_of_N 34.
Definition backslash : ascii := ascii_of_N 92.

Definition hex_digit (d : N) : ascii :=
  if (d <? 10)%N then ascii_of_N (48 + d) else ascii_of_N (87 + d).

Definition escape_char (c : ascii) : string :=
  if Ascii.eqb c quote then String backslash (String quote EmptyString)
  else if Ascii.eqb c backslash then String backslash (String backslash EmptyString)
  else if (Js.code c <? 32)%N
       then String backslash
              ("u00" +:+ String (hex_digit (Js.code c / 16))
                           (String (hex_digit (Js.code c mod 16)) EmptyString))
       else String c EmptyString.

Fixpoint escape (s : string) : string :=
  match s with
  | EmptyString => EmptyString
  | String c rest => escape_char c +:+ escape rest
  end.

Definition quoted (s : string) : string :=
  String quote (escape s) +:+ String quote EmptyString.

Fixpoint print (v : jsval) : string :=
  match v with
  | JNull => "null"
  | JBool true => "true"
  | JBool false => "false"
  | JNum n => pretty n
  | JStr s => quoted s
  | JArr items => "[" +:+ Dyn.join "," (print <$> items) +:+ "]"
  | JObj props =>
      "{" +:+ Dyn.join "," ((fun p => quoted (fst p) +:+ ":" +:+ print (snd p)) <$> props)
          +:+ "}"
  end.

(** JSON's white space: tab, line feed, carriage return and space. *)
Definition is_json_space (c : ascii) : bool :=
  Js.between 9 10 c || Js.between 13 13 c || Js.between 32 32 c.

Fixpoint skip_ws (s : string) : string :=
  match s with
  | String c rest => if is_json_space c then skip_ws rest else s
  | EmptyString => EmptyString
  end.

Definition hex_value (c : ascii) : option N :=
  if Js.between 48 57 c then Some (Js.code c - 48)%N
  else if Js.between 97 102 c then Some (Js.code c - 87)%N
  else if Js.between 65 70 c then Some (Js.code c - 55)%N
  else None.

(** The text of a string literal after its opening quote, and what
    follows its closing quote. *)
Fixpoint string_body (s : string) : option (string * string) :=
  match s with
  | EmptyString => None
  | String c rest =>
      if Ascii.eqb c quote then Some (EmptyString, rest)
      else if Ascii.eqb c backslash then
        match rest with
        | String e rest' =>
            if Ascii.eqb e "u" then
              match rest' with
              | String h1 (String h2 (String h3 (String h4 rest''))) =>
                  a ← hex_value h1; b ← hex_value h2;
                  c' ← hex_value h3; d ← hex_value h4;
                  '(text, after) ← string_body rest'';
                  if ((a =? 0) && (b =? 0))%N
                  then Some (String (ascii_of_N (16 * c' + d)) text, after)
                  else None
              | _ => None
              end
            else
              decoded ← (if Ascii.eqb e quote then Some quote
                         else if Ascii.eqb e backslash then Some backslash
                         else if Ascii.eqb e "/" then Some "/"%char
                         else if Ascii.eqb e "n" then Some (ascii_of_N 10)
                         else if Ascii.eqb e "t" then Some (ascii_of_N 9)
                         else if Ascii.eqb e "r" then Some (ascii_of_N 13)
                         else if Ascii.eqb e "b" then Some (ascii_of_N 8)
                         else if Ascii.eqb e "f" then Some (ascii_of_N 12)
                         else None);
              '(text, after) ← string_body rest';
              Some (String decoded text, after)
        | EmptyString => None
        end
      else if (Js.code c <? 32)%N then None
      else '(text, after) ← string_body rest; Some (String c text, after)
  end.

Fixpoint digits (acc : N) (s : string) : N * string :=
  match s with
  | String c rest =>
      match Obj.digit_value c with
      | Some d => digits (acc * 10 + d)%N rest
      | None => (acc, s)
      end
  | EmptyString => (acc, s)
  end.

(** An integer literal; a fraction or an exponent is not read. *)
Definition number (s : string) : option (Z * string) :=
  let unsigned (s : string) :=
    match s with
    | String c rest =>
        if Js.between 48 48 c then Some (0%Z, rest)
        else if Js.between 49 57 c
             then let '(n, after) := digits 0 s in Some (Z.of_N n, after)
             else None
    | EmptyString => None
    end in
  '(n, after) ← match s with
                | String "-" rest => '(n, after) ← unsigned rest; Some ((- n)%Z, after)
                | _ => unsigned s
                end;
  match after with
  | String c _ =>
      if Ascii.eqb c "." || Ascii.eqb c "e" || Ascii.eqb c "E" then None
      else Some (n, after)
  | EmptyString => Some (n, after)
  end.

Definition keyword (word : string) (v : jsval) (s : string) : option (jsval * string) :=
  if String.prefix word s
  then Some (v, String.substring (String.length word)
                                 (String.length s - String.length word) s)
  else None.

Fixpoint value (fuel : nat) (s : string) : option (jsval * string) :=
  match fuel with
  | O => None
  | S fuel =>
      match skip_ws s with
      | EmptyString => None
      | String c rest =>
          if Ascii.eqb c quote then
            '(text, after) ← string_body rest; Some (JStr text, after)
          else if Ascii.eqb c "[" then
            match skip_ws rest with
            | String "]" after => Some (JArr [], after)
            | _ => '(items, after) ← elements fuel rest; Some (JArr items, after)
            end
          else if Ascii.eqb c "{" then
            match skip_ws rest with
            | String "}" after => Some (JObj [], after)
            | _ =>
                '(props, after) ← members fuel rest;
                Some (JObj (foldl (fun o p => Obj.define (fst p) (snd p) o) [] props),
                      after)
            end
          else if Ascii.eqb c "t" then keyword "true" (JBool true) (String c rest)
          else if Ascii.eqb c "f" then keyword "false" (JBool false) (String c rest)
          else if Ascii.eqb c "n" then keyword "null" JNull (String c rest)
          else '(n, after) ← number (String c rest); Some (JNum n, after)
      end
  end
with elements (fuel : nat) (s : string) : option (list jsval * string) :=
  match fuel with
  | O => None
  | S fuel =>
      '(item, after) ← value fuel s;
      match skip_ws after with
      | String "," rest => '(items, after') ← elements fuel rest; Some (item :: items, after')
      | String "]" rest => Some ([item], rest)
      | _ => None
      end
  end
with members (fuel : nat) (s : string) : option (list (string * jsval) * string) :=
  match fuel with
  | O => None
  | S fuel =>
      match skip_ws s with
      | String c rest =>
          if Ascii.eqb c quote then
            '(key, after) ← string_body rest;
            match skip_ws after with
            | String ":" rest' =>
                '(item, after') ← value fuel rest';
                match skip_ws after' with
                | String "," rest'' =>
                    '(props, after'') ← members fuel rest'';
                    Some ((key, item) :: props, after'')
                | String "}" rest'' => Some ([(key, item)], rest'')
                | _ => None
                end
            | _ => None
            end
          else None
      | EmptyString => None
      end
  end.

Definition parse (raw : string) : option jsval :=
  '(v, after) ← value (S (String.length raw)) raw;
  match skip_ws after with
  | EmptyString => Some v
  | _ => None
  end.

Definition compare_units (a b : string) : Z :=
  match String.compare a b with
  | Lt => (-1)%Z
  | Eq => 0%Z
  | Gt => 1%Z
  end.

(** *** An engine for guards

    A body that is the one statement [return <expression>;], its
    expression written with [true], [false], decimal integers below
    2^53, quoted text without escapes, [event.type], [!], [===], [!==],
    [&&], [||] and parentheses, is read and evaluated as the language
    defines; one body that loops stands for the calls that never return;
    every other body is rejected, also where a full engine would accept
    it. *)

Inductive GuardValue := GBool (b : bool) | GNum (n : N) | GStr (s : string).

Inductive Token :=
| TReturn | TSemi | TOpen | TClose | TNot | TAnd | TOr | TEq | TNe
| TEvent | TLit (v : GuardValue).

(** A character that continues a name or a number. *)
Definition is_name_char (c : ascii) : bool :=
  Js.between 97 122 c || Js.between 65 90 c || Js.between 48 57 c
  || Js.between 95 95 c || Js.between 36 36 c || Js.between 46 46 c
  || (128 <=? Js.code c)%N.

Definition ends_name (s : string) : bool :=
  match s with
  | String c _ => negb (is_name_char c)
  | EmptyString => true
  end.

(** The text up to the closing [mark]; no escape and no line break. *)
Fixpoint quotedText (mark : ascii) (s : string) : option (string * string) :=
  match s with
  | EmptyString => None
  | String c rest =>
      if Ascii.eqb c mark then Some (EmptyString, rest)
      else if Ascii.eqb c backslash || Js.between 10 10 c || Js.between 13 13 c then None
      else '(text, after) ← quotedText mark rest; Some (String c text, after)
  end.

Definition word (name : string) (token : Token) (s : string) : option (Token * string) :=
  match Js.after name s with
  | Some rest => if ends_name rest then Some (token, rest) else None
  | None => None
  end.

Definition sign (name : string) (token : Token) (s : string) : option (Token * string) :=
  match Js.after name s with
  | Some rest => Some (token, rest)
  | None => None
  end.

(** The token [s] starts with. *)
Definition token (s : string) : option (Token * string) :=
  match s with
  | EmptyString => None
  | String c rest =>
      if Js.between 48 57 c then
        let '(n, after) := digits 0 s in
        if Js.between 48 48 c && negb (ends_name rest) then None
        else if ends_name after && (n <? 2 ^ 53)%N then Some (TLit (GNum n), after)
        else None
      else if Ascii.eqb c quote || Js.between 39 39 c then
        '(text, after) ← quotedText c rest; Some (TLit (GStr text), after)
      else
        foldr (fun read found =>
                 match read s with
                 | Some result => Some result
                 | None => found
                 end) None
              [ word "return" TReturn; word "true" (TLit (GBool true));
                word "false" (TLit (GBool false)); word "event.type" TEvent;
                sign "===" TEq; sign "!==" TNe; sign "&&" TAnd; sign "||" TOr;
                sign "(" TOpen; sign ")" TClose; sign ";" TSemi;
                (fun s => match sign "!" TNot s with
                          | Some (found, String c after) =>
                              if Js.between 61 61 c then None
                              else Some (found, String c after)
                          | other => other
                          end) ]
  end.

Fixpoint tokens (fuel : nat) (s : string) : option (list Token) :=
  match fuel with
  | O => None
  | S fuel =>
      match Js.trimStart s with
      | EmptyString => Some []
      | text =>
          '(first, rest) ← token text;
          others ← tokens fuel rest;
          Some (first :: others)
      end
  end.

Inductive GuardExpr :=
| ELit (v : GuardValue)
| EEvent
| ENot (e : GuardExpr)
| EEq (a b : GuardExpr)
| ENe (a b : GuardExpr)
| EAnd (a b : GuardExpr)
| EOr (a b : GuardExpr).

(** The operator of a level, loosest first: [||], [&&], then [===] and
    [!==]. *)
Definition operator (level : nat) (ts : list Token)
    : option ((GuardExpr -> GuardExpr -> GuardExpr) * list Token) :=
  match level, ts with
  | 0, TOr :: rest => Some (EOr, rest)
  | 1, TAnd :: rest => Some (EAnd, rest)
  | 2, TEq :: rest => Some (EEq, rest)
  | 2, TNe :: rest => Some (ENe, rest)
  | _, _ => None
  end.

Fixpoint expression (fuel level : nat) (ts : list Token)
    : option (GuardExpr * list Token) :=
  match fuel with
  | O => None
  | S fuel =>
      match level with
      | 0 | 1 | 2 =>
          '(first, rest) ← expression fuel (S level) ts;
          operands fuel level first rest
      | _ =>
          match ts with
          | TNot :: rest => '(e, after) ← expression fuel level rest; Some (ENot e, after)
          | TLit v :: rest => Some (ELit v, rest)
          | TEvent :: rest => Some (EEvent, rest)
          | TOpen :: rest =>
              '(e, after) ← expression fuel 0 rest;
              match after with
              | TClose :: after => Some (e, after)
              | _ => None
              end
          | _ => None
          end
      end
  end
with operands (fuel level : nat) (first : GuardExpr) (ts : list Token)
    : option (GuardExpr * list Token) :=
  match fuel with
  | O => None
  | S fuel =>
      match operator level ts with
      | Some (make, rest) =>
          '(second, after) ← expression fuel (S level) rest;
          operands fuel level (make first second) after
      | None => Some (first, ts)
      end
  end.

(** [Boolean(v)] *)
Definition holds (v : GuardValue) : bool :=
  match v with
  | GBool b => b
  | GNum n => negb (n =? 0)%N
  | GStr s => Js.truthy s
  end.

(** [a === b] *)
Definition same (a b : GuardValue) : bool :=
  match a, b with
  | GBool x, GBool y => Bool.eqb x y
  | GNum x, GNum y => (x =? y)%N
  | GStr x, GStr y => String.eqb x y
  | _, _ => false
  end.

Fixpoint evaluate (eventType : string) (e : GuardExpr) : GuardValue :=
  match e with
  | ELit v => v
  | EEvent => GStr eventType
  | ENot e => GBool (negb (holds (evaluate eventType e)))
  | EEq a b => GBool (same (evaluate eventType a) (evaluate eventType b))
  | ENe a b => GBool (negb (same (evaluate eventType a) (evaluate eventType b)))
  | EAnd a b =>
      if holds (evaluate eventType a) then evaluate eventType b else evaluate eventType a
  | EOr a b =>
      if holds (evaluate eventType a) then evaluate eventType a else evaluate eventType b
  end.

(** A body [return <expression>;]. *)
Definition returned (body : string) : option GuardExpr :=
  ts ← tokens (S (String.length body)) body;
  match ts with
  | TReturn :: ts =>
      '(e, after) ← expression (5 * S (length ts)) 0 ts;
      match after with
      | [TSemi] => Some e
      | _ => None
      end
  | _ => None
  end.

Definition loops : string := "return ((() => { for (;;) ; })());".

Definition call (body eventType : string) : Called bool :=
  if String.eqb body loops then Hangs
  else match returned body with
       | Some e => Gives (holds (evaluate eventType e))
       | None => Raises
       end.

Definition platform : Platform :=
  {| Function_call := call;
     localeCompare := compare_units;
     JSON_parse := parse;
     JSON_stringify := print;
     Date_now := fun _ => 1700000000000%N |}.

End Reference.

(** ** Vocabulary of the statements *)

(** The [parentNode] links form a forest: a rank falls from every node
    that names a parent to that parent's identifier. *)
Definition forest (machine : MachineDocument) (rank : string -> nat) : Prop :=
  forall node p,
    node ∈ nodes machine -> parentNode node = Some p -> rank (id node) < rank p.

(** The children of [nodeId] that are not markers. *)
Definition regionsOf (maps : SimulationMaps) (nodeId : string) : list StateNode :=
  List.filter (fun child => negb (is_marker child)) (childrenOf maps (Some nodeId)).

(** Entry is well founded: identifiers are not empty, the rank also falls
    from a marker to the target of its first edge, that edge exists and
    names a node, and some root is not a marker. *)
Record entryWellFormed (machine : MachineDocument) (rank : string -> nat) : Prop := {
  wf_forest : forest machine rank;
  wf_ids : forall node, node ∈ nodes machine -> Js.truthy (id node) = true;
  wf_marker :
    forall node, node ∈ nodes machine -> kind (data node) = initial ->
      exists edge goal,
        head (outgoing (buildMaps machine) (id node)) = Some edge
        /\ goal ∈ nodes machine /\ id goal = target edge
        /\ rank (target edge) < rank (id node);
  wf_root :
    exists node, node ∈ nodes machine /\ parentNode node = None
                 /\ kind (data node) <> initial;
}.

(** What the parenthesis of the claim on initial configurations asks of a
    document, read with the glossary: a compound node is a node that is
    not parallel and owns children. *)
Record claimedWellFormed (machine : MachineDocument) (rank : string -> nat) : Prop := {
  cw_forest : forest machine rank;
  cw_root :
    exists node, node ∈ nodes machine /\ parentNode node = None
                 /\ kind (data node) <> initial;
  cw_compound :
    forall node, node ∈ nodes machine -> kind (data node) <> parallel ->
      childrenOf (buildMaps machine) (Some (id node)) <> [] ->
      regionsOf (buildMaps machine) (id node) <> [];
  cw_marker :
    forall node, node ∈ nodes machine -> kind (data node) = initial ->
      forall edge, head (outgoing (buildMaps machine) (id node)) = Some edge ->
        rank (target edge) < rank (id node);
}.

(** [nodeId] names a node that is not a marker and has no region. *)
Definition isLeaf (machine : MachineDocument) (nodeId : string) : Prop :=
  exists node,
    node ∈ nodes machine /\ id node = nodeId
    /\ regionsOf (buildMaps machine) nodeId = []
    /\ (kind (data node) = atomic \/ kind (data node) = final
        \/ kind (data node) = parallel).

Section Resolution.
Context `{Platform}.

(** The node an id stands for: the last node of the document that
    carries it. *)
Definition nodeNamed (machine : MachineDocument) (nodeId : string) : option StateNode :=
  last (List.filter (fun node => bool_decide (id node = nodeId)) (nodes machine)).

(** The edges that leave a node, in the order of the document. *)
Definition leaving (machine : MachineDocument) (sourceId : string)
    : list TransitionEdge :=
  List.filter (fun edge => bool_decide (source edge = sourceId)) (edges machine).

(** The chain from [current] upward: the id itself, then the
    [parentNode] of the node it stands for, and so on for as long as
    there is an id that is not empty. *)
Inductive upward (machine : MachineDocument) : option string -> list string -> Prop :=
| upward_none : upward machine None []
| upward_empty current :
    Js.truthy current = false -> upward machine (Some current) []
| upward_step current chain :
    Js.truthy current = true ->
    upward machine (nodeNamed machine current ≫= parentNode) chain ->
    upward machine (Some current) (current :: chain).

(** The guard evaluates to true: it is blank, or the engine returns a
    true value for it. *)
Definition guardHolds (guardText eventType : string) : Prop :=
  Js.trim guardText = ""
  \/ Function_call ("return (" +:+ guardText +:+ ");") eventType = Gives true.

(** The guard evaluates to false: it is not blank, and the engine returns
    a false value for it or throws. *)
Definition guardFails (guardText eventType : string) : Prop :=
  Js.trim guardText <> ""
  /\ (Function_call ("return (" +:+ guardText +:+ ");") eventType = Gives false
      \/ Function_call ("return (" +:+ guardText +:+ ");") eventType = Raises).

(** The edge is one for the event: its event, as written, is the event
    type and its guard evaluates to true. *)
Definition taken (eventType : string) (edge : TransitionEdge) : Prop :=
  event (edge_data edge) = eventType
  /\ guardHolds (guard (edge_data edge)) eventType.

(** The edge is not one for the event. *)
Definition passed (eventType : string) (edge : TransitionEdge) : Prop :=
  event (edge_data edge) <> eventType
  \/ guardFails (guard (edge_data edge)) eventType.

(** No edge leaving a member of [chain] is one for the event. *)
Definition noMatch (machine : MachineDocument) (eventType : string)
    (chain : list string) : Prop :=
  forall sourceId edge,
    sourceId ∈ chain -> edge ∈ leaving machine sourceId -> passed eventType edge.

(** Nothing on the chain upward from [leaf] is taken. *)
Definition silent (machine : MachineDocument) (eventType leaf : string) : Prop :=
  exists chain,
    upward machine (Some leaf) chain /\ noMatch machine eventType chain.

(** [edge] is the first edge for the event, in the order of the
    document, of the first member of the chain upward from [leaf], the
    leaf itself included, that has one. *)
Definition fires (machine : MachineDocument) (eventType leaf : string)
    (edge : TransitionEdge) : Prop :=
  exists below sourceId above earlier later,
    upward machine (Some leaf) (below ++ sourceId :: above)
    /\ noMatch machine eventType below
    /\ leaving machine sourceId = earlier ++ edge :: later
    /\ (forall other, other ∈ earlier -> passed eventType other)
    /\ taken eventType edge.

(** The result the claim on event resolution describes. *)
Definition resolved (machine : MachineDocument)
    (activeLeafIds : list string) (eventType : string) (step : SimulationStep)
    : Prop :=
  let maps := buildMaps machine in
  (exists before leaf after edge leaves,
      activeLeafIds = before ++ leaf :: after
      /\ (forall other, other ∈ before -> silent machine eventType other)
      /\ fires machine eventType leaf edge
      /\ enterNode (enterFuel maps) (target edge) maps ∅ = Some leaves
      /\ step = {| nextActiveLeafIds := leaves; takenEdgeId := Some (edge_id edge) |})
  \/ ((forall leaf, leaf ∈ activeLeafIds -> silent machine eventType leaf)
      /\ step = {| nextActiveLeafIds := activeLeafIds; takenEdgeId := None |}).

(** Every guard the event can reach returns when it is evaluated. *)
Definition guardsReturn (machine : MachineDocument) (eventType : string) : Prop :=
  forall edge,
    edge ∈ edges machine -> event (edge_data edge) = eventType ->
    Js.trim (guard (edge_data edge)) <> "" ->
    Function_call ("return (" +:+ guard (edge_data edge) +:+ ");") eventType <> Hangs.

(** No amount of fuel lets the call return. *)
Definition neverReturns (machine : MachineDocument) (activeLeafIds : list string)
    (eventType : string) : Prop :=
  forall fuel, triggerSimulationEvent fuel machine activeLeafIds eventType = None.

(** The parser gives back the value the printer was given. *)
Definition roundtrips (v : jsval) : Prop := JSON_parse (JSON_stringify v) = Some v.

End Resolution.

(** No event name, once trimmed, is a member of [Object.prototype]. *)
Definition plainEvents (machine : MachineDocument) : Prop :=
  forall edge, edge ∈ edges machine ->
    Js.trim (event (edge_data edge)) ∉ Obj.prototype_members.

Definition elementsOf (v : option jsval) : list jsval :=
  match v with
  | Some (JArr items) => items
  | _ => []
  end.

(** The identifier and the kind of an imported node. *)
Definition nodeSummary (node : jsval) : option jsval * option jsval :=
  (Dyn.field node "id", Dyn.get_opt (Dyn.field node "data") "kind").

(** Source, target, event, guard and actions of an imported edge. *)
Definition edgeSummary (edge : jsval)
    : option jsval * option jsval * option jsval * option jsval * option jsval :=
  (Dyn.field edge "source", Dyn.field edge "target",
   Dyn.get_opt (Dyn.field edge "data") "event",
   Dyn.get_opt (Dyn.field edge "data") "guard",
   Dyn.get_opt (Dyn.field edge "data") "actions").

Definition summaryOfNode (node : StateNode) : option jsval * option jsval :=
  (Some (JStr (id node)), Some (JStr (kind_name (kind (data node))))).

Definition summaryOfEdge (edge : TransitionEdge)
    : option jsval * option jsval * option jsval * option jsval * option jsval :=
  (Some (JStr (source edge)), Some (JStr (target edge)),
   Some (JStr (event (edge_data edge))),
   Some (JStr (guard (edge_data edge))),
   Some (JArr (JStr <$> actions (edge_data edge)))).

(** A document with all five of its fields. *)
Definition completeDocument (doc : jsval) : Prop :=
  exists machineIdValue nodeValues edgeValues viewportValue,
    doc = JObj [ ("version", JNum 1); ("machineId", machineIdValue);
                 ("nodes", JArr nodeValues); ("edges", JArr edgeValues);
                 ("viewport", viewportValue) ]
    /\ Dyn.truthy (Some machineIdValue) = true.

Definition emptyDocument : jsval :=
  JObj [ ("version", JNum 1); ("machineId", JStr "importedMachine");
         ("nodes", JArr []); ("edges", JArr []);
         ("viewport", viewport_value 0 0 1) ].


(** The largest rank among the nodes of a document. *)
Definition rankBound (machine : MachineDocument) (rank : string -> nat) : nat :=
  foldr (fun node bound => Nat.max (rank (id node)) bound) 0 (nodes machine).

(** Fuel that lets the export descend below [parentId] in a forest. *)
Definition nestingFuel (machine : MachineDocument) (rank : string -> nat)
    (parentId : option string) : nat :=
  match parentId with
  | Some p => S (rank p)
  | None => S (S (rankBound machine rank))
  end.

(** An edge of [sourceId] offers the event name [name]. *)
Definition offers (maps : SimulationMaps) (sourceId name : string) : Prop :=
  exists edge,
    edge ∈ outgoing maps sourceId
    /\ Js.trim (event (edge_data edge)) = name /\ Js.truthy name = true.

(** The [machineId] an import gives a document. *)
Definition importedId (machine : MachineDocument) : string :=
  if Js.truthy (machineId machine) then machineId machine else "importedMachine".

Definition dataOfNode (node : StateNode) : jsval :=
  JObj [ ("label", JStr (label (data node)));
         ("kind", JStr (kind_name (kind (data node)))) ].

Definition dataOfEdge (edge : TransitionEdge) : jsval :=
  JObj [ ("event", JStr (event (edge_data edge)));
         ("guard", JStr (guard (edge_data edge)));
         ("actions", JArr (JStr <$> actions (edge_data edge))) ].

(** The call was not cut off by its fuel. *)
Definition finishes {A} (r : Run A) : Prop := r <> OutOfFuel.

Definition imp_finishes {A} (m : Imp A) : Prop := forall st, finishes (fst (m st)).

(** [fuel] exceeds the depth of the [states] value a walk starts from. *)
Definition fuelCovers (fuel : nat) (states : option jsval) : Prop :=
  match states with
  | Some statesValue => Dyn.depth statesValue < fuel
  | None => True
  end.

(** ** Documents the statements are checked on *)

Module Cases.

(** A parallel node that has no region yet. *)
Definition lonelyParallel : MachineDocument :=
  {| machineId := "lonely";
     viewport := Examples.origin;
     nodes := [ Examples.node "p" "Regions" parallel 0 0 None None None ];
     edges := [] |}.

(** A node that names itself as its parent. *)
Definition selfParent : MachineDocument :=
  {| machineId := "loop";
     viewport := Examples.origin;
     nodes := [ Examples.node "a" "A" atomic 0 0 (Some "a") None None ];
     edges := [] |}.

(** An event name written with spaces around it. *)
Definition paddedEvent : MachineDocument :=
  {| machineId := "padded";
     viewport := Examples.origin;
     nodes := [ Examples.node "a" "A" atomic 0 0 None None None;
                Examples.node "b" "B" atomic 200 0 None None None ];
     edges := [ Examples.edge "e_a_b" "a" "b" " GO " "" [] ] |}.

(** A document whose [machineId] is the empty string. *)
Definition nameless : MachineDocument :=
  {| machineId := "";
     viewport := Examples.origin;
     nodes := [ Examples.node "a" "A" atomic 0 0 None None None ];
     edges := [] |}.

(** A compound node with one child and no initial marker. *)
Definition implicitInitial : MachineDocument :=
  {| machineId := "implicit";
     viewport := Examples.origin;
     nodes := [ Examples.node "p" "Parent" atomic 0 0 None None None;
                Examples.node "c" "Child" atomic 20 20 (Some "p") None None ];
     edges := [] |}.

(** Three siblings labelled [A], [A] and [A 2]. *)
Definition clashingLabels : MachineDocument :=
  {| machineId := "clash";
     viewport := Examples.origin;
     nodes := [ Examples.node "n1" "A" atomic 0 0 None None None;
                Examples.node "n2" "A" atomic 200 0 None None None;
                Examples.node "n3" "A 2" atomic 400 0 None None None ];
     edges := [] |}.

(** A rank for the checkout machine: regions below [review], marker
    targets below their markers. *)
Definition checkoutRank (nodeId : string) : nat :=
  if String.eqb nodeId "review" then 3
  else if String.eqb nodeId "review_init_shipping" then 2
  else if String.eqb nodeId "co_init" then 1
  else 0.

End Cases.

(** ** Code generation, nested-machine target ([src/lib/codegen.ts]) *)

Module Codegen.

Definition upper_char (c : ascii) : ascii :=
  if Js.between 97 122 c then ascii_of_N (Js.code c - 32) else c.

(** [.replace(/_+([a-z])/g, (_, ch) => ch.toUpperCase())]; [pending] is
    the run of underscores read and not yet written. *)
Fixpoint camel (pending : string) (s : string) : string :=
  match s with
  | EmptyString => pending
  | String c rest =>
      if Js.is_underscore c then camel (pending +:+ "_") rest
      else if Js.truthy pending && Js.between 97 122 c
           then String (upper_char c) (camel EmptyString rest)
           else pending +:+ String c (camel EmptyString rest)
  end.

Definition toIdentifier (value : string) : string :=
  let normalized := camel EmptyString (slugify value) in
  match normalized with
  | String c _ =>
      if Js.between 97 122 c || Js.between 65 90 c || Js.is_underscore c
      then normalized else "s_" +:+ normalized
  | EmptyString => "s_" +:+ normalized
  end.

Record CodeBuildContext := {
  childrenByParent : gmap (option string) (list StateNode);
  edgesBySource : gmap string (list TransitionEdge);
  keyByParent : gmap (option string) (gmap string string);
}.

(** The keys of one parent's children: [keyCount] and [byId] are [Map]s. *)
Definition keysOf (children : list StateNode) : gmap string string :=
  snd (foldl (fun '(keyCount, byId) child =>
                let base := slugify (label (data child)) in
                let count := default 0%nat ((keyCount : gmap string nat) !! base) in
                (<[base := S count]> keyCount,
                 <[id child := if bool_decide (count = 0%nat) then base
                               else base +:+ "_" +:+ pretty (S count)]> byId))
             (∅, ∅)
             (List.filter (fun node => negb (is_marker node)) children)).

Definition createContext (machine : MachineDocument) : CodeBuildContext :=
  let children := buildChildrenMap (nodes machine) in
  {| childrenByParent := children;
     edgesBySource := buildEdgeMap (edges machine);
     keyByParent := keysOf <$> children |}.

Definition getInitialTarget (parentId : option string) (ctx : CodeBuildContext)
    : option string :=
  let siblings := default [] (childrenByParent ctx !! parentId) in
  match List.find is_marker siblings with
  | None => None
  | Some marker => target <$> head (default [] (edgesBySource ctx !! id marker))
  end.

Fixpoint indent (level : nat) : string :=
  match level with
  | O => EmptyString
  | S level => "  " +:+ indent level
  end.

Definition newline : string := String (ascii_of_N 10) EmptyString.

Definition stringifyActions (actions : list string) : string :=
  match actions with
  | [] => "[]"
  | _ => "[" +:+ Dyn.join ", " ((fun action => "'" +:+ action +:+ "'") <$> actions) +:+ "]"
  end.

Definition formatTransition (transition : TransitionEdge) (level : nat) : string :=
  let guardText := Js.trim (guard (edge_data transition)) in
  Dyn.join newline
    ([ indent level +:+ "{";
       indent (S level) +:+ "target: '#" +:+ target transition +:+ "'," ]
     ++ (if Js.truthy guardText
         then [ indent (S level) +:+ "guard: ({ context, event }) => (" +:+ guardText +:+ ")," ]
         else [])
     ++ match actions (edge_data transition) with
        | [] => []
        | listed =>
            [ indent (S level) +:+ "actions: "
              +:+ stringifyActions (List.filter Js.truthy (Js.trim <$> listed)) +:+ "," ]
        end
     ++ [ indent level +:+ "}" ]).

(** [byEvent.set(event, existing)] on a [Map]: a new key goes last. *)
Fixpoint map_set {V} (k : string) (v : V) (entries : list (string * V))
    : list (string * V) :=
  match entries with
  | [] => [(k, v)]
  | (k', v') :: rest =>
      if String.eqb k k' then (k', v) :: rest else (k', v') :: map_set k v rest
  end.

Definition groupByEvent (transitions : list TransitionEdge)
    : list (string * list TransitionEdge) :=
  foldl (fun byEvent transition =>
           let eventName := Js.trim (event (edge_data transition)) in
           map_set eventName (default [] (Obj.own eventName byEvent) ++ [transition])
                   byEvent)
        [] transitions.

Definition eventLines (level : nat) (entry : string * list TransitionEdge) : list string :=
  let '(eventType, listed) := entry in
  match listed with
  | [only] =>
      [ indent (S (S level)) +:+ eventType +:+ ": "
        +:+ formatTransition only (S (S level)) +:+ "," ]
  | _ =>
      [ indent (S (S level)) +:+ eventType +:+ ": [" ]
      ++ ((fun transition => formatTransition transition (S (S (S level))) +:+ ",")
            <$> listed)
      ++ [ indent (S (S level)) +:+ "]," ]
  end.

Fixpoint buildXStateStateBlock (fuel : nat) (node : StateNode) (ctx : CodeBuildContext)
    (level : nat) : Run string :=
  match fuel with
  | O => OutOfFuel
  | S fuel =>
      let children :=
        List.filter (fun child => negb (is_marker child))
                    (default [] (childrenByParent ctx !! Some (id node))) in
      let childKeyMap := default ∅ (keyByParent ctx !! Some (id node)) in
      let initialLine :=
        match getInitialTarget (Some (id node)) ctx with
        | Some nestedInitialTarget =>
            match childKeyMap !! nestedInitialTarget with
            | Some key =>
                if Js.truthy nestedInitialTarget && Js.truthy key
                   && negb (bool_decide (kind (data node) = parallel))
                then [ indent (S level) +:+ "initial: '" +:+ key +:+ "'," ]
                else []
            | None => []
            end
        | None => []
        end in
      childLines ←
        match children with
        | [] => Return []
        | _ =>
            blocks ← mapM (fun child =>
                             block ← buildXStateStateBlock fuel child ctx (S (S level));
                             Return (indent (S (S level))
                                     +:+ default (slugify (label (data child)))
                                                 (childKeyMap !! id child)
                                     +:+ ": " +:+ block +:+ ","))
                          children;
            Return (initialLine
                    ++ [ indent (S level) +:+ "states: {" ]
                    ++ blocks
                    ++ [ indent (S level) +:+ "}" ])
        end;
      let transitions :=
        List.filter (fun edge => Js.truthy (Js.trim (event (edge_data edge))))
                    (default [] (edgesBySource ctx !! id node)) in
      Return
        (Dyn.join newline
           ([ indent level +:+ "{";
              indent (S level) +:+ "id: '" +:+ id node +:+ "'," ]
            ++ (if bool_decide (kind (data node) = final)
                then [ indent (S level) +:+ "type: 'final'," ] else [])
            ++ (if bool_decide (kind (data node) = parallel)
                then [ indent (S level) +:+ "type: 'parallel'," ] else [])
            ++ childLines
            ++ match transitions with
               | [] => []
               | _ =>
                   [ indent (S level) +:+ "on: {" ]
                   ++ concat (eventLines level <$> groupByEvent transitions)
                   ++ [ indent (S level) +:+ "}," ]
               end
            ++ [ indent level +:+ "}" ]))
  end.

Definition generateXStateV5 (fuel : nat) (machine : MachineDocument) : Run string :=
  let ctx := createContext machine in
  let topLevelStates :=
    List.filter (fun node => negb (is_marker node))
                (default [] (childrenByParent ctx !! None)) in
  let topLevelKeys := default ∅ (keyByParent ctx !! None) in
  let fromMarker :=
    match getInitialTarget None ctx with
    | Some rootInitialTarget =>
        if Js.truthy rootInitialTarget
        then default "" (topLevelKeys !! rootInitialTarget) else ""
    | None => ""
    end in
  let fromFirst :=
    match topLevelStates with
    | first :: _ => default "" (topLevelKeys !! id first)
    | [] => ""
    end in
  let machineInitial :=
    if Js.truthy fromMarker then fromMarker
    else if Js.truthy fromFirst then fromFirst else "state" in
  blocks ← mapM (fun node =>
                   block ← buildXStateStateBlock fuel node ctx 2;
                   Return ("    " +:+ default (slugify (label (data node)))
                                             (topLevelKeys !! id node)
                           +:+ ": " +:+ block +:+ ","))
                topLevelStates;
  Return
    (Dyn.join newline
       ([ "import { createMachine } from 'xstate';";
          "";
          "export const " +:+ toIdentifier (machineId machine)
            +:+ "Machine = createMachine({";
          "  id: '" +:+ machineId machine +:+ "',";
          "  initial: '" +:+ machineInitial +:+ "',";
          "  states: {" ]
        ++ blocks
        ++ [ "  },"; "});" ])).

(** [text.includes(part)] *)
Fixpoint includes (part text : string) : bool :=
  String.prefix part text
  || match text with
     | EmptyString => false
     | String _ rest => includes part rest
     end.

End Codegen.

(** * Further vocabulary and code

    Predicates the later statements use, and the functions of
    [src/lib/simulation.ts], [src/lib/history.ts] that the
    definitions above leave out. *)

(** ** Shapes of generated names *)

Fixpoint allChars (p : ascii -> bool) (s : string) : bool :=
  match s with
  | EmptyString => true
  | String c rest => p c && allChars p rest
  end.

(** [/[a-z0-9_]/], the characters of a slug. *)
Definition is_key_char (c : ascii) : bool := Js.is_slug_char c || Js.is_underscore c.

(** [/[a-zA-Z_]/] *)
Definition is_word_start (c : ascii) : bool :=
  Js.between 97 122 c || Js.between 65 90 c || Js.is_underscore c.

(** [/[a-zA-Z0-9_]/] *)
Definition is_word_char (c : ascii) : bool := is_word_start c || Js.between 48 57 c.

(** No underscore starts the string when [afterUnderscore] is set, and
    none follows another. *)
Fixpoint singleUnderscores (afterUnderscore : bool) (s : string) : bool :=
  match s with
  | EmptyString => true
  | String c rest =>
      if Js.is_underscore c then negb afterUnderscore && singleUnderscores true rest
      else singleUnderscores false rest
  end.

(** The number a base-36 numeral stands for. *)
Definition digit36_value (c : ascii) : N :=
  if Js.between 48 57 c then (Js.code c - 48)%N else (Js.code c - 87)%N.

Fixpoint parse36 (acc : N) (s : string) : N :=
  match s with
  | EmptyString => acc
  | String c rest => parse36 (acc * 36 + digit36_value c)%N rest
  end.

(** The ids in a configuration are ids of nodes that are not markers,
    each listed once. *)
Definition configuration (machine : MachineDocument) (leaves : list string) : Prop :=
  NoDup leaves
  /\ forall leaf, leaf ∈ leaves ->
       exists node, node ∈ nodes machine /\ id node = leaf
                    /\ kind (data node) <> initial.

(** Every element is related to all the later ones. *)
Fixpoint ascending (le : string -> string -> Prop) (l : list string) : Prop :=
  match l with
  | [] => True
  | x :: rest => Forall (le x) rest /\ ascending le rest
  end.

(** ** Active nodes ([src/lib/simulation.ts]) *)

(** [isNodeActive]: the [while (current)] loop that climbs from the
    parent of one leaf. *)
Fixpoint climbsTo (fuel : nat) (byId : gmap string StateNode) (nodeId : string)
    (current : option string) : option bool :=
  match current with
  | None => Some false
  | Some reached =>
      if Js.truthy reached then
        match fuel with
        | O => None
        | S fuel =>
            if bool_decide (reached = nodeId) then Some true
            else climbsTo fuel byId nodeId (byId !! reached ≫= parentNode)
        end
      else Some false
  end.

(** The [for (const leaf of activeLeafIds)] loop of [isNodeActive]. *)
Fixpoint activeLoop (fuel : nat) (byId : gmap string StateNode) (nodeId : string)
    (leaves : list string) : option bool :=
  match leaves with
  | [] => Some false
  | leaf :: rest =>
      match climbsTo fuel byId nodeId (byId !! leaf ≫= parentNode) with
      | Some true => Some true
      | Some false => activeLoop fuel byId nodeId rest
      | None => None
      end
  end.

Definition isNodeActive (fuel : nat) (nodeId : string) (activeLeafIds : list string)
    (machine : MachineDocument) : option bool :=
  if bool_decide (nodeId ∈ activeLeafIds) then Some true
  else
    let byId := foldl (fun m node => <[id node := node]> m) ∅ (nodes machine) in
    activeLoop fuel byId nodeId activeLeafIds.

(** ** Undo history ([src/lib/history.ts])

    [HistoryState<T>] for a [T] of plain data: [stringify] is
    [JSON.stringify] on [T], which returns a string on such values, and
    [parse] is [JSON.parse], [None] when it throws. *)

Module History.

Record HistoryState (T : Type) := {
  past : list T;
  present : T;
  future : list T;
}.
Arguments past {T} _.
Arguments present {T} _.
Arguments future {T} _.

Definition MAX_HISTORY : nat := 100.

(** [list.slice(-n)] for a positive [n] *)
Definition lastN {A} (n : nat) (l : list A) : list A := drop (length l - n) l.

(** [list.slice(0, -1)] *)
Definition withoutLast {A} (l : list A) : list A := take (length l - 1) l.

Section WithJson.
Context {T : Type}.
Variable stringify : T -> string.
Variable parse : string -> option T.

Definition createHistoryState (initialValue : T) : HistoryState T :=
  {| past := []; present := initialValue; future := [] |}.

Definition cloneValue (value : T) : Run T :=
  match parse (stringify value) with
  | Some copy => Return copy
  | None => Throw SyntaxError
  end.

Definition withHistoryReplace (state : HistoryState T) (next : T)
    : Run (HistoryState T) :=
  copy ← cloneValue next;
  Return {| past := past state; present := copy; future := future state |}.

Definition withHistoryPush (state : HistoryState T) (next : T)
    : Run (HistoryState T) :=
  if String.eqb (stringify (present state)) (stringify next) then Return state
  else
    current ← cloneValue (present state);
    copy ← cloneValue next;
    Return {| past := lastN MAX_HISTORY (past state ++ [current]);
              present := copy;
              future := [] |}.

Definition withHistoryPushFromSnapshot (state : HistoryState T) (snapshot next : T)
    : Run (HistoryState T) :=
  if String.eqb (stringify snapshot) (stringify next)
  then withHistoryReplace state next
  else
    earlier ← cloneValue snapshot;
    copy ← cloneValue next;
    Return {| past := lastN MAX_HISTORY (past state ++ [earlier]);
              present := copy;
              future := [] |}.

Definition undoHistory (state : HistoryState T) : Run (HistoryState T) :=
  match last (past state) with
  | None => Return state
  | Some prev =>
      restored ← cloneValue prev;
      current ← cloneValue (present state);
      Return {| past := withoutLast (past state);
                present := restored;
                future := current :: future state |}
  end.

Definition redoHistory (state : HistoryState T) : Run (HistoryState T) :=
  match future state with
  | [] => Return state
  | next :: later =>
      current ← cloneValue (present state);
      restored ← cloneValue next;
      Return {| past := lastN MAX_HISTORY (past state ++ [current]);
                present := restored;
                future := later |}
  end.

(** [JSON.parse] gives back the value [JSON.stringify] printed. *)
Definition survives (value : T) : Prop := parse (stringify value) = Some value.

End WithJson.

End History.

(** ** Documents that refer to their own nodes *)

(** The [id]s of the nodes that have one. *)
Definition nodeIds (nodeValues : list jsval) : list jsval :=
  omap (fun node => Dyn.field node "id") nodeValues.

(** Both ends of [edge] are ids of [nodeValues]. *)
Definition endsKnown (nodeValues : list jsval) (edge : jsval) : Prop :=
  exists sourceId targetId,
    Dyn.field edge "source" = Some sourceId
    /\ Dyn.field edge "target" = Some targetId
    /\ sourceId ∈ nodeIds nodeValues /\ targetId ∈ nodeIds nodeValues.

(** The [parentNode] of [node], when it has one, is an id of [nodeValues]. *)
Definition parentKnown (nodeValues : list jsval) (node : jsval) : Prop :=
  forall parentId,
    Dyn.field node "parentNode" = Some parentId -> parentId ∈ nodeIds nodeValues.

(** What the import has written so far refers to nodes it has written:
    the ids of [idSet], the ids [pathToId] gives, the ends of the edges
    and the parents of the nodes, which are objects. *)
Record linked (idSet : list jsval) (st : ImportState) : Prop := {
  linked_idSet : forall known, known ∈ idSet -> known ∈ nodeIds (imp_nodes st);
  linked_paths :
    forall path found,
      imp_pathToId st !! path = Some found -> found ∈ nodeIds (imp_nodes st);
  linked_edges : forall edge, edge ∈ imp_edges st -> endsKnown (imp_nodes st) edge;
  linked_nodes : forall node, node ∈ imp_nodes st -> parentKnown (imp_nodes st) node;
  linked_shapes : forall node, node ∈ imp_nodes st -> exists props, node = JObj props;
}.

(** No id is forgotten between two states. *)
Definition grows (st st' : ImportState) : Prop :=
  forall known, known ∈ nodeIds (imp_nodes st) -> known ∈ nodeIds (imp_nodes st').

(** A step that starts from a linked state in which the ids of [needed]
    are known and returns, ends in a linked state, with no id lost. *)
Definition soundAt {A} (idSet needed : list jsval) (m : Imp A) (st : ImportState)
    : Prop :=
  forall a st',
    linked idSet st ->
    (forall known, known ∈ needed -> known ∈ nodeIds (imp_nodes st)) ->
    m st = (Return a, st') ->
    linked idSet st' /\ grows st st'.

Definition sound {A} (idSet needed : list jsval) (m : Imp A) : Prop :=
  forall st, soundAt idSet needed m st.

(** ** Keys of sibling states *)

(** How many of [children] have the slug [base]. *)
Definition sameSlug (base : string) (children : list StateNode) : nat :=
  length (List.filter (fun child => bool_decide (slugify (label (data child)) = base))
                      children).

(** The slug of the label for the first sibling that has it, the slug and
    the occurrence number for the later ones. *)
Definition numberedKey (earlier : list StateNode) (child : StateNode) : string :=
  let base := slugify (label (data child)) in
  match sameSlug base earlier with
  | O => base
  | S count => base +:+ "_" +:+ pretty (S (S count))
  end.

(** ** Formatting generated code ([src/lib/code-format.ts]) *)

Module CodeFormat.

Definition is_cr (c : ascii) : bool := Js.between 13 13 c.
Definition is_lf (c : ascii) : bool := Js.between 10 10 c.

Definition lf : ascii := ascii_of_N 10.

(** [code.replace(/\r\n?/g, '\n')] *)
Fixpoint normalizeLineEndings (code : string) : string :=
  match code with
  | EmptyString => EmptyString
  | String c rest =>
      if is_cr c then
        match rest with
        | String d rest' =>
            if is_lf d then String lf (normalizeLineEndings rest')
            else String lf (normalizeLineEndings rest)
        | EmptyString => String lf (normalizeLineEndings rest)
        end
      else String c (normalizeLineEndings rest)
  end.

(** [text.split(sep)] for a separator of one character. *)
Fixpoint split (sep : ascii -> bool) (text : string) : list string :=
  match text with
  | EmptyString => [EmptyString]
  | String c rest =>
      if sep c then EmptyString :: split sep rest
      else match split sep rest with
           | first :: others => String c first :: others
           | [] => [String c EmptyString]
           end
  end.

Definition closes (c : ascii) : bool :=
  Js.between 125 125 c || Js.between 93 93 c || Js.between 41 41 c.

Definition opens (c : ascii) : bool :=
  Js.between 123 123 c || Js.between 91 91 c || Js.between 40 40 c.

Definition is_comma (c : ascii) : bool := Js.between 44 44 c.

(** [/^[}\])]/.test(line)] *)
Definition shouldDecreaseIndent (line : string) : bool :=
  match line with
  | String c _ => closes c
  | EmptyString => false
  end.

(** [/[{[(],?$/.test(line)] *)
Fixpoint shouldIncreaseIndent (line : string) : bool :=
  match line with
  | EmptyString => false
  | String c rest =>
      match rest with
      | EmptyString => opens c
      | String d EmptyString => (opens c && is_comma d) || opens d
      | _ => shouldIncreaseIndent rest
      end
  end.

Definition INDENT : string := "  ".

(** [INDENT.repeat(level)] *)
Fixpoint indentation (level : nat) : string :=
  match level with
  | O => EmptyString
  | S level => INDENT +:+ indentation level
  end.

(** The variables of the loop of [formatGeneratedCode]. *)
Record Formatting := {
  formatted : list string;
  indentLevel : nat;
  previousBlank : bool;
}.

(** One round of [for (const rawLine of rawLines)]. *)
Definition formatLine (state : Formatting) (rawLine : string) : Formatting :=
  let line := Js.trim rawLine in
  if negb (Js.truthy line) then
    {| formatted :=
         if negb (previousBlank state) && negb (bool_decide (formatted state = []))
         then formatted state ++ [EmptyString] else formatted state;
       indentLevel := indentLevel state;
       previousBlank := true |}
  else
    let level :=
      if shouldDecreaseIndent line then Nat.pred (indentLevel state)
      else indentLevel state in
    {| formatted := formatted state ++ [indentation level +:+ line];
       indentLevel := if shouldIncreaseIndent line then S level else level;
       previousBlank := false |}.

Definition formatLines (rawLines : list string) : Formatting :=
  foldl formatLine {| formatted := []; indentLevel := 0; previousBlank := false |}
        rawLines.

Definition formatGeneratedCode (code : string) : string :=
  Dyn.join (String lf EmptyString)
           (formatted (formatLines (split is_lf (normalizeLineEndings code)))).

End CodeFormat.

(** ** Helpers of the editor ([src/App.tsx]) *)

Definition is_comma_char (c : ascii) : bool := Js.between 44 44 c.

(** [value.split(',').map((entry) => entry.trim()).filter(Boolean)] *)
Definition parseActions (value : string) : list string :=
  List.filter Js.truthy (Js.trim <$> CodeFormat.split is_comma_char value).

(** A line ends the list and is blank. *)
Definition endsBlank (lines : list string) : bool :=
  match last lines with
  | Some line => negb (Js.truthy line)
  | None => false
  end.

(** Neither a carriage return nor a line feed. *)
Definition is_inline (c : ascii) : bool :=
  negb (CodeFormat.is_cr c) && negb (CodeFormat.is_lf c).

(** No comma in the text. *)
Definition commaFree (text : string) : bool :=
  allChars (fun c => negb (is_comma_char c)) text.

(** ** Choosing a parent in the editor ([src/App.tsx]) *)

(** [nodes.find((node) => node.id === nodeId)] *)
Definition findNode (nodes : list StateNode) (nodeId : string) : option StateNode :=
  List.find (fun node => bool_decide (id node = nodeId)) nodes.

(** The [while (current)] loop of [isDescendant]. *)
Fixpoint descendantLoop (fuel : nat) (nodes : list StateNode) (nodeId : string)
    (current : option string) : option bool :=
  match current with
  | None => Some false
  | Some reached =>
      if Js.truthy reached then
        match fuel with
        | O => None
        | S fuel =>
            if bool_decide (reached = nodeId) then Some true
            else descendantLoop fuel nodes nodeId (findNode nodes reached ≫= parentNode)
        end
      else Some false
  end.

Definition isDescendant (fuel : nat) (nodes : list StateNode)
    (candidateParentId nodeId : string) : option bool :=
  descendantLoop fuel nodes nodeId (findNode nodes candidateParentId ≫= parentNode).

(** [array.filter(p)] for a [p] that may not return. *)
Fixpoint keepWhere {A} (p : A -> option bool) (items : list A) : option (list A) :=
  match items with
  | [] => Some []
  | item :: rest =>
      keep ← p item;
      kept ← keepWhere p rest;
      Some (if keep : bool then item :: kept else kept)
  end.

(** The callback of [parentCandidates]. *)
Definition isCandidate (fuel : nat) (nodes : list StateNode)
    (selectedNode : option StateNode) (node : StateNode) : option bool :=
  match selectedNode with
  | None => Some false
  | Some selected =>
      if bool_decide (id node = id selected) then Some false
      else if bool_decide (kind (data node) = initial)
              || bool_decide (kind (data node) = final) then Some false
      else negb <$> isDescendant fuel nodes (id node) (id selected)
  end.

Definition parentCandidates (fuel : nat) (machine : MachineDocument)
    (selectedNode : option StateNode) : option (list StateNode) :=
  keepWhere (isCandidate fuel (nodes machine) selectedNode) (nodes machine).

(** The argument of [handleNodePatch]: an absent property is [None], and
    [parentNode: null] is [Some None]. *)
Record NodePatch := {
  patch_label : option string;
  patch_kind : option NodeKind;
  patch_parentNode : option (option string);
}.

(** [typeof node.style?.width === 'number' ? node.style.width : fallback] *)
Definition numberOr (fallback : Z) (style : option jsval) (k : string) : jsval :=
  match Dyn.get_opt style k with
  | Some (JNum n) => JNum n
  | _ => JNum fallback
  end.

(** What [handleNodePatch] writes for the selected node. *)
Definition patchNode (patch : NodePatch) (node : StateNode) : StateNode :=
  let parent :=
    match patch_parentNode patch with
    | None => parentNode node
    | Some (Some chosen) => if Js.truthy chosen then Some chosen else None
    | Some None => None
    end in
  {| id := id node;
     position :=
       match patch_parentNode patch with
       | Some (Some _) => {| pos_x := 40; pos_y := 70 |}
       | _ => position node
       end;
     parentNode := parent;
     extent := Js.truthy (default "" parent);
     style :=
       if bool_decide (patch_kind patch = Some parallel) then
         Some (JObj (Obj.define "height" (numberOr 220 (style node) "height")
                      (Obj.define "width" (numberOr 320 (style node) "width")
                         (from_option Dyn.entries [] (style node)))))
       else style node;
     data := {| label := default (label (data node)) (patch_label patch);
                kind := default (kind (data node)) (patch_kind patch) |} |}.

(** The update of [handleNodePatch]: the document it hands to
    [updateMachine]. *)
Definition handleNodePatch (selectedNode : option StateNode) (patch : NodePatch)
    (current : MachineDocument) : MachineDocument :=
  match selectedNode with
  | None => current
  | Some selected =>
      {| machineId := machineId current;
         nodes := (fun node => if bool_decide (id node ≠ id selected) then node
                               else patchNode patch node) <$> nodes current;
         edges := edges current;
         viewport := viewport current |}
  end.

(** The patch of the parent field: [{ parentNode: value || null }]. *)
Definition parentChosen (value : string) : NodePatch :=
  {| patch_label := None; patch_kind := None;
     patch_parentNode := Some (if Js.truthy value then Some value else None) |}.

(** A node sits at or below [nodeId]: the climb from it finds [nodeId]. *)
Definition below (machine : MachineDocument) (rank : string -> nat)
    (nodeId current : string) : bool :=
  bool_decide (descendantLoop (rankBound machine rank + 2) (nodes machine) nodeId
                 (Some current) = Some true).

(** The rank after [nodeId] is moved: what lies outside its subtree rises
    above it. *)
Definition movedRank (machine : MachineDocument) (rank : string -> nat)
    (nodeId current : string) : nat :=
  if below machine rank nodeId current then rank current
  else rank current + S (rank nodeId).

(** ** Vocabulary for white space *)

(** No member of [spaces] starts with another. *)
Definition prefixFree (spaces : list string) : bool :=
  forallb (fun longer =>
             forallb (fun shorter =>
                        match Js.after shorter longer with
                        | Some (String _ _) => false
                        | _ => true
                        end) spaces) spaces.



(** An ASCII character that is not white space. *)
Definition is_plain (c : ascii) : bool := negb (Js.is_white c) && (Js.code c <? 128)%N.

(** ** Sample inputs *)

Module Samples.

(** A configuration written by hand: no embedded document, a nested
    state, a target by key and a target by [#]. *)
Definition plainConfig : jsval :=
  JObj [ ("id", JStr "door");
         ("initial", JStr "closed");
         ("states",
          JObj [ ("closed", JObj [ ("on", JObj [ ("OPEN", JStr "opened") ]) ]);
                 ("opened",
                  JObj [ ("initial", JStr "ajar");
                         ("states", JObj [ ("ajar", JObj []) ]);
                         ("on", JObj [ ("CLOSE", JObj [ ("target", JStr "#closed") ]) ]) ]) ]) ].

(** U+00A0, the no-break space. *)
Definition noBreakSpace : string := Js.utf8 [194; 160].

(** An event named [toString] between two no-break spaces. *)
Definition paddedMember : MachineDocument :=
  {| machineId := "member";
     viewport := Examples.origin;
     nodes := [ Examples.node "a" "A" atomic 0 0 None None None;
                Examples.node "b" "B" atomic 200 0 None None None ];
     edges := [ Examples.edge "e_a_b" "a" "b"
                  (noBreakSpace +:+ "toString" +:+ noBreakSpace) "" [] ] |}.

(** A guard that never returns. *)
Definition loopingGuard : MachineDocument :=
  {| machineId := "looping";
     viewport := Examples.origin;
     nodes := [ Examples.node "a" "A" atomic 0 0 None None None;
                Examples.node "b" "B" atomic 200 0 None None None ];
     edges := [ Examples.edge "e_a_b" "a" "b" "GO" "(() => { for (;;) ; })()" [] ] |}.

(** A marker whose transition targets a node with the id [__proto__]. *)
Definition protoTarget : MachineDocument :=
  {| machineId := "proto";
     viewport := Examples.origin;
     nodes := [ Examples.node "start" "Initial" initial 0 0 None None None;
                Examples.node "__proto__" "A" atomic 200 0 None None None ];
     edges := [ Examples.edge "e_start" "start" "__proto__" "INIT" "" [] ] |}.


Definition newline : string := String CodeFormat.lf EmptyString.

(** Code with three line breaks in a row and no indentation. *)
Definition looseCode : string :=
  "if (ready) {" +:+ newline +:+ newline +:+ newline +:+ "go();" +:+ newline +:+ "}".

(** The parallel state of the checkout machine and one of its regions. *)
Definition review : StateNode :=
  Examples.node "review" "Review (Parallel)" parallel 420 80 None (Some 520%Z) (Some 320%Z).

Definition cart : StateNode := Examples.node "cart" "Cart" atomic 190 180 None None None.

Definition secondA : StateNode := Examples.node "n2" "A" atomic 200 0 None None None.

Definition beginCheckout : TransitionEdge :=
  Examples.edge "e_cart_review" "cart" "review" "BEGIN_CHECKOUT" "" ["lockInventory"].

End Samples.


(** * Properties *)

(** ** Texts *)

Lemma append_empty s : "" +:+ s = s.
Proof. reflexivity. Qed.

Lemma append_String c s t : String c s +:+ t = String c (s +:+ t).
Proof. reflexivity. Qed.

Lemma append_assoc (a b c : string) : (a +:+ b) +:+ c = a +:+ (b +:+ c).
Proof. induction a as [|x a IH]; [done|]. by rewrite !append_String, IH. Qed.

Lemma allChars_app p s t : allChars p (s +:+ t) = allChars p s && allChars p t.
Proof. induction s as [|c s IH]; simpl; [done|]. by rewrite IH, andb_assoc. Qed.

Lemma length_append s t : String.length (s +:+ t) = String.length s + String.length t.
Proof. induction s as [|c s IH]; [done|]. rewrite append_String. simpl. by rewrite IH. Qed.

(** ** White space at the ends *)

Lemma after_split prefix s rest : Js.after prefix s = Some rest -> s = prefix +:+ rest.
Proof.
  revert s. induction prefix as [|p prefix IH]; intros s; simpl; [by intros [= ->]|].
  destruct s as [|c s]; [done|]. destruct (Ascii.eqb p c) eqn:Hc; [|done].
  apply Ascii.eqb_eq in Hc as ->. intros Hrest. by rewrite (IH _ Hrest).
Qed.

Lemma after_app prefix s rest more :
  Js.after prefix s = Some rest -> Js.after prefix (s +:+ more) = Some (rest +:+ more).
Proof.
  revert s. induction prefix as [|p prefix IH]; intros s; simpl; [by intros [= ->]|].
  destruct s as [|c s]; [done|]. rewrite append_String.
  destruct (Ascii.eqb p c); [apply IH|done].
Qed.

Lemma after_prefix prefix rest : Js.after prefix (prefix +:+ rest) = Some rest.
Proof.
  induction prefix as [|p prefix IH]; [done|]. rewrite append_String. simpl.
  by rewrite Ascii.eqb_refl.
Qed.

(** A prefix found only once more text follows was cut short. *)
Lemma after_late prefix s more rest :
  Js.after prefix s = None -> Js.after prefix (s +:+ more) = Some rest ->
  exists missing, Js.truthy missing = true /\ prefix = s +:+ missing.
Proof.
  revert s. induction prefix as [|p prefix IH]; intros s; simpl; [done|].
  destruct s as [|c s]; [intros _ _; by exists (String p prefix)|].
  rewrite append_String. destruct (Ascii.eqb p c) eqn:Hc; [|done].
  apply Ascii.eqb_eq in Hc as ->. intros Hnone Hsome.
  destruct (IH s Hnone Hsome) as (missing & Hmissing & ->). by exists missing.
Qed.

Lemma firstAfter_elem spaces s rest :
  Js.firstAfter spaces s = Some rest -> exists space, space ∈ spaces /\ s = space +:+ rest.
Proof.
  induction spaces as [|space spaces IH]; simpl; [done|].
  destruct (Js.after space s) as [found|] eqn:Hfound.
  - intros [= ->]. exists space. split; [by left|by apply after_split].
  - intros Hrest. destruct (IH Hrest) as (other & Hin & Hs). exists other.
    split; [by right|done].
Qed.

Lemma prefixFree_spec spaces longer shorter rest :
  prefixFree spaces = true -> longer ∈ spaces -> shorter ∈ spaces ->
  Js.after shorter longer = Some rest -> rest = "".
Proof.
  unfold prefixFree. rewrite forallb_forall. intros Hfree Hlonger Hshorter Hrest.
  apply list_elem_of_In in Hlonger, Hshorter.
  specialize (Hfree longer Hlonger). rewrite forallb_forall in Hfree.
  specialize (Hfree shorter Hshorter). rewrite Hrest in Hfree. by destruct rest.
Qed.

Lemma firstAfter_app spaces s rest more :
  prefixFree spaces = true ->
  Js.firstAfter spaces s = Some rest -> Js.firstAfter spaces (s +:+ more) = Some (rest +:+ more).
Proof.
  intros Hfree.
  assert (forall later, later ⊆ spaces ->
            Js.firstAfter later s = Some rest ->
            Js.firstAfter later (s +:+ more) = Some (rest +:+ more)) as Hgen; [|by apply Hgen].
  induction later as [|space later IH]; intros Hsub; simpl; [done|].
  destruct (Js.after space s) as [found|] eqn:Hfound.
  { intros [= ->]. by rewrite (after_app _ _ _ more Hfound). }
  intros Hrest. rewrite IH; [|intros x Hx; apply Hsub; by right|done].
  destruct (Js.after space (s +:+ more)) as [late|] eqn:Hlate; [|done]. exfalso.
  destruct (after_late _ _ _ _ Hfound Hlate) as (missing & Hmissing & Hspace).
  destruct (firstAfter_elem _ _ _ Hrest) as (other & Hother & Hs).
  assert (Js.after other space = Some (rest +:+ missing)) as Hafter.
  { rewrite Hspace, Hs, append_assoc. apply after_prefix. }
  apply (prefixFree_spec spaces) in Hafter; [|done|apply Hsub; by left|apply Hsub; by right].
  destruct rest; [|done]. rewrite append_empty in Hafter. by rewrite Hafter in Hmissing.
Qed.

Lemma afterSpace_split s rest :
  Js.afterSpace s = Some rest -> exists space, Js.truthy space = true /\ s = space +:+ rest.
Proof.
  destruct s as [|c s]; [done|]. unfold Js.afterSpace.
  destruct (Js.is_white c); [intros [= ->]; by exists (String c "")|].
  intros Hrest. apply firstAfter_elem in Hrest as (space & Hspace & Hs).
  exists space. split; [|done].
  assert (Forall (fun space => Js.truthy space = true) Js.wideSpaces) as Hspaces.
  { vm_compute. repeat constructor. }
  rewrite Forall_forall in Hspaces. by apply Hspaces.
Qed.

Lemma afterSpace_app s rest more :
  Js.afterSpace s = Some rest -> Js.afterSpace (s +:+ more) = Some (rest +:+ more).
Proof.
  destruct s as [|c s]; [done|]. rewrite append_String. unfold Js.afterSpace.
  destruct (Js.is_white c); [by intros [= ->]|]. rewrite <- append_String.
  apply (firstAfter_app Js.wideSpaces). by vm_compute.
Qed.

Lemma afterSpace_shorter s rest :
  Js.afterSpace s = Some rest -> String.length rest < String.length s.
Proof.
  intros Hrest. apply afterSpace_split in Hrest as (space & Hspace & ->).
  rewrite length_append. destruct space; [done|]. simpl. lia.
Qed.

Lemma trimStart_go_enough fuel s :
  String.length s <= fuel -> Js.trimStart_go fuel s = Js.trimStart s.
Proof.
  assert (forall n fuel fuel' s,
            String.length s <= n -> String.length s <= fuel -> String.length s <= fuel' ->
            Js.trimStart_go fuel s = Js.trimStart_go fuel' s) as Hgen.
  { clear. induction n as [|n IH]; intros fuel fuel' s Hn Hfuel Hfuel'.
    - destruct s; [|simpl in Hn; lia]. by destruct fuel, fuel'.
    - destruct fuel as [|fuel], fuel' as [|fuel']; try (destruct s; [done|simpl in *; lia]).
      simpl. destruct (Js.afterSpace s) as [rest|] eqn:Hrest; [|done].
      apply afterSpace_shorter in Hrest. apply IH; lia. }
  intros Hfuel. by apply (Hgen (String.length s)).
Qed.

Lemma trimStart_step s :
  Js.trimStart s
  = match Js.afterSpace s with
    | Some rest => Js.trimStart rest
    | None => s
    end.
Proof.
  destruct s as [|c s]; [done|]. unfold Js.trimStart at 1.
  cbn [String.length Js.trimStart_go].
  destruct (Js.afterSpace (String c s)) as [rest|] eqn:Hrest; [|done].
  apply trimStart_go_enough. apply afterSpace_shorter in Hrest. simpl in Hrest. lia.
Qed.

(** Facts by induction on the length of the text. *)
Lemma by_length (P : string -> Prop) :
  (forall s, (forall t, String.length t < String.length s -> P t) -> P s) ->
  forall s, P s.
Proof.
  intros Hstep s. remember (String.length s) as n eqn:Hn.
  assert (String.length s <= n) as Hle by lia. clear Hn. revert s Hle.
  induction n as [|n IH]; intros s Hle; apply Hstep; intros t Ht; [lia|].
  apply IH. lia.
Qed.

Lemma trimStart_settled s : Js.afterSpace (Js.trimStart s) = None.
Proof.
  induction s as [s IH] using by_length. rewrite trimStart_step.
  destruct (Js.afterSpace s) as [rest|] eqn:Hrest; [|done].
  apply IH. by apply afterSpace_shorter.
Qed.

Lemma trimStart_fixed s : Js.afterSpace s = None -> Js.trimStart s = s.
Proof. intros Hnone. by rewrite trimStart_step, Hnone. Qed.

Lemma trimStart_suffix s : exists spaces, s = spaces +:+ Js.trimStart s.
Proof.
  induction s as [s IH] using by_length. rewrite trimStart_step.
  destruct (Js.afterSpace s) as [rest|] eqn:Hrest; [|by exists ""].
  destruct (afterSpace_split _ _ Hrest) as (space & _ & ->).
  destruct (IH rest) as [spaces Hspaces]; [by apply afterSpace_shorter|].
  exists (space +:+ spaces). by rewrite append_assoc, <- Hspaces.
Qed.

Lemma blank_empty s : Js.blank s = true <-> Js.trimStart s = "".
Proof. unfold Js.blank. by destruct (Js.trimStart s). Qed.

(** White space before a text is dropped with its own. *)
Lemma trimStart_app spaces s :
  Js.blank spaces = true -> Js.trimStart (spaces +:+ s) = Js.trimStart s.
Proof.
  induction spaces as [spaces IH] using by_length. intros Hblank.
  apply blank_empty in Hblank. rewrite trimStart_step in Hblank.
  destruct (Js.afterSpace spaces) as [rest|] eqn:Hrest.
  - rewrite (trimStart_step (spaces +:+ s)), (afterSpace_app _ _ s Hrest).
    apply IH; [by apply afterSpace_shorter|by apply blank_empty].
  - by rewrite Hblank.
Qed.

Lemma trimEnd_split s : exists spaces, s = Js.trimEnd s +:+ spaces /\ Js.blank spaces = true.
Proof.
  induction s as [|c s IH]; [by exists ""|]. cbn [Js.trimEnd].
  destruct (Js.blank (String c s)) eqn:Hblank; [by exists (String c s)|].
  destruct IH as (spaces & Hs & Hspaces). exists spaces.
  split; [|done]. by rewrite append_String, <- Hs.
Qed.

Lemma blank_app s spaces :
  Js.blank s = true -> Js.blank spaces = true -> Js.blank (s +:+ spaces) = true.
Proof.
  intros Hs Hspaces. apply blank_empty. rewrite (trimStart_app _ _ Hs).
  by apply blank_empty.
Qed.

Lemma trimEnd_idempotent s : Js.trimEnd (Js.trimEnd s) = Js.trimEnd s.
Proof.
  induction s as [|c s IH]; [done|]. cbn [Js.trimEnd].
  destruct (Js.blank (String c s)) eqn:Hblank; [done|]. cbn [Js.trimEnd].
  destruct (trimEnd_split s) as (spaces & Hs & Hspaces).
  destruct (Js.blank (String c (Js.trimEnd s))) eqn:Hcut; [|by rewrite IH].
  pose proof (blank_app _ _ Hcut Hspaces) as Hboth.
  rewrite append_String, <- Hs in Hboth. congruence.
Qed.

Lemma afterSpace_prefix s more : Js.afterSpace (s +:+ more) = None -> s = "" \/ Js.afterSpace s = None.
Proof.
  intros Hnone. destruct (Js.afterSpace s) as [rest|] eqn:Hrest; [|by right].
  by rewrite (afterSpace_app _ _ more Hrest) in Hnone.
Qed.

Lemma trim_idempotent s : Js.trim (Js.trim s) = Js.trim s.
Proof.
  unfold Js.trim. pose proof (trimStart_settled s) as Hsettled.
  destruct (trimEnd_split (Js.trimStart s)) as (spaces & Hs & _).
  rewrite Hs in Hsettled at 1.
  destruct (afterSpace_prefix _ _ Hsettled) as [Hempty|Hnone].
  - by rewrite Hempty.
  - by rewrite (trimStart_fixed _ Hnone), trimEnd_idempotent.
Qed.

Lemma trim_allChars q s : allChars q s = true -> allChars q (Js.trim s) = true.
Proof.
  unfold Js.trim. destruct (trimStart_suffix s) as [before Hbefore].
  destruct (trimEnd_split (Js.trimStart s)) as (behind & Hbehind & _).
  intros Hs. rewrite Hbefore, Hbehind, !allChars_app in Hs.
  apply andb_true_iff in Hs as [_ Hs]. by apply andb_true_iff in Hs as [Hs _].
Qed.

Lemma afterSpace_plain c s : is_plain c = true -> Js.afterSpace (String c s) = None.
Proof.
  destruct c as [[] [] [] [] [] [] [] []]; vm_compute; congruence.
Qed.

Lemma trim_plain s : allChars is_plain s = true -> Js.trim s = s.
Proof.
  intros Hs. unfold Js.trim.
  assert (Js.trimStart s = s) as ->.
  { destruct s as [|c s]; [done|]. simpl in Hs. apply andb_true_iff in Hs as [Hc _].
    by apply trimStart_fixed, afterSpace_plain. }
  induction s as [|c s IH]; [done|]. simpl in Hs. apply andb_true_iff in Hs as [Hc Hs].
  cbn [Js.trimEnd]. unfold Js.blank.
  rewrite (trimStart_fixed _ (afterSpace_plain c s Hc)). cbn [Js.truthy negb].
  by rewrite (IH Hs).
Qed.

Lemma trim_space s : Js.trim (String " " s) = Js.trim s.
Proof. unfold Js.trim. by rewrite (trimStart_step (String " " s)). Qed.

Lemma trim_blank s : Js.truthy (Js.trim s) = negb (Js.blank s).
Proof.
  unfold Js.trim, Js.blank. destruct (Js.trimStart s) as [|c t] eqn:Hs; [done|].
  cbn [Js.trimEnd Js.truthy negb]. unfold Js.blank.
  pose proof (trimStart_settled s) as Hsettled. rewrite Hs in Hsettled.
  by rewrite (trimStart_fixed _ Hsettled).
Qed.






(** ** Lists, maps and options *)

Ltac each_member H :=
  repeat (apply elem_of_cons in H as [->|H]); [..|by apply elem_of_nil in H].

Lemma elem_of_filter_bool {A} (p : A -> bool) (l : list A) x :
  x ∈ List.filter p l <-> x ∈ l /\ p x = true.
Proof. rewrite !list_elem_of_In. apply filter_In. Qed.

Lemma elem_of_concat {A} (x : A) (ls : list (list A)) :
  x ∈ concat ls <-> exists l, l ∈ ls /\ x ∈ l.
Proof.
  rewrite list_elem_of_In, in_concat.
  split; intros (l & Hl & Hx); exists l; split; by apply list_elem_of_In.
Qed.

Lemma nonempty_elem {A} (l : list A) : l <> [] <-> exists x, x ∈ l.
Proof.
  destruct l as [|x l]; split; try done.
  - intros [? Hin]. by apply elem_of_nil in Hin.
  - intros _. exists x. by left.
Qed.

Lemma find_Some_split {A} (p : A -> bool) (l : list A) x :
  List.find p l = Some x ->
  exists earlier later,
    l = earlier ++ x :: later /\ (forall y, y ∈ earlier -> p y = false) /\ p x = true.
Proof.
  induction l as [|y l IH]; simpl; [done|].
  destruct (p y) eqn:Hy.
  - intros [= ->]. exists [], l. split; [done|]. split; [|done].
    intros ? Hin. by apply elem_of_nil in Hin.
  - intros Hfind. destruct (IH Hfind) as (earlier & later & -> & Hearlier & Hx).
    exists (y :: earlier), later. split; [done|]. split; [|done].
    intros z Hz. apply elem_of_cons in Hz as [->|Hz]; auto.
Qed.

Lemma find_None_all {A} (p : A -> bool) (l : list A) :
  List.find p l = None -> forall y, y ∈ l -> p y = false.
Proof.
  induction l as [|x l IH]; simpl; intros Hfind y Hy; [by apply elem_of_nil in Hy|].
  destruct (p x) eqn:Hx; [done|].
  apply elem_of_cons in Hy as [->|Hy]; auto.
Qed.

Lemma find_Some_elem {A} (p : A -> bool) (l : list A) x :
  List.find p l = Some x -> x ∈ l /\ p x = true.
Proof. intros Hf. apply find_some in Hf as [? ?]. by rewrite list_elem_of_In. Qed.

Lemma mapM_all {A B} (f : A -> option B) (P : B -> Prop) (l : list A) :
  (forall x, x ∈ l -> exists y, f x = Some y /\ P y) ->
  exists ys, mapM f l = Some ys /\ Forall P ys /\ length ys = length l.
Proof.
  induction l as [|x l IH]; intros Hall.
  - exists []. by repeat split.
  - destruct (Hall x) as (y & Hy & HP); [by left|].
    destruct IH as (ys & Hys & HPs & Hlen); [intros; apply Hall; by right|].
    exists (y :: ys). simpl. rewrite Hy, Hys. simpl. repeat split; [by constructor|lia].
Qed.

Section MapFacts.
Context `{Countable K} {A : Type}.

(** A map filled by [map_push] holds, under each key, the pushed
    elements of that key in the order they came. *)
Lemma foldl_map_push (key : A -> K) (l : list A) (m : gmap K (list A)) (k : K) :
  default [] (foldl (fun m x => map_push (key x) x m) m l !! k)
  = default [] (m !! k) ++ List.filter (fun x => bool_decide (key x = k)) l.
Proof.
  revert m. induction l as [|x l IH]; intros m; simpl.
  - by rewrite app_nil_r.
  - rewrite IH. unfold map_push. case_bool_decide as Hk.
    + subst k. rewrite lookup_insert_eq. simpl. by rewrite <- app_assoc.
    + by rewrite lookup_insert_ne.
Qed.

End MapFacts.

(** ** The index of a document *)

Lemma outgoing_buildMaps machine sourceId :
  outgoing (buildMaps machine) sourceId
  = List.filter (fun edge => bool_decide (source edge = sourceId)) (edges machine).
Proof. unfold outgoing, buildMaps; simpl. by rewrite foldl_map_push, lookup_empty. Qed.

Lemma childrenOf_buildMaps machine parentId :
  childrenOf (buildMaps machine) parentId
  = List.filter (fun node => bool_decide (parentNode node = parentId)) (nodes machine).
Proof. unfold childrenOf, buildMaps; simpl. by rewrite foldl_map_push, lookup_empty. Qed.

Lemma childrenOf_elem machine parentId node :
  node ∈ childrenOf (buildMaps machine) parentId
  <-> node ∈ nodes machine /\ parentNode node = parentId.
Proof.
  rewrite childrenOf_buildMaps, elem_of_filter_bool. by rewrite bool_decide_eq_true.
Qed.

Lemma is_marker_true node : is_marker node = true <-> kind (data node) = initial.
Proof. unfold is_marker. apply bool_decide_eq_true. Qed.

Lemma is_marker_false node : is_marker node = false <-> kind (data node) <> initial.
Proof. unfold is_marker. apply bool_decide_eq_false. Qed.

Lemma regionsOf_elem machine nodeId child :
  child ∈ regionsOf (buildMaps machine) nodeId
  <-> child ∈ nodes machine /\ parentNode child = Some nodeId /\ is_marker child = false.
Proof.
  unfold regionsOf. rewrite elem_of_filter_bool, childrenOf_elem, negb_true_iff. tauto.
Qed.

Lemma foldl_insert_lookup (l : list StateNode) (m : gmap string StateNode) i node :
  foldl (fun m node => <[id node := node]> m) m l !! i = Some node ->
  (node ∈ l /\ id node = i) \/ m !! i = Some node.
Proof.
  revert m. induction l as [|x l IH]; intros m; simpl; [auto|].
  intros Hl. destruct (IH _ Hl) as [[? ?]|Hm].
  - left. split; [by right|done].
  - destruct (decide (id x = i)) as [<-|Hne].
    + rewrite lookup_insert_eq in Hm. injection Hm as <-. left. split; [by left|done].
    + rewrite lookup_insert_ne in Hm by done. by right.
Qed.

Lemma foldl_insert_is_Some (l : list StateNode) (m : gmap string StateNode) i :
  is_Some (foldl (fun m node => <[id node := node]> m) m l !! i)
  <-> (exists node, node ∈ l /\ id node = i) \/ is_Some (m !! i).
Proof.
  revert m. induction l as [|x l IH]; intros m; simpl.
  - split; [auto|]. intros [(? & Hx & _)|?]; [by apply elem_of_nil in Hx|done].
  - rewrite IH. split.
    + intros [(n & ? & ?)|Hs]; [left; exists n; split; [by right|done]|].
      destruct (decide (id x = i)) as [<-|Hne].
      * left. exists x. split; [by left|done].
      * rewrite lookup_insert_ne in Hs by done. by right.
    + intros [(n & Hn & Hi)|Hs].
      * apply elem_of_cons in Hn as [->|Hn].
        -- right. subst i. rewrite lookup_insert_eq. by eexists.
        -- left. by exists n.
      * right. destruct (decide (id x = i)) as [<-|Hne].
        -- rewrite lookup_insert_eq. by eexists.
        -- by rewrite lookup_insert_ne.
Qed.

(** [nodeById] answers with a node of the document that has the
    identifier asked for. *)
Lemma nodeById_Some machine i node :
  nodeById (buildMaps machine) !! i = Some node -> node ∈ nodes machine /\ id node = i.
Proof.
  intros Hl. apply foldl_insert_lookup in Hl as [?|Hl]; [done|].
  by rewrite lookup_empty in Hl.
Qed.

Lemma nodeById_is_Some machine i :
  is_Some (nodeById (buildMaps machine) !! i)
  <-> exists node, node ∈ nodes machine /\ id node = i.
Proof.
  unfold buildMaps; simpl. rewrite foldl_insert_is_Some, lookup_empty.
  split; [intros [?|[? ?]]; done|auto].
Qed.

Lemma rankBound_ge machine rank node :
  node ∈ nodes machine -> rank (id node) <= rankBound machine rank.
Proof.
  unfold rankBound. induction (nodes machine) as [|x l IH]; intros Hin;
    [by apply elem_of_nil in Hin|].
  simpl. apply elem_of_cons in Hin as [->|Hin]; [lia|]. specialize (IH Hin). lia.
Qed.

(** ** Entry resolution returns *)

Lemma enterNode_step fuel nodeId maps seen :
  enterNode (S fuel) nodeId maps seen
  = if bool_decide (nodeId ∈ seen) then Some [] else
    let seen := {[nodeId]} ∪ seen in
    match nodeById maps !! nodeId with
    | None => Some []
    | Some node =>
        if is_marker node then
          match head (outgoing maps (id node)) with
          | Some edge =>
              if Js.truthy (target edge)
              then enterNode fuel (target edge) maps seen
              else Some []
          | None => Some []
          end
        else
          match regionsOf maps (id node) with
          | [] => Some [id node]
          | first :: _ =>
              if bool_decide (kind (data node) = parallel) then
                entered ← mapM (fun child => enterNode fuel (id child) maps seen)
                               (regionsOf maps (id node));
                Some (foldl set_add [] (concat entered))
              else
                let initialTarget :=
                  default (id first) (findInitialTarget (Some (id node)) maps) in
                if Js.truthy initialTarget
                then enterNode fuel initialTarget maps seen
                else Some [id node]
          end
    end.
Proof. reflexivity. Qed.

(** Marking a node of the document as seen leaves fewer unseen nodes. *)
Lemma unseen_shrinks (maps : SimulationMaps) (nodeId : string) (seen : gset string) node :
  nodeId ∉ seen -> nodeById maps !! nodeId = Some node ->
  size (dom (nodeById maps) ∖ ({[nodeId]} ∪ seen)) < size (dom (nodeById maps) ∖ seen).
Proof.
  intros Hseen Hnode. apply subset_size.
  assert (nodeId ∈ dom (nodeById maps)) as Hdom by (apply elem_of_dom; eauto).
  split.
  - intros x Hx. apply elem_of_difference in Hx as [Hx Hnot].
    apply elem_of_difference. split; [done|]. intros Hin. apply Hnot.
    apply elem_of_union. by right.
  - intros Hsub. assert (nodeId ∈ dom (nodeById maps) ∖ seen) as Hin
      by (by apply elem_of_difference).
    apply Hsub, elem_of_difference in Hin as [_ Hnot]. apply Hnot.
    apply elem_of_union. left. by apply elem_of_singleton.
Qed.

(** With more fuel than unseen nodes, [enterNode] returns. *)
Lemma enterNode_returns maps fuel nodeId seen :
  size (dom (nodeById maps) ∖ seen) < fuel ->
  is_Some (enterNode fuel nodeId maps seen).
Proof.
  revert nodeId seen. induction fuel as [|fuel IH]; intros nodeId seen Hfuel; [lia|].
  rewrite enterNode_step. case_bool_decide as Hseen; [eauto|]. cbn zeta.
  destruct (nodeById maps !! nodeId) as [node|] eqn:Hnode; [|eauto].
  pose proof (unseen_shrinks maps nodeId seen node Hseen Hnode) as Hless.
  assert (forall next, is_Some (enterNode fuel next maps ({[nodeId]} ∪ seen))) as Hnext
    by (intros; apply IH; lia).
  destruct (is_marker node).
  { destruct (head _) as [edge|]; [|eauto]. destruct (Js.truthy _); eauto. }
  destruct (regionsOf maps (id node)) as [|first rest] eqn:Hchildren; [eauto|].
  case_bool_decide.
  - assert (is_Some (mapM (fun child => enterNode fuel (id child) maps ({[nodeId]} ∪ seen))
                          (first :: rest))) as [entered ->]; [|by eexists].
    apply mapM_is_Some, Forall_forall. intros; apply Hnext.
  - destruct (Js.truthy _); eauto.
Qed.

Lemma enterNode_from_scratch maps nodeId :
  is_Some (enterNode (enterFuel maps) nodeId maps ∅).
Proof.
  apply enterNode_returns. unfold enterFuel. rewrite difference_empty_L, size_dom. lia.
Qed.

Lemma initialSimulationState_returns machine : is_Some (initialSimulationState machine).
Proof.
  unfold initialSimulationState. cbn zeta.
  destruct (findInitialTarget _ _) as [rootTarget|].
  - destruct (Js.truthy rootTarget); [apply enterNode_from_scratch|].
    destruct (List.find _ _); [apply enterNode_from_scratch|eauto].
  - destruct (List.find _ _); [apply enterNode_from_scratch|eauto].
Qed.

(** ** The ancestor walk *)

Lemma getAncestors_step fuel current maps :
  getAncestors (S fuel) (Some current) maps
  = if Js.truthy current
    then chain ← getAncestors fuel (nodeById maps !! current ≫= parentNode) maps;
         Some (current :: chain)
    else Some [].
Proof. reflexivity. Qed.

Lemma getAncestors_None fuel maps : getAncestors fuel None maps = Some [].
Proof. by destruct fuel. Qed.

(** In a forest the walk ends once the fuel covers the ranks above. *)
Lemma getAncestors_returns machine rank fuel current :
  forest machine rank ->
  1 <= fuel -> rankBound machine rank + 2 <= fuel + rank current ->
  is_Some (getAncestors fuel (Some current) (buildMaps machine)).
Proof.
  intros Hforest. revert current.
  induction fuel as [|fuel IH]; intros current Hone Hfuel; [lia|].
  rewrite getAncestors_step. destruct (Js.truthy current); [|eauto].
  destruct (nodeById (buildMaps machine) !! current) as [node|] eqn:Hnode;
    [|simpl; rewrite getAncestors_None; simpl; eauto].
  apply nodeById_Some in Hnode as [Hin <-].
  destruct (parentNode node) as [p|] eqn:Hparent;
    [|simpl; rewrite Hparent, getAncestors_None; simpl; eauto].
  pose proof (Hforest node p Hin Hparent). pose proof (rankBound_ge machine rank node Hin).
  destruct (IH p) as [chain Hchain]; [lia|lia|].
  simpl. rewrite Hparent, Hchain. simpl. eauto.
Qed.

(** ** Event resolution *)

Lemma truthy_nonempty s : Js.truthy s = true <-> s <> "".
Proof. by destruct s. Qed.

Lemma foldl_insert_last (l : list StateNode) (m : gmap string StateNode) nodeId :
  foldl (fun m node => <[id node := node]> m) m l !! nodeId
  = match last (List.filter (fun node => bool_decide (id node = nodeId)) l) with
    | Some node => Some node
    | None => m !! nodeId
    end.
Proof.
  induction l as [|node l IH] using rev_ind; [done|].
  rewrite foldl_app, List.filter_app. cbn [foldl List.filter].
  case_bool_decide as Hid.
  - by rewrite last_snoc, <- Hid, lookup_insert_eq.
  - by rewrite app_nil_r, lookup_insert_ne.
Qed.

(** The index reads an id as the last node that carries it. *)
Lemma nodeById_named machine nodeId :
  nodeById (buildMaps machine) !! nodeId = nodeNamed machine nodeId.
Proof.
  unfold nodeNamed, buildMaps. cbn [nodeById]. rewrite foldl_insert_last, lookup_empty.
  by destruct (last _).
Qed.

(** What [getAncestors] returns is the chain upward. *)
Lemma getAncestors_upward machine fuel current chain :
  getAncestors fuel current (buildMaps machine) = Some chain ->
  upward machine current chain.
Proof.
  revert current chain. induction fuel as [|fuel IH]; intros [nodeId|] chain.
  - simpl. destruct (Js.truthy nodeId) eqn:Hid; [done|]. intros [= <-]. by constructor.
  - rewrite getAncestors_None. intros [= <-]. constructor.
  - rewrite getAncestors_step. destruct (Js.truthy nodeId) eqn:Hid.
    + intros Hchain. apply bind_Some in Hchain as (rest & Hrest & [= <-]).
      constructor; [done|]. rewrite <- nodeById_named. by apply IH.
    + intros [= <-]. by constructor.
  - rewrite getAncestors_None. intros [= <-]. constructor.
Qed.

Section EngineFacts.
Context `{Platform}.

(** *** Guards *)

Lemma evaluateGuard_never_raises guardText eventType :
  evaluateGuard guardText eventType <> Raises.
Proof.
  unfold evaluateGuard. destruct (negb _); [done|]. by destruct (Function_call _ _).
Qed.

Lemma evaluateGuard_true guardText eventType :
  evaluateGuard guardText eventType = Gives true <-> guardHolds guardText eventType.
Proof.
  unfold evaluateGuard, guardHolds.
  destruct (Js.trim guardText) as [|c rest] eqn:Htrim; cbn [Js.truthy negb].
  - split; [by left|done].
  - split.
    + destruct (Function_call _ _) as [[]| |]; try done. by right.
    + intros [?| ->]; done.
Qed.

Lemma evaluateGuard_false guardText eventType :
  evaluateGuard guardText eventType = Gives false <-> guardFails guardText eventType.
Proof.
  unfold evaluateGuard, guardFails.
  destruct (Js.trim guardText) as [|c rest] eqn:Htrim; cbn [Js.truthy negb].
  - split; [done|]. by intros [? _].
  - split.
    + destruct (Function_call _ _) as [[]| |]; try done; split; auto.
    + intros [_ [->| ->]]; done.
Qed.

Lemma evaluateGuard_hangs guardText eventType :
  evaluateGuard guardText eventType = Hangs
  <-> Js.trim guardText <> ""
      /\ Function_call ("return (" +:+ guardText +:+ ");") eventType = Hangs.
Proof.
  unfold evaluateGuard.
  destruct (Js.trim guardText) as [|c rest] eqn:Htrim; cbn [Js.truthy negb].
  - split; [done|]. by intros [? _].
  - split.
    + by destruct (Function_call _ _) as [[]| |].
    + by intros [_ ->].
Qed.

(** *** The test of one edge *)

Lemma edge_matches_true eventType edge :
  edge_matches eventType edge = Gives true <-> taken eventType edge.
Proof.
  unfold edge_matches, taken. case_bool_decide as Hevent.
  - rewrite evaluateGuard_true. tauto.
  - split; [done|]. by intros [? _].
Qed.

Lemma edge_matches_false eventType edge :
  edge_matches eventType edge = Gives false <-> passed eventType edge.
Proof.
  unfold edge_matches, passed. case_bool_decide as Hevent.
  - rewrite evaluateGuard_false. split; [by right|]. by intros [?|?].
  - split; [by left|done].
Qed.

Lemma edge_matches_never_raises eventType edge : edge_matches eventType edge <> Raises.
Proof.
  unfold edge_matches. case_bool_decide; [apply evaluateGuard_never_raises|done].
Qed.

Lemma edge_matches_hangs eventType edge :
  edge_matches eventType edge = Hangs
  <-> event (edge_data edge) = eventType
      /\ Js.trim (guard (edge_data edge)) <> ""
      /\ Function_call ("return (" +:+ guard (edge_data edge) +:+ ");") eventType = Hangs.
Proof.
  unfold edge_matches. case_bool_decide as Hevent.
  - rewrite evaluateGuard_hangs. tauto.
  - split; [done|]. by intros [? _].
Qed.

(** *** The search among the edges of one node *)

Lemma findMatch_cons eventType edge rest :
  findMatch eventType (edge :: rest)
  = match edge_matches eventType edge with
    | Gives true => Gives (Some edge)
    | Gives false => findMatch eventType rest
    | Raises => Raises
    | Hangs => Hangs
    end.
Proof. reflexivity. Qed.

Lemma findMatch_never_raises eventType transitions :
  findMatch eventType transitions <> Raises.
Proof.
  induction transitions as [|edge rest IH]; [done|]. rewrite findMatch_cons.
  pose proof (edge_matches_never_raises eventType edge).
  by destruct (edge_matches eventType edge) as [[]| |].
Qed.

Lemma findMatch_None eventType transitions :
  findMatch eventType transitions = Gives None ->
  forall edge, edge ∈ transitions -> passed eventType edge.
Proof.
  induction transitions as [|first rest IH]; intros Hfind edge Hin;
    [by apply elem_of_nil in Hin|].
  rewrite findMatch_cons in Hfind.
  destruct (edge_matches eventType first) as [[]| |] eqn:Hfirst; try done.
  apply elem_of_cons in Hin as [->|Hin]; [by apply edge_matches_false|by apply IH].
Qed.

Lemma findMatch_Some eventType transitions edge :
  findMatch eventType transitions = Gives (Some edge) ->
  exists earlier later,
    transitions = earlier ++ edge :: later
    /\ (forall other, other ∈ earlier -> passed eventType other)
    /\ taken eventType edge.
Proof.
  induction transitions as [|first rest IH]; [done|]. rewrite findMatch_cons.
  destruct (edge_matches eventType first) as [[]| |] eqn:Hfirst; try done.
  - intros [= ->]. exists [], rest. split; [done|].
    split; [|by apply edge_matches_true]. intros ? Hin. by apply elem_of_nil in Hin.
  - intros Hrest. destruct (IH Hrest) as (earlier & later & -> & Hearlier & Htaken).
    exists (first :: earlier), later. split; [done|]. split; [|done].
    intros other Hin. apply elem_of_cons in Hin as [->|Hin];
      [by apply edge_matches_false|by apply Hearlier].
Qed.

Lemma findMatch_returns eventType transitions :
  (forall edge, edge ∈ transitions -> edge_matches eventType edge <> Hangs) ->
  exists found, findMatch eventType transitions = Gives found.
Proof.
  induction transitions as [|first rest IH]; intros Hreturn; [by eexists|].
  rewrite findMatch_cons.
  pose proof (edge_matches_never_raises eventType first).
  pose proof (Hreturn first ltac:(by left)).
  destruct (edge_matches eventType first) as [[]| |]; try done; [by eexists|].
  apply IH. intros edge Hin. apply Hreturn. by right.
Qed.

(** *** The search along the chain *)

Lemma findInChain_cons sourceId rest eventType maps :
  findInChain (sourceId :: rest) eventType maps
  = match findMatch eventType (outgoing maps sourceId) with
    | Gives None => findInChain rest eventType maps
    | ended => ended
    end.
Proof. reflexivity. Qed.

Lemma findInChain_never_raises chain eventType maps :
  findInChain chain eventType maps <> Raises.
Proof.
  induction chain as [|sourceId chain IH]; [done|]. rewrite findInChain_cons.
  pose proof (findMatch_never_raises eventType (outgoing maps sourceId)).
  by destruct (findMatch _ _) as [[]| |].
Qed.

Lemma findInChain_None machine eventType chain :
  findInChain chain eventType (buildMaps machine) = Gives None ->
  noMatch machine eventType chain.
Proof.
  induction chain as [|sourceId chain IH]; intros Hfind a e Ha He;
    [by apply elem_of_nil in Ha|].
  rewrite findInChain_cons, outgoing_buildMaps in Hfind. fold (leaving machine sourceId) in Hfind.
  destruct (findMatch eventType (leaving machine sourceId)) as [[found|]| |] eqn:Hhere;
    try done.
  apply elem_of_cons in Ha as [->|Ha]; [by eapply findMatch_None|by eapply IH].
Qed.

Lemma findInChain_Some machine eventType chain edge :
  findInChain chain eventType (buildMaps machine) = Gives (Some edge) ->
  exists below sourceId above earlier later,
    chain = below ++ sourceId :: above
    /\ noMatch machine eventType below
    /\ leaving machine sourceId = earlier ++ edge :: later
    /\ (forall other, other ∈ earlier -> passed eventType other)
    /\ taken eventType edge.
Proof.
  induction chain as [|sourceId chain IH]; [done|].
  rewrite findInChain_cons, outgoing_buildMaps. fold (leaving machine sourceId).
  destruct (findMatch eventType (leaving machine sourceId)) as [[found|]| |] eqn:Hhere;
    try done.
  - intros [= ->]. apply findMatch_Some in Hhere as (earlier & later & ? & ? & ?).
    exists [], sourceId, chain, earlier, later. split; [done|].
    split; [|done]. intros ? ? Hin. by apply elem_of_nil in Hin.
  - intros Hrest.
    destruct (IH Hrest) as (below & s & above & earlier & later & -> & Hbelow & ? & ? & ?).
    exists (sourceId :: below), s, above, earlier, later. split; [done|].
    split; [|done].
    intros a e Ha He. apply elem_of_cons in Ha as [->|Ha]; [|by eapply Hbelow].
    by eapply findMatch_None.
Qed.

Lemma findInChain_returns machine eventType chain :
  guardsReturn machine eventType ->
  exists found, findInChain chain eventType (buildMaps machine) = Gives found.
Proof.
  intros Hguards. induction chain as [|sourceId chain IH]; [by eexists|].
  rewrite findInChain_cons.
  destruct (findMatch_returns eventType (outgoing (buildMaps machine) sourceId))
    as [[found|] ->]; [|by eexists|done].
  intros edge Hin Hhangs. rewrite outgoing_buildMaps in Hin.
  apply elem_of_filter_bool in Hin as [Hin _].
  apply edge_matches_hangs in Hhangs as (Hevent & Hguard & Hcall).
  by apply (Hguards edge).
Qed.

Lemma findTransition_None fuel machine eventType leaf :
  findTransitionForEvent fuel leaf eventType (buildMaps machine) = Some None ->
  silent machine eventType leaf.
Proof.
  unfold findTransitionForEvent, silent.
  destruct (getAncestors _ _ _) as [chain|] eqn:Hchain; simpl; [|done].
  destruct (findInChain _ _ _) as [[found|]| |] eqn:Hfound; try done.
  intros _. exists chain. split; [by eapply getAncestors_upward|].
  by apply findInChain_None.
Qed.

Lemma findTransition_Some fuel machine eventType leaf edge :
  findTransitionForEvent fuel leaf eventType (buildMaps machine) = Some (Some edge) ->
  fires machine eventType leaf edge.
Proof.
  unfold findTransitionForEvent, fires.
  destruct (getAncestors _ _ _) as [chain|] eqn:Hchain; simpl; [|done].
  destruct (findInChain _ _ _) as [[found|]| |] eqn:Hfound; try done.
  intros [= ->]. apply findInChain_Some in Hfound
    as (below & s & above & earlier & later & -> & ? & ? & ? & ?).
  exists below, s, above, earlier, later. split; [by eapply getAncestors_upward|done].
Qed.

Lemma triggerLoop_cons fuel maps leaf rest eventType active :
  triggerLoop fuel maps (leaf :: rest) eventType active
  = found ← findTransitionForEvent fuel leaf eventType maps;
    match found with
    | None => triggerLoop fuel maps rest eventType active
    | Some transition =>
        nextLeaves ← enterNode (enterFuel maps) (target transition) maps ∅;
        Some {| nextActiveLeafIds := nextLeaves;
                takenEdgeId := Some (edge_id transition) |}
    end.
Proof. reflexivity. Qed.

(** The loop keeps what the claim says: the leaves passed over were
    silent, and the first leaf that is not decides the step. *)
Lemma triggerLoop_resolved fuel machine eventType active before leaves step :
  active = before ++ leaves ->
  (forall other, other ∈ before -> silent machine eventType other) ->
  triggerLoop fuel (buildMaps machine) leaves eventType active = Some step ->
  (exists before' leaf after edge entered,
      active = before' ++ leaf :: after
      /\ (forall other, other ∈ before' -> silent machine eventType other)
      /\ fires machine eventType leaf edge
      /\ enterNode (enterFuel (buildMaps machine)) (target edge) (buildMaps machine) ∅
         = Some entered
      /\ step = {| nextActiveLeafIds := entered; takenEdgeId := Some (edge_id edge) |})
  \/ ((forall leaf, leaf ∈ active -> silent machine eventType leaf)
      /\ step = {| nextActiveLeafIds := active; takenEdgeId := None |}).
Proof.
  revert before. induction leaves as [|leaf rest IH]; intros before Hactive Hbefore.
  - intros [= <-]. right. rewrite app_nil_r in Hactive. by subst.
  - rewrite triggerLoop_cons. intros Hstep.
    apply bind_Some in Hstep as ([edge|] & Hfound & Hstep).
    + apply bind_Some in Hstep as (entered & Henter & [= <-]).
      left. exists before, leaf, rest, edge, entered.
      split; [done|]. split; [done|]. split; [by eapply findTransition_Some|done].
    + apply (IH (before ++ [leaf])); [by rewrite <- app_assoc| |done].
      intros other Hin. apply elem_of_app in Hin as [Hin|Hin]; [auto|].
      apply list_elem_of_singleton in Hin as ->. by eapply findTransition_None.
Qed.

Lemma triggerLoop_returns fuel machine eventType active leaves :
  guardsReturn machine eventType ->
  (forall leaf, leaf ∈ leaves ->
     is_Some (getAncestors fuel (Some leaf) (buildMaps machine))) ->
  is_Some (triggerLoop fuel (buildMaps machine) leaves eventType active).
Proof.
  intros Hguards.
  induction leaves as [|leaf rest IH]; intros Hchains; [simpl; eauto|].
  rewrite triggerLoop_cons. unfold findTransitionForEvent.
  destruct (Hchains leaf) as [chain ->]; [by left|].
  cbn [mbind option_bind].
  destruct (findInChain_returns machine eventType chain Hguards) as [found ->].
  cbn [mbind option_bind]. destruct found as [transition|].
  - destruct (enterNode_from_scratch (buildMaps machine) (target transition))
      as [entered ->].
    by eexists.
  - apply IH. intros. apply Hchains. by right.
Qed.

Lemma trigger_returns_in_forest machine rank fuel activeLeafIds eventType :
  forest machine rank -> guardsReturn machine eventType ->
  rankBound machine rank + 2 <= fuel ->
  is_Some (triggerSimulationEvent fuel machine activeLeafIds eventType).
Proof.
  intros Hforest Hguards Hfuel. apply triggerLoop_returns; [done|].
  intros. apply (getAncestors_returns machine rank); [done|lia|lia].
Qed.


(** C9, as amended.  [enterNode] returns on every index, node id and
    visited set once its fuel exceeds the number of nodes not yet visited,
    so [initialSimulationState] returns on every document;
    [triggerSimulationEvent] returns on every document whose [parentNode]
    links form a forest, provided the guards the event reaches return
    when they are evaluated. *)
Theorem entry_terminates machine :
  (forall maps nodeId seen,
      is_Some (enterNode (S (size (dom (nodeById maps) ∖ seen))) nodeId maps seen))
  /\ is_Some (initialSimulationState machine)
  /\ (forall rank fuel activeLeafIds eventType,
        forest machine rank -> guardsReturn machine eventType ->
        rankBound machine rank + 2 <= fuel ->
        is_Some (triggerSimulationEvent fuel machine activeLeafIds eventType)).
Proof.
  split; [intros; apply enterNode_returns; lia|].
  split; [apply initialSimulationState_returns|].
  intros rank fuel activeLeafIds eventType. apply trigger_returns_in_forest.
Qed.

End EngineFacts.

(** ** The initial configuration *)

Lemma set_add_elem leaves leaf x : x ∈ set_add leaves leaf <-> x ∈ leaves \/ x = leaf.
Proof.
  unfold set_add. case_bool_decide.
  - split; [auto|]. intros [?| ->]; done.
  - rewrite elem_of_app, list_elem_of_singleton. done.
Qed.

Lemma foldl_set_add_elem new leaves x :
  x ∈ foldl set_add leaves new <-> x ∈ leaves \/ x ∈ new.
Proof.
  revert leaves. induction new as [|y new IH]; intros leaves; simpl.
  - split; [auto|]. intros [?|Hin]; [done|by apply elem_of_nil in Hin].
  - rewrite IH, set_add_elem, elem_of_cons. tauto.
Qed.

Section Entry.
Variable machine : MachineDocument.
Variable rank : string -> nat.
Hypothesis WF : entryWellFormed machine rank.

(** What [findInitialTarget] selects inside a node that has regions is a
    node of the document, ranked below the node. *)
Lemma initialTarget_below node first rest :
  node ∈ nodes machine ->
  regionsOf (buildMaps machine) (id node) = first :: rest ->
  let goal :=
    default (id first) (findInitialTarget (Some (id node)) (buildMaps machine)) in
  Js.truthy goal = true
  /\ (exists found, found ∈ nodes machine /\ id found = goal)
  /\ rank goal < rank (id node).
Proof.
  intros Hnode Hregions goal.
  assert (first ∈ regionsOf (buildMaps machine) (id node)) as Hfirst
    by (rewrite Hregions; by left).
  apply regionsOf_elem in Hfirst as (Hfirst & Hparent & _).
  assert (forall child, child ∈ childrenOf (buildMaps machine) (Some (id node)) ->
            Js.truthy (id child) = true /\ child ∈ nodes machine
            /\ rank (id child) < rank (id node)) as Hchild.
  { intros child Hin. apply childrenOf_elem in Hin as [Hin Hp].
    repeat split; [by apply (wf_ids _ _ WF)|done|by apply (wf_forest _ _ WF)]. }
  assert (forall fallback,
            id <$> List.find (fun n => negb (is_marker n))
                             (childrenOf (buildMaps machine) (Some (id node)))
            = fallback ->
            Js.truthy (default (id first) fallback) = true
            /\ (exists found, found ∈ nodes machine
                              /\ id found = default (id first) fallback)
            /\ rank (default (id first) fallback) < rank (id node)) as Hfallback.
  { intros fallback <-.
    destruct (List.find _ _) as [child|] eqn:Hfind; simpl.
    - apply find_Some_elem in Hfind as [Hin _].
      destruct (Hchild child Hin) as (? & ? & ?). eauto.
    - repeat split; [by apply (wf_ids _ _ WF)|eauto|by apply (wf_forest _ _ WF)]. }
  subst goal. unfold findInitialTarget. cbn zeta.
  destruct (List.find is_marker _) as [marker|] eqn:Hmarker; [|by apply Hfallback].
  apply find_Some_elem in Hmarker as [Hin Hkind]. apply is_marker_true in Hkind.
  destruct (Hchild marker Hin) as (_ & Hmarker & Hrank).
  destruct (wf_marker _ _ WF marker Hmarker Hkind) as (edge & found & Hedge & ? & Hid & ?).
  rewrite Hedge. simpl.
  repeat split; [|eauto|lia]. rewrite <- Hid. by apply (wf_ids _ _ WF).
Qed.

(** Entering a node of a well-formed document, with everything visited
    so far ranked above it, yields leaves and at least one. *)
Lemma enterNode_leaves fuel nodeId seen :
  size (dom (nodeById (buildMaps machine)) ∖ seen) < fuel ->
  (exists node, node ∈ nodes machine /\ id node = nodeId) ->
  (forall other, other ∈ seen -> rank nodeId < rank other) ->
  exists leaves,
    enterNode fuel nodeId (buildMaps machine) seen = Some leaves
    /\ leaves <> []
    /\ forall leaf, leaf ∈ leaves -> isLeaf machine leaf.
Proof.
  revert nodeId seen.
  induction fuel as [|fuel IH]; intros nodeId seen Hfuel Hexists Hseen; [lia|].
  rewrite enterNode_step.
  assert (nodeId ∉ seen) as Hfresh by (intros Hin; specialize (Hseen _ Hin); lia).
  rewrite bool_decide_eq_false_2 by done. cbn zeta.
  apply nodeById_is_Some in Hexists as [node Hnode]. rewrite Hnode.
  pose proof (unseen_shrinks _ nodeId seen node Hfresh Hnode) as Hless.
  apply nodeById_Some in Hnode as [Hin <-].
  assert (forall next,
            (exists found, found ∈ nodes machine /\ id found = next) ->
            rank next < rank (id node) ->
            exists leaves,
              enterNode fuel next (buildMaps machine) ({[id node]} ∪ seen) = Some leaves
              /\ leaves <> []
              /\ forall leaf, leaf ∈ leaves -> isLeaf machine leaf) as Hnext.
  { intros next Hfound Hrank. apply IH; [lia|done|].
    intros other Hother. apply elem_of_union in Hother as [Hother|Hother].
    - apply elem_of_singleton in Hother as ->. done.
    - specialize (Hseen _ Hother). lia. }
  destruct (is_marker node) eqn:Hmarker.
  { apply is_marker_true in Hmarker.
    destruct (wf_marker _ _ WF node Hin Hmarker) as (edge & found & Hedge & ? & Hid & ?).
    rewrite Hedge.
    assert (Js.truthy (target edge) = true) as ->
      by (rewrite <- Hid; by apply (wf_ids _ _ WF)).
    apply Hnext; eauto. }
  apply is_marker_false in Hmarker.
  destruct (regionsOf (buildMaps machine) (id node)) as [|first rest] eqn:Hregions.
  { exists [id node]. split; [done|]. split; [done|].
    intros leaf Hleaf. apply list_elem_of_singleton in Hleaf as ->.
    exists node. repeat split; [done|done|].
    destruct (kind (data node)); tauto. }
  case_bool_decide as Hkind.
  - destruct (mapM_all
                (fun child => enterNode fuel (id child) (buildMaps machine)
                                        ({[id node]} ∪ seen))
                (fun leaves => leaves <> []
                               /\ forall leaf, leaf ∈ leaves -> isLeaf machine leaf)
                (first :: rest)) as (entered & -> & Hall & Hlen).
    { intros child Hchild. rewrite <- Hregions in Hchild.
      apply regionsOf_elem in Hchild as (? & ? & _).
      apply Hnext; [eauto|by apply (wf_forest _ _ WF)]. }
    exists (foldl set_add [] (concat entered)). split; [done|]. split.
    + destruct entered as [|leaves entered]; [done|].
      apply Forall_cons in Hall as [[Hleaves _] _].
      apply nonempty_elem in Hleaves as [leaf Hleaf].
      apply nonempty_elem. exists leaf. apply foldl_set_add_elem. right.
      simpl. apply elem_of_app. by left.
    + intros leaf Hleaf. apply foldl_set_add_elem in Hleaf as [Hleaf|Hleaf];
        [by apply elem_of_nil in Hleaf|].
      apply elem_of_concat in Hleaf as (leaves & Hleaves & Hleaf).
      rewrite Forall_forall in Hall. by apply (Hall leaves Hleaves).
  - destruct (initialTarget_below node first rest Hin Hregions) as (-> & Hfound & Hrank).
    by apply Hnext.
Qed.

Lemma rootTarget_exists :
  exists rootTarget found,
    findInitialTarget None (buildMaps machine) = Some rootTarget
    /\ Js.truthy rootTarget = true
    /\ found ∈ nodes machine /\ id found = rootTarget.
Proof.
  destruct (wf_root _ _ WF) as (root & Hroot & Hparent & Hkind).
  assert (exists fallback,
            List.find (fun n => negb (is_marker n)) (childrenOf (buildMaps machine) None)
            = Some fallback) as [fallback Hfallback].
  { destruct (List.find _ _) eqn:Hfind; [eauto|]. exfalso.
    assert (root ∈ childrenOf (buildMaps machine) None) as Hin
      by (by apply childrenOf_elem).
    pose proof (find_None_all _ _ Hfind root Hin) as Hnot.
    apply negb_false_iff, is_marker_true in Hnot. done. }
  pose proof Hfallback as Hfb. apply find_Some_elem in Hfb as [Hin _].
  apply childrenOf_elem in Hin as [Hin _].
  unfold findInitialTarget. cbn zeta. rewrite Hfallback. simpl.
  destruct (List.find is_marker _) as [marker|] eqn:Hmarker.
  - apply find_Some_elem in Hmarker as [Hm Hk]. apply is_marker_true in Hk.
    apply childrenOf_elem in Hm as [Hm _].
    destruct (wf_marker _ _ WF marker Hm Hk) as (edge & found & Hedge & ? & Hid & ?).
    rewrite Hedge. exists (target edge), found.
    repeat split; try done. rewrite <- Hid. by apply (wf_ids _ _ WF).
  - exists (id fallback), fallback. repeat split; try done. by apply (wf_ids _ _ WF).
Qed.

(** C3, as amended.  On a document where entry is well founded - the
    [parentNode] links form a forest, some root is not a marker, every
    marker has a first edge that names a node, no identifier is empty and
    a rank falls along every entry step - [initialSimulationState]
    returns a list that is not empty and in which every id names a node
    that is not a marker and has no child other than markers: a node of
    kind atomic or final, or a parallel node without regions. *)
Theorem initialSimulationState_leaves :
  exists leaves,
    initialSimulationState machine = Some leaves
    /\ leaves <> []
    /\ forall leaf, leaf ∈ leaves -> isLeaf machine leaf.
Proof.
  destruct rootTarget_exists as (rootTarget & found & Hroot & Htruthy & Hfound & Hid).
  unfold initialSimulationState. cbn zeta. rewrite Hroot, Htruthy.
  apply enterNode_leaves.
  - unfold enterFuel. rewrite difference_empty_L, size_dom. lia.
  - eauto.
  - intros other Hother. by apply elem_of_empty in Hother.
Qed.

End Entry.

(** ** Events on offer *)

Lemma padded_chain fuel :
  getAncestors (S fuel) (Some "a") (buildMaps Cases.paddedEvent) = Some ["a"].
Proof.
  rewrite getAncestors_step.
  replace (nodeById (buildMaps Cases.paddedEvent) !! "a" ≫= parentNode)
    with (@None string) by (vm_compute; reflexivity).
  by rewrite getAncestors_None.
Qed.

Section Available.
Context `{Platform}.

Lemma sortInsert_elem name sorted x :
  x ∈ sortInsert name sorted <-> x = name \/ x ∈ sorted.
Proof.
  induction sorted as [|other rest IH]; simpl.
  - rewrite list_elem_of_singleton. split; [auto|].
    intros [?|Hin]; [done|by apply elem_of_nil in Hin].
  - destruct (localeCompare name other <? 0)%Z.
    + by rewrite elem_of_cons.
    + rewrite !elem_of_cons, IH. tauto.
Qed.

(** Sorting keeps the names, whatever the collation. *)
Lemma sortByLocale_elem names x : x ∈ sortByLocale names <-> x ∈ names.
Proof.
  unfold sortByLocale.
  assert (forall sorted,
            x ∈ foldl (fun sorted name => sortInsert name sorted) sorted names
            <-> x ∈ sorted \/ x ∈ names) as Hgen.
  { induction names as [|name names IH]; intros sorted; simpl.
    - split; [auto|]. intros [?|Hin]; [done|by apply elem_of_nil in Hin].
    - rewrite IH, sortInsert_elem, elem_of_cons. tauto. }
  rewrite Hgen. split; [intros [Hin|?]; [by apply elem_of_nil in Hin|done]|auto].
Qed.

Lemma collectEdges_elem (transitions : list TransitionEdge) events x :
  x ∈ foldl (fun events edge =>
               let name := Js.trim (event (edge_data edge)) in
               if Js.truthy name then set_add events name else events)
            events transitions
  <-> x ∈ events
      \/ exists edge, edge ∈ transitions
                      /\ Js.trim (event (edge_data edge)) = x /\ Js.truthy x = true.
Proof.
  revert events. induction transitions as [|edge rest IH]; intros events; simpl.
  - split; [auto|]. intros [?|(? & Hin & _)]; [done|by apply elem_of_nil in Hin].
  - rewrite IH. destruct (Js.truthy (Js.trim (event (edge_data edge)))) eqn:Htruthy.
    + rewrite set_add_elem. split.
      * intros [[?| ->]|(e & ? & ? & ?)]; [by left| |].
        -- right. exists edge. split; [by left|done].
        -- right. exists e. split; [by right|done].
      * intros [?|(e & Hin & Hname & Ht)]; [by left; left|].
        apply elem_of_cons in Hin as [->|Hin]; [left; right; done|].
        right. by exists e.
    + split.
      * intros [?|(e & ? & ? & ?)]; [by left|]. right. exists e. split; [by right|done].
      * intros [?|(e & Hin & Hname & Ht)]; [by left|].
        apply elem_of_cons in Hin as [->|Hin]; [congruence|]. right. by exists e.
Qed.

Lemma collectEvents_elem maps chain events x :
  x ∈ collectEvents maps events chain
  <-> x ∈ events \/ exists sourceId, sourceId ∈ chain /\ offers maps sourceId x.
Proof.
  unfold collectEvents. revert events.
  induction chain as [|sourceId rest IH]; intros events; simpl.
  - split; [auto|]. intros [?|(? & Hin & _)]; [done|by apply elem_of_nil in Hin].
  - rewrite IH, collectEdges_elem. unfold offers. split.
    + intros [[?|Hedge]|(s & ? & ?)]; [by left| |].
      * right. exists sourceId. split; [by left|done].
      * right. exists s. split; [by right|done].
    + intros [?|(s & Hin & Hoffer)]; [by left; left|].
      apply elem_of_cons in Hin as [->|Hin]; [left; right; done|].
      right. by exists s.
Qed.

Lemma availableLoop_elem fuel maps leaves events result x :
  availableLoop fuel maps events leaves = Some result ->
  x ∈ result
  <-> x ∈ events
      \/ exists leaf chain sourceId,
           leaf ∈ leaves /\ getAncestors fuel (Some leaf) maps = Some chain
           /\ sourceId ∈ chain /\ offers maps sourceId x.
Proof.
  revert events. induction leaves as [|leaf rest IH]; intros events; simpl.
  - intros [= <-]. split; [auto|].
    intros [?|(? & ? & ? & Hin & _)]; [done|by apply elem_of_nil in Hin].
  - intros Hloop. apply bind_Some in Hloop as (chain & Hchain & Hloop).
    rewrite (IH _ Hloop), collectEvents_elem. split.
    + intros [[?|(s & ? & ?)]|(l & c & s & ? & ? & ? & ?)]; [by left| |].
      * right. exists leaf, chain, s. split; [by left|done].
      * right. exists l, c, s. split; [by right|done].
    + intros [?|(l & c & s & Hin & Hc & Hs & Ho)]; [by left; left|].
      apply elem_of_cons in Hin as [->|Hin].
      * left. right. exists s. split; [congruence|done].
      * right. by exists l, c, s.
Qed.

(** The names [getAvailableEvents] returns are the trimmed, non-empty
    event names of the edges that leave an ancestor of an active leaf;
    no guard is looked at. *)
Lemma getAvailableEvents_elem fuel machine activeLeafIds events name :
  getAvailableEvents fuel machine activeLeafIds = Some events ->
  name ∈ events
  <-> exists leaf chain sourceId,
        leaf ∈ activeLeafIds
        /\ getAncestors fuel (Some leaf) (buildMaps machine) = Some chain
        /\ sourceId ∈ chain /\ offers (buildMaps machine) sourceId name.
Proof.
  unfold getAvailableEvents. intros Hget.
  apply bind_Some in Hget as (collected & Hloop & [= <-]).
  rewrite sortByLocale_elem, (availableLoop_elem _ _ _ _ _ _ Hloop).
  split; [intros [Hin|?]; [by apply elem_of_nil in Hin|done]|auto].
Qed.

(** C10.  [getAvailableEvents] lists trimmed event names without looking
    at guards, while an edge fires only when its event, as written,
    equals the event type and its guard evaluates to true; so there are
    a document, a configuration and a name that [getAvailableEvents]
    returns for which [triggerSimulationEvent] gives back the
    configuration unchanged with no edge, whatever the fuel: an edge
    whose event is written with spaces around it. *)
Theorem available_event_may_not_fire :
  (forall fuel machine activeLeafIds events name,
      getAvailableEvents fuel machine activeLeafIds = Some events ->
      name ∈ events
      <-> exists leaf chain sourceId,
            leaf ∈ activeLeafIds
            /\ getAncestors fuel (Some leaf) (buildMaps machine) = Some chain
            /\ sourceId ∈ chain /\ offers (buildMaps machine) sourceId name)
  /\ (forall eventType edge,
        edge_matches eventType edge = Gives true <->
        event (edge_data edge) = eventType
        /\ evaluateGuard (guard (edge_data edge)) eventType = Gives true)
  /\ exists machine activeLeafIds name,
       forall fuel,
         getAvailableEvents (S fuel) machine activeLeafIds = Some [name]
         /\ triggerSimulationEvent (S fuel) machine activeLeafIds name
            = Some {| nextActiveLeafIds := activeLeafIds; takenEdgeId := None |}.
Proof.
  split; [apply getAvailableEvents_elem|]. split.
  - intros eventType edge. unfold edge_matches.
    case_bool_decide; [tauto|]. split; [done|]. by intros [? _].
  - exists Cases.paddedEvent, ["a"], "GO". intros fuel. split.
    + unfold getAvailableEvents.
      change (availableLoop (S fuel) ?maps [] ["a"])
        with (ancestors ← getAncestors (S fuel) (Some "a") maps;
              availableLoop (S fuel) maps (collectEvents maps [] ancestors) []).
      rewrite padded_chain. vm_compute. reflexivity.
    + unfold triggerSimulationEvent. rewrite triggerLoop_cons.
      unfold findTransitionForEvent. rewrite padded_chain. vm_compute. reflexivity.
Qed.

End Available.

(** ** The bundled checkout machine and the documents of [Cases] *)

Lemma checkout_wf : entryWellFormed Examples.checkoutMachine Cases.checkoutRank.
Proof.
  split.
  - intros node p Hin Hp. each_member Hin; try done; injection Hp as <-; vm_compute; lia.
  - intros node Hin. each_member Hin; done.
  - intros node Hin Hk. each_member Hin; try done.
    + eexists _, _. split; [vm_compute; reflexivity|].
      split; [apply elem_of_cons; right; by left|]. split; [done|]. vm_compute. lia.
    + eexists _, _. split; [vm_compute; reflexivity|].
      split; [do 3 (apply elem_of_cons; right); by left|]. split; [done|]. vm_compute. lia.
  - eexists. split; [apply elem_of_cons; right; by left|]. done.
Qed.

Lemma lonely_claimed : claimedWellFormed Cases.lonelyParallel (fun _ => 0).
Proof.
  split.
  - intros node p Hin. each_member Hin. done.
  - eexists. split; [by left|]. done.
  - intros node Hin. each_member Hin. done.
  - intros node Hin. each_member Hin. done.
Qed.

(** The initial configuration of the checkout machine consists of leaves. *)
Lemma initialSimulationState_leaves_witness :
  exists leaves,
    initialSimulationState Examples.checkoutMachine = Some leaves
    /\ leaves <> []
    /\ forall leaf, leaf ∈ leaves -> isLeaf Examples.checkoutMachine leaf.
Proof.
  apply (initialSimulationState_leaves Examples.checkoutMachine Cases.checkoutRank).
  apply checkout_wf.
Defined.

(** C3 as stated fails on a parallel root that has no region: the
    document meets what the claim asks, a forest with a root that is not
    a marker, no childless compound node and no marker, and its initial
    configuration is the parallel node itself, which is neither atomic
    nor final. *)
Lemma lonely_parallel_is_initial :
  claimedWellFormed Cases.lonelyParallel (fun _ => 0)
  /\ initialSimulationState Cases.lonelyParallel = Some ["p"]
  /\ kind <$> (data <$> nodeById (buildMaps Cases.lonelyParallel) !! "p") = Some parallel
  /\ ~ (exists node, node ∈ nodes Cases.lonelyParallel /\ id node = "p"
                     /\ (kind (data node) = atomic \/ kind (data node) = final)).
Proof.
  split; [apply lonely_claimed|]. split; [vm_compute; reflexivity|].
  split; [vm_compute; reflexivity|].
  intros (node & Hin & _ & Hkind). each_member Hin. by destruct Hkind.
Qed.

Lemma selfParent_chain fuel :
  getAncestors fuel (Some "a") (buildMaps Cases.selfParent) = None.
Proof.
  induction fuel as [|fuel IH]; [done|].
  rewrite getAncestors_step.
  replace (nodeById (buildMaps Cases.selfParent) !! "a" ≫= parentNode) with (Some "a")
    by (vm_compute; reflexivity).
  by rewrite IH.
Qed.


Section Concrete.
Context `{Platform}.

Lemma checkout_begin fuel :
  triggerSimulationEvent (S fuel) Examples.checkoutMachine ["cart"] "BEGIN_CHECKOUT"
  = Some {| nextActiveLeafIds := ["review_shipping"; "review_payment"];
            takenEdgeId := Some "e_cart_review" |}.
Proof.
  unfold triggerSimulationEvent. rewrite triggerLoop_cons.
  unfold findTransitionForEvent. rewrite getAncestors_step.
  replace (nodeById (buildMaps Examples.checkoutMachine) !! "cart" ≫= parentNode)
    with (@None string) by (vm_compute; reflexivity).
  rewrite getAncestors_None.
  vm_compute. reflexivity.
Qed.

(** C5, as amended.  The checkout machine starts in [cart] alone; the
    two regions of [review] become active together when [review] is
    entered, which the event BEGIN_CHECKOUT does from [cart]: the
    configuration is then [review_shipping] and [review_payment]. *)
Theorem checkout_enters_both_regions :
  initialSimulationState Examples.checkoutMachine = Some ["cart"]
  /\ enterNode (enterFuel (buildMaps Examples.checkoutMachine)) "review"
               (buildMaps Examples.checkoutMachine) ∅
     = Some ["review_shipping"; "review_payment"]
  /\ forall fuel,
       triggerSimulationEvent (S fuel) Examples.checkoutMachine ["cart"] "BEGIN_CHECKOUT"
       = Some {| nextActiveLeafIds := ["review_shipping"; "review_payment"];
                 takenEdgeId := Some "e_cart_review" |}.
Proof.
  split; [vm_compute; reflexivity|]. split; [vm_compute; reflexivity|].
  apply checkout_begin.
Qed.

Lemma selfParent_never : neverReturns Cases.selfParent ["a"] "GO".
Proof.
  intros fuel. unfold triggerSimulationEvent. rewrite triggerLoop_cons.
  unfold findTransitionForEvent. by rewrite selfParent_chain.
Qed.


End Concrete.

Lemma checkout_guards eventType :
  guardsReturn (H:=Reference.platform) Examples.checkoutMachine eventType.
Proof.
  intros edge Hin _ Hguard Hcall.
  each_member Hin; try (by vm_compute in Hguard); by vm_compute in Hcall.
Qed.

(** C5 as stated fails: the initial configuration of the checkout
    machine holds neither leaf of [review]. *)
Lemma checkout_starts_in_cart :
  ~ (exists leaves,
       initialSimulationState Examples.checkoutMachine = Some leaves
       /\ "review_shipping" ∈ leaves /\ "review_payment" ∈ leaves).
Proof.
  intros (leaves & Hinit & Hshipping & _).
  vm_compute in Hinit. injection Hinit as <-.
  apply list_elem_of_singleton in Hshipping. discriminate.
Qed.

(** C9 as stated fails for [triggerSimulationEvent]: on a node that is
    its own parent the ancestor walk, which keeps no visited set, never
    ends, so the call does not return whatever the fuel. *)
Lemma self_parent_never_returns :
  neverReturns (H:=Reference.platform) Cases.selfParent ["a"] "GO".
Proof. apply selfParent_never. Qed.



(** Entering any node of the checkout machine, computing its initial
    configuration and firing an event in it all return. *)
Lemma entry_terminates_witness :
  is_Some (enterNode (S (size (dom (nodeById (buildMaps Examples.checkoutMachine)) ∖ ∅)))
                     "review" (buildMaps Examples.checkoutMachine) ∅)
  /\ is_Some (initialSimulationState Examples.checkoutMachine)
  /\ is_Some (triggerSimulationEvent (H:=Reference.platform) 5
                Examples.checkoutMachine ["review_payment"] "PAYMENT_OK").
Proof.
  destruct (entry_terminates (H:=Reference.platform) Examples.checkoutMachine)
    as (Henter & Hinit & Htrigger).
  split; [apply Henter|]. split; [apply Hinit|].
  apply (Htrigger Cases.checkoutRank);
    [apply checkout_wf|apply checkout_guards|vm_compute; lia].
Defined.

(** Without the condition on guards the call need not return: on a
    forest whose one edge carries a guard that loops, firing its event
    gives no result, whatever the fuel. *)
Lemma looping_guard_never_resolves :
  forest Samples.loopingGuard (fun _ => 0)
  /\ neverReturns (H:=Reference.platform) Samples.loopingGuard ["a"] "GO".
Proof.
  split.
  - intros node p Hin Hparent. each_member Hin; done.
  - intros [|fuel]; [done|].
    unfold triggerSimulationEvent. rewrite triggerLoop_cons.
    unfold findTransitionForEvent. rewrite getAncestors_step.
    replace (nodeById (buildMaps Samples.loopingGuard) !! "a" ≫= parentNode)
      with (@None string) by (vm_compute; reflexivity).
    rewrite getAncestors_None. vm_compute. reflexivity.
Qed.

(** ** Export, then import *)

Section ObjFacts.
Context {V : Type}.
Implicit Types (props : list (string * V)) (k : string).

Lemma own_app k props more :
  Obj.own k (props ++ more)
  = match Obj.own k props with Some v => Some v | None => Obj.own k more end.
Proof.
  induction props as [|[k' v'] props IH]; simpl; [done|].
  by destruct (String.eqb k k').
Qed.

Lemma own_replace k k' v props :
  Obj.own k (Obj.replace k' v props)
  = if String.eqb k k' then (fun _ => v) <$> Obj.own k' props else Obj.own k props.
Proof.
  induction props as [|[k'' v''] props IH]; simpl.
  - by destruct (String.eqb k k').
  - destruct (String.eqb k' k'') eqn:Hk'; simpl.
    + apply String.eqb_eq in Hk' as <-. by destruct (String.eqb k k').
    + rewrite IH. destruct (String.eqb k k') eqn:Hk; [|done].
      apply String.eqb_eq in Hk as ->. by rewrite Hk'.
Qed.

Lemma own_add_index k i k' v props :
  Obj.own k' props = None ->
  Obj.own k (Obj.add_index i k' v props)
  = if String.eqb k k' then Some v else Obj.own k props.
Proof.
  induction props as [|[k'' v''] props IH]; simpl; intros Hfree.
  - by destruct (String.eqb k k').
  - destruct (String.eqb k' k'') eqn:Hk'; [done|].
    assert (forall rest, Obj.own k ((k', v) :: rest)
                         = if String.eqb k k' then Some v else Obj.own k rest) as Hhead
      by done.
    destruct (Obj.array_index k'') as [j|]; [destruct (i <? j)%N|]; try apply Hhead.
    simpl. rewrite (IH Hfree). destruct (String.eqb k k') eqn:Hk; [|done].
    apply String.eqb_eq in Hk as ->. by rewrite Hk'.
Qed.

(** Reading a key after an assignment. *)
Lemma own_define k k' v props :
  Obj.own k (Obj.define k' v props)
  = if String.eqb k k' then Some v else Obj.own k props.
Proof.
  unfold Obj.define. destruct (Obj.own k' props) as [old|] eqn:Hold.
  - rewrite own_replace, Hold. done.
  - destruct (Obj.array_index k') as [i|]; [by apply own_add_index|].
    rewrite own_app. simpl. destruct (String.eqb k k') eqn:Hk.
    + apply String.eqb_eq in Hk as ->. by rewrite Hold.
    + by destruct (Obj.own k props).
Qed.

Lemma own_remove k k' props :
  Obj.own k (Obj.remove k' props)
  = if String.eqb k k' then None else Obj.own k props.
Proof.
  unfold Obj.remove. induction props as [|[k'' v''] props IH]; simpl.
  - by destruct (String.eqb k k').
  - destruct (String.eqb k' k'') eqn:Hk'; simpl.
    + rewrite IH. apply String.eqb_eq in Hk' as <-. by destruct (String.eqb k k').
    + rewrite IH. destruct (String.eqb k k') eqn:Hk; [|done].
      apply String.eqb_eq in Hk as ->. by rewrite Hk'.
Qed.

End ObjFacts.

Lemma own_override k k' v props :
  Obj.own k (override k' v props) = if String.eqb k k' then v else Obj.own k props.
Proof. destruct v; simpl; [apply own_define|apply own_remove]. Qed.

Lemma node_value_fields node :
  Dyn.field (node_value node) "data" = Some (dataOfNode node)
  /\ Dyn.field (node_value node) "id" = Some (JStr (id node))
  /\ Dyn.field (node_value node) "parentNode" = JStr <$> parentNode node.
Proof. destruct node as [? ? [?|] [|] [?|] ?]; repeat split. Qed.

(** Normalising a node of a document keeps its id and its kind. *)
Lemma normalizeNode_value node :
  exists normal,
    normalizeNode (node_value node) = Return normal
    /\ nodeSummary normal = summaryOfNode node.
Proof.
  destruct (node_value_fields node) as (Hdata & Hid & Hparent).
  unfold normalizeNode. simpl Dyn.get at 1.
  change (Dyn.get (Some (node_value node)) "data")
    with (Return (Dyn.field (node_value node) "data")).
  rewrite Hdata. eexists. split; [reflexivity|].
  unfold nodeSummary, Dyn.field. rewrite !own_override. simpl String.eqb.
  cbn iota. change (Obj.own "id" (Dyn.entries (node_value node)))
    with (Dyn.field (node_value node) "id"). rewrite Hid. reflexivity.
Qed.

Lemma edge_value_fields edge :
  Dyn.field (edge_value edge) "data" = Some (dataOfEdge edge)
  /\ Dyn.field (edge_value edge) "source" = Some (JStr (source edge))
  /\ Dyn.field (edge_value edge) "target" = Some (JStr (target edge))
  /\ Dyn.field (edge_value edge) "markerEnd" = markerEnd edge.
Proof. destruct edge as [? ? ? [?|] ?]; repeat split. Qed.

(** Normalising an edge of a document keeps its ends and its data. *)
Lemma normalizeEdge_value edge :
  exists normal,
    normalizeEdge (edge_value edge) = Return normal
    /\ edgeSummary normal = summaryOfEdge edge.
Proof.
  destruct (edge_value_fields edge) as (Hdata & Hsource & Htarget & Hmarker).
  unfold normalizeEdge.
  change (Dyn.get (Some (edge_value edge)) "markerEnd")
    with (Return (Dyn.field (edge_value edge) "markerEnd")).
  change (Dyn.get (Some (edge_value edge)) "data")
    with (Return (Dyn.field (edge_value edge) "data")).
  rewrite Hdata. eexists. split; [reflexivity|].
  unfold edgeSummary, Dyn.field. rewrite !own_override. simpl String.eqb. cbn iota.
  change (Obj.own ?k (Dyn.entries (edge_value edge))) with (Dyn.field (edge_value edge) k).
  rewrite Hsource, Htarget. reflexivity.
Qed.

Lemma mapM_normalize {A S} (f : jsval -> Run jsval) (value : A -> jsval)
    (observe : jsval -> S) (expected : A -> S) (l : list A) :
  (forall x, exists normal, f (value x) = Return normal /\ observe normal = expected x) ->
  exists normals,
    mapM f (value <$> l) = Return normals /\ observe <$> normals = expected <$> l.
Proof.
  intros Hf. induction l as [|x l (normals & Hnormals & Hobserve)].
  - by exists [].
  - destruct (Hf x) as (normal & Hnormal & Hexpected).
    exists (normal :: normals).
    change (mapM f (value <$> x :: l))
      with (y ← f (value x); k ← mapM f (value <$> l); mret (y :: k)).
    rewrite Hnormal, Hnormals. split; [done|].
    rewrite !fmap_cons. by rewrite Hexpected, Hobserve.
Qed.

(** Normalising a whole document keeps node ids and kinds and the edges'
    ends and data; the [machineId] is kept unless it is empty. *)
Lemma normalize_doc_value machine :
  exists doc,
    normalizeImportedMachine (doc_value machine) = Return doc
    /\ Dyn.field doc "machineId" = Some (JStr (importedId machine))
    /\ nodeSummary <$> elementsOf (Dyn.field doc "nodes") = summaryOfNode <$> nodes machine
    /\ edgeSummary <$> elementsOf (Dyn.field doc "edges") = summaryOfEdge <$> edges machine.
Proof.
  destruct (mapM_normalize normalizeNode node_value nodeSummary summaryOfNode (nodes machine)
              normalizeNode_value) as (nodeValues & Hnodes & Hnodesum).
  destruct (mapM_normalize normalizeEdge edge_value edgeSummary summaryOfEdge (edges machine)
              normalizeEdge_value) as (edgeValues & Hedges & Hedgesum).
  unfold normalizeImportedMachine.
  change (Dyn.field (doc_value machine) "nodes")
    with (Some (JArr (node_value <$> nodes machine))).
  change (Dyn.field (doc_value machine) "edges")
    with (Some (JArr (edge_value <$> edges machine))).
  change (Dyn.field (doc_value machine) "machineId")
    with (Some (JStr (machineId machine))).
  unfold mapArray. rewrite Hnodes, Hedges. simpl. eexists. split; [reflexivity|].
  unfold importedId. destruct (Js.truthy (machineId machine)); simpl; done.
Qed.

Lemma groupTransitions_returns transitions grouped :
  (forall edge, edge ∈ transitions ->
     Js.trim (event (edge_data edge)) ∉ Obj.prototype_members) ->
  exists result, groupTransitions transitions grouped = Return result.
Proof.
  revert grouped.
  induction transitions as [|edge rest IH]; intros grouped Hplain; simpl; [eauto|].
  assert (forall g, exists result, groupTransitions rest g = Return result) as Hrest
    by (intros; apply IH; intros; apply Hplain; by right).
  destruct (Js.truthy _); simpl; [|apply Hrest].
  unfold Obj.get. destruct (Obj.own _ grouped); [apply Hrest|].
  rewrite bool_decide_eq_false_2 by (apply Hplain; by left). apply Hrest.
Qed.

Section ExportReturns.
Variable machine : MachineDocument.
Variable rank : string -> nat.
Hypothesis Hforest : forest machine rank.
Hypothesis Hplain : plainEvents machine.

Lemma exported_children parentId child :
  child ∈ default [] (buildChildrenMap (nodes machine) !! parentId) ->
  child ∈ nodes machine /\ parentNode child = parentId.
Proof.
  unfold buildChildrenMap. rewrite foldl_map_push, lookup_empty. simpl.
  rewrite elem_of_filter_bool, bool_decide_eq_true. done.
Qed.

Lemma exported_edges sourceId edge :
  edge ∈ default [] (buildEdgeMap (edges machine) !! sourceId) -> edge ∈ edges machine.
Proof.
  unfold buildEdgeMap. rewrite foldl_map_push, lookup_empty. simpl.
  rewrite elem_of_filter_bool. tauto.
Qed.

Lemma stateConfigOf_returns child nested :
  exists config,
    stateConfigOf (buildChildrenMap (nodes machine)) (buildEdgeMap (edges machine))
                  child nested = Return config.
Proof.
  unfold stateConfigOf.
  destruct (groupTransitions_returns
              (default [] (buildEdgeMap (edges machine) !! id child)) [])
    as [grouped ->]; [|simpl; eauto].
  intros edge Hedge. apply Hplain. by eapply exported_edges.
Qed.

Lemma statesLoop_returns build idToKey todo states :
  (forall child, child ∈ todo -> exists nested, build (Some (id child)) = Return nested) ->
  exists built,
    statesLoop (buildChildrenMap (nodes machine)) (buildEdgeMap (edges machine))
               build idToKey todo states = Return built.
Proof.
  revert states. induction todo as [|child rest IH]; intros states Hbuild; simpl; [eauto|].
  destruct (Hbuild child) as [nested ->]; [by left|]. simpl.
  destruct (stateConfigOf_returns child nested) as [config ->]. simpl.
  apply IH. intros. apply Hbuild. by right.
Qed.

(** In a forest the descent of the export ends: fuel above the rank of
    the parent is enough. *)
Lemma buildStatesForParent_returns fuel parentId :
  nestingFuel machine rank parentId <= fuel ->
  exists built,
    buildStatesForParent (buildChildrenMap (nodes machine)) (buildEdgeMap (edges machine))
                         fuel parentId = Return built.
Proof.
  revert parentId. induction fuel as [|fuel IH]; intros parentId Hfuel;
    [destruct parentId; simpl in Hfuel; lia|].
  simpl.
  destruct (statesLoop_returns
              (buildStatesForParent (buildChildrenMap (nodes machine))
                                    (buildEdgeMap (edges machine)) fuel)
              (assignKeys (List.filter (fun node => negb (is_marker node))
                             (default [] (buildChildrenMap (nodes machine) !! parentId))))
              (List.filter (fun node => negb (is_marker node))
                           (default [] (buildChildrenMap (nodes machine) !! parentId))) [])
    as [built ->]; [|simpl; eauto].
  intros child Hchild. apply elem_of_filter_bool in Hchild as [Hchild _].
  apply exported_children in Hchild as [Hin Hparent]. apply IH.
  destruct parentId as [p|]; simpl in *.
  - pose proof (Hforest child p Hin Hparent). lia.
  - pose proof (rankBound_ge machine rank child Hin). lia.
Qed.

Lemma buildRootState_returns `{Platform} fuel :
  nestingFuel machine rank None <= fuel ->
  roundtrips (doc_value machine) ->
  exists root, buildRootState fuel machine = Return root.
Proof.
  intros Hfuel Hdoc. unfold buildRootState.
  destruct (buildStatesForParent_returns fuel None) as [built Hbuilt]; [done|].
  rewrite Hbuilt. simpl.
  unfold toSerializableMachine. rewrite Hdoc. simpl. eauto.
Qed.

End ExportReturns.

Section RoundTrip.
Context `{Platform}.

Lemma import_of_export machine fuel root counter :
  roundtrips (doc_value machine) ->
  buildRootState fuel machine = Return root ->
  roundtrips root ->
  exportMachineAsXState fuel machine = Return (JSON_stringify root)
  /\ Dyn.get_opt (Dyn.field root "meta") "fluxState" = Some (doc_value machine)
  /\ importMachineFromXState (JSON_stringify root) counter
     = (normalizeImportedMachine (doc_value machine), counter).
Proof.
  intros Hdoc Hroot Hparse. split; [unfold exportMachineAsXState; by rewrite Hroot|].
  unfold buildRootState in Hroot.
  destruct (buildStatesForParent _ _ fuel None) as [built| |]; [|done..].
  simpl in Hroot. unfold toSerializableMachine in Hroot. rewrite Hdoc in Hroot.
  simpl in Hroot. injection Hroot as <-.
  split; [done|].
  unfold importMachineFromXState. rewrite Hparse. reflexivity.
Qed.

(** C1, as amended.  Where the parent links form a forest, no trimmed
    event name is a member of [Object.prototype] and the platform's JSON
    printer and parser give the document back, [exportMachineAsXState]
    returns the printed root state.  Whenever the root state is built and
    the platform gives it back too, the root carries the whole document
    under [meta.fluxState], importing the exported text takes that path
    with no fresh id drawn, and the imported document has the node ids
    and kinds of the original in order and its edges with the same
    source, target, event, guard and actions; its [machineId] is the
    original one unless that is the empty string, which becomes
    [importedMachine]. *)
Theorem export_then_import machine :
  (forall rank fuel,
      forest machine rank -> plainEvents machine ->
      roundtrips (doc_value machine) ->
      nestingFuel machine rank None <= fuel ->
      exists root,
        buildRootState fuel machine = Return root
        /\ exportMachineAsXState fuel machine = Return (JSON_stringify root))
  /\ (forall fuel root counter,
        buildRootState fuel machine = Return root ->
        roundtrips (doc_value machine) ->
        roundtrips root ->
        exportMachineAsXState fuel machine = Return (JSON_stringify root)
        /\ Dyn.get_opt (Dyn.field root "meta") "fluxState" = Some (doc_value machine)
        /\ exists doc,
             importMachineFromXState (JSON_stringify root) counter = (Return doc, counter)
             /\ normalizeImportedMachine (doc_value machine) = Return doc
             /\ Dyn.field doc "machineId" = Some (JStr (importedId machine))
             /\ nodeSummary <$> elementsOf (Dyn.field doc "nodes")
                = summaryOfNode <$> nodes machine
             /\ edgeSummary <$> elementsOf (Dyn.field doc "edges")
                = summaryOfEdge <$> edges machine).
Proof.
  split.
  - intros rank fuel Hforest Hplain Hdoc Hfuel.
    destruct (buildRootState_returns machine rank Hforest Hplain fuel Hfuel Hdoc)
      as [root Hroot].
    exists root. split; [done|]. unfold exportMachineAsXState. by rewrite Hroot.
  - intros fuel root counter Hroot Hdoc Hparse.
    destruct (import_of_export machine fuel root counter Hdoc Hroot Hparse)
      as (Hexport & Hmeta & Himport).
    split; [done|]. split; [done|].
    destruct (normalize_doc_value machine) as (doc & Hnormal & Hid & Hnodes & Hedges).
    exists doc. rewrite Himport, Hnormal. done.
Qed.

End RoundTrip.

Lemma checkout_plainEvents : plainEvents Examples.checkoutMachine.
Proof.
  intros edge Hin. each_member Hin; apply (bool_decide_unpack _); vm_compute; exact I.
Qed.

(** The checkout machine is exported and imported back with its
    [machineId], nodes and edges. *)
Lemma export_then_import_witness :
  exists root doc,
    exportMachineAsXState (H:=Reference.platform) 5 Examples.checkoutMachine
    = Return (JSON_stringify (Platform:=Reference.platform) root)
    /\ importMachineFromXState (H:=Reference.platform)
         (JSON_stringify (Platform:=Reference.platform) root) 0 = (Return doc, 0%N)
    /\ Dyn.field doc "machineId" = Some (JStr "checkoutFlow")
    /\ nodeSummary <$> elementsOf (Dyn.field doc "nodes")
       = summaryOfNode <$> nodes Examples.checkoutMachine
    /\ edgeSummary <$> elementsOf (Dyn.field doc "edges")
       = summaryOfEdge <$> edges Examples.checkoutMachine.
Proof.
  destruct (export_then_import (H:=Reference.platform) Examples.checkoutMachine)
    as [Hexport Himport].
  destruct (Hexport Cases.checkoutRank 5) as (root & Hroot & _);
    [apply checkout_wf|apply checkout_plainEvents|vm_compute; reflexivity
    |vm_compute; lia|].
  assert (roundtrips (H:=Reference.platform) root) as Hparse.
  { vm_compute in Hroot. injection Hroot as <-. vm_compute. reflexivity. }
  destruct (Himport 5 root 0%N Hroot) as (Htext & _ & doc & Hdoc & _ & Hid & Hnodes & Hedges);
    [vm_compute; reflexivity|exact Hparse|].
  exists root, doc. split; [exact Htext|]. split; [exact Hdoc|].
  split; [exact Hid|]. split; [exact Hnodes|exact Hedges].
Defined.

(** C1 as stated fails on a document whose [machineId] is the empty
    string: the export returns, the import of its text returns from the
    embedded document, and the imported [machineId] is [importedMachine]. *)
Lemma nameless_roundtrip_renames :
  machineId Cases.nameless = ""
  /\ exists text doc,
       exportMachineAsXState (H:=Reference.platform) 3 Cases.nameless = Return text
       /\ importMachineFromXState (H:=Reference.platform) text 0 = (Return doc, 0%N)
       /\ Dyn.field doc "machineId" = Some (JStr "importedMachine").
Proof.
  split; [reflexivity|]. eexists _, _.
  split; [vm_compute; reflexivity|]. split; vm_compute; reflexivity.
Qed.

(** The condition on event names is about the name as [trim] leaves it:
    [toString] between two no-break spaces is trimmed to [toString], and
    the export raises on it. *)
Lemma padded_member_is_refused :
  ~ plainEvents Samples.paddedMember
  /\ exportMachineAsXState (H:=Reference.platform) 3 Samples.paddedMember
     = Throw TypeError.
Proof.
  split; [|vm_compute; reflexivity].
  intros Hplain. apply (Hplain (Examples.edge "e_a_b" "a" "b"
                                  (Samples.noBreakSpace +:+ "toString" +:+ Samples.noBreakSpace)
                                  "" [])); [by left|].
  vm_compute. do 6 right. by left.
Qed.

(** ** Import never runs out of fuel and returns complete documents *)

Lemma imp_bind_finishes {A B} (m : Imp A) (f : A -> Imp B) :
  imp_finishes m -> (forall a, imp_finishes (f a)) -> imp_finishes (imp_bind m f).
Proof.
  intros Hm Hf st. unfold imp_bind. specialize (Hm st).
  destruct (m st) as [[a|e|] st']; simpl in *; [apply Hf|done|done].
Qed.

Lemma imp_ret_finishes {A} (a : A) : imp_finishes (imp_ret a).
Proof. by intros st. Qed.

Lemma imp_lift_finishes {A} (r : Run A) : finishes r -> imp_finishes (imp_lift r).
Proof. by intros Hr st. Qed.

Lemma imp_for_finishes {A} (l : list A) (body : A -> Imp unit) :
  (forall x, x ∈ l -> imp_finishes (body x)) -> imp_finishes (imp_for l body).
Proof.
  induction l as [|x l IH]; intros Hbody; simpl; [apply imp_ret_finishes|].
  apply imp_bind_finishes; [apply Hbody; by left|].
  intros _. apply IH. intros. apply Hbody. by right.
Qed.

Lemma get_finishes v k : finishes (Dyn.get v k).
Proof. by destruct v as [[]|]. Qed.

Lemma bind_finishes {A B} (m : Run A) (f : A -> Run B) :
  finishes m -> (forall a, finishes (f a)) -> finishes (m ≫= f).
Proof. destruct m; simpl; intros Hm Hf; [apply Hf|done|done]. Qed.

Lemma mapM_finishes {A B} (f : A -> Run B) (l : list A) :
  (forall x, finishes (f x)) -> finishes (mapM f l).
Proof.
  intros Hf. induction l as [|x l IH]; [done|].
  change (mapM f (x :: l)) with (y ← f x; k ← mapM f l; mret (y :: k)).
  apply bind_finishes; [done|]. intros y. apply bind_finishes; [done|]. done.
Qed.

Lemma normalizeNode_finishes node : finishes (normalizeNode node).
Proof.
  unfold normalizeNode. repeat (apply bind_finishes; [apply get_finishes|intros ?]). done.
Qed.

Lemma normalizeEdge_finishes edge : finishes (normalizeEdge edge).
Proof.
  unfold normalizeEdge. repeat (apply bind_finishes; [apply get_finishes|intros ?]). done.
Qed.

Lemma mapArray_finishes f v : (forall x, finishes (f x)) -> finishes (mapArray f v).
Proof.
  intros Hf. destruct v as [[]|]; try done. simpl.
  pose proof (mapM_finishes f items Hf). by destruct (mapM f items).
Qed.

Lemma normalizeImportedMachine_finishes machine :
  finishes (normalizeImportedMachine machine).
Proof.
  unfold normalizeImportedMachine.
  apply bind_finishes; [apply mapArray_finishes, normalizeNode_finishes|intros ?].
  apply bind_finishes; [apply mapArray_finishes, normalizeEdge_finishes|intros ?]. done.
Qed.

Lemma mapArray_Return f v result :
  mapArray f v = Return result -> exists items, result = JArr items.
Proof.
  destruct v as [[]|]; try done. simpl. destruct (mapM f items); try done.
  intros [= <-]. eauto.
Qed.

Lemma bind_Return {A B} (m : Run A) (f : A -> Run B) b :
  m ≫= f = Return b -> exists a, m = Return a /\ f a = Return b.
Proof. destruct m; try done. simpl. eauto. Qed.

Lemma normalizeImportedMachine_complete machine doc :
  normalizeImportedMachine machine = Return doc -> completeDocument doc.
Proof.
  unfold normalizeImportedMachine. intros Hdoc.
  apply bind_Return in Hdoc as (nodeValues & Hnodes & Hdoc).
  apply bind_Return in Hdoc as (edgeValues & Hedges & Hdoc).
  apply mapArray_Return in Hnodes as [ns ->]. apply mapArray_Return in Hedges as [es ->].
  injection Hdoc as <-.
  assert (exists mid, (if Dyn.truthy (Dyn.field machine "machineId")
                       then Dyn.field machine "machineId"
                       else Some (JStr "importedMachine")) = Some mid
                      /\ Dyn.truthy (Some mid) = true) as (mid & -> & Hmid).
  { destruct (Dyn.truthy (Dyn.field machine "machineId")) eqn:Ht; [|by eexists].
    destruct (Dyn.field machine "machineId") as [mid|]; [|done]. by exists mid. }
  assert (exists vp, Dyn.coalesce (Dyn.field machine "viewport") (Some (viewport_value 0 0 1))
                     = Some vp) as [vp ->].
  { unfold Dyn.coalesce. destruct (Dyn.field machine "viewport") as [[]|]; simpl; eauto. }
  by exists mid, ns, es, vp.
Qed.

Lemma imp_bind_Return {A B} (m : Imp A) (f : A -> Imp B) st b st' :
  imp_bind m f st = (Return b, st') ->
  exists a mid, m st = (Return a, mid) /\ f a mid = (Return b, st').
Proof. unfold imp_bind. destruct (m st) as [[a|e|] mid]; try done. eauto. Qed.

(** *** Depth of what the walks descend into *)

Lemma depth_member props k child :
  Obj.own k props = Some child ->
  Dyn.depth child <= foldr (fun p d => Nat.max (Dyn.depth (snd p)) d) 0 props.
Proof.
  induction props as [|[k' v'] props IH]; simpl; [done|].
  destruct (String.eqb k k'); [intros [= ->]; lia|]. intros Hown. specialize (IH Hown). lia.
Qed.

Lemma depth_field config k child :
  Dyn.field config k = Some child -> Dyn.depth child < Dyn.depth config.
Proof.
  destruct config; simpl; try done. intros Hown. apply depth_member in Hown. lia.
Qed.

Lemma depth_indexed key config items :
  (key, config) ∈ Dyn.indexed items ->
  Dyn.depth config <= foldr (fun item d => Nat.max (Dyn.depth item) d) 0 items.
Proof.
  unfold Dyn.indexed. intros Hin. apply elem_of_lookup_imap in Hin as (i & x & [= -> ->] & Hx).
  revert i Hx. induction items as [|y items IH]; intros i Hx; [done|].
  destruct i as [|i]; simpl in *; [injection Hx as ->; lia|].
  specialize (IH i Hx). lia.
Qed.

Lemma depth_props key config (props : list (string * jsval)) :
  (key, config) ∈ props ->
  Dyn.depth config <= foldr (fun p d => Nat.max (Dyn.depth (snd p)) d) 0 props.
Proof.
  induction props as [|p props IH]; intros Hin; [by apply elem_of_nil in Hin|].
  apply elem_of_cons in Hin as [<-|Hin]; simpl; [lia|]. specialize (IH Hin). lia.
Qed.

Lemma depth_chars key config s k :
  (key, config) ∈ Dyn.indexed (Dyn.chars s) -> Dyn.field config k = None.
Proof.
  unfold Dyn.indexed, Dyn.chars. intros Hin.
  apply elem_of_lookup_imap in Hin as (i & x & [= -> ->] & Hx).
  apply list_lookup_fmap_Some in Hx as (c & -> & _). done.
Qed.

(** A value two levels below [statesValue] is strictly shallower. *)
Lemma depth_entry statesValue key config k child :
  (key, config) ∈ Dyn.entries statesValue ->
  Dyn.field config k = Some child ->
  S (Dyn.depth child) < Dyn.depth statesValue.
Proof.
  intros Hentry Hfield. pose proof (depth_field _ _ _ Hfield).
  destruct statesValue; simpl in Hentry; try (by apply elem_of_nil in Hentry).
  - by rewrite (depth_chars _ _ _ k Hentry) in Hfield.
  - apply depth_indexed in Hentry. simpl. lia.
  - apply depth_props in Hentry. simpl. lia.
Qed.

Lemma createNode_finishes key config parentId path index :
  imp_finishes (createNode key config parentId path index).
Proof.
  unfold createNode. apply imp_bind_finishes; [apply imp_lift_finishes, get_finishes|].
  intros ?. apply imp_bind_finishes; by intros ?.
Qed.

Lemma walkStates_finishes fuel states parentId parentPath :
  fuelCovers fuel states -> imp_finishes (walkStates fuel states parentId parentPath).
Proof.
  revert states parentId parentPath.
  induction fuel as [|fuel IH]; intros states parentId parentPath Hfuel;
    destruct states as [statesValue|]; try apply imp_ret_finishes; simpl in Hfuel; [lia|].
  simpl. destruct (negb _); [apply imp_ret_finishes|].
  apply imp_for_finishes. intros [index [key config]] Hin.
  apply imp_bind_finishes; [apply createNode_finishes|]. intros _. apply IH.
  unfold numbered in Hin. apply elem_of_lookup_imap in Hin as (i & entry & [= _ <-] & Hentry).
  apply list_elem_of_lookup_2 in Hentry.
  destruct (Dyn.field config "states") as [child|] eqn:Hchild; [|done].
  pose proof (depth_entry _ _ _ _ _ Hentry Hchild). simpl. lia.
Qed.

Section ReconstructFacts.
Context `{Platform}.

Lemma freshId_finishes prefix : imp_finishes (freshId prefix).
Proof. intros st. unfold freshId. by destruct (createId _ _). Qed.

Lemma createInitialMarker_finishes parentId parentPath initialKey :
  imp_finishes (createInitialMarker parentId parentPath initialKey).
Proof.
  unfold createInitialMarker. apply imp_bind_finishes; [by intros ?|]. intros st.
  destruct (lookupPath _ _); [|apply imp_ret_finishes].
  destruct (negb _); [apply imp_ret_finishes|].
  apply imp_bind_finishes; [apply freshId_finishes|]. intros ?.
  apply imp_bind_finishes; [by intros ?|]. intros _.
  apply imp_bind_finishes; [apply freshId_finishes|]. by intros ? ?.
Qed.

Lemma resolveTarget_finishes target currentPath pathToId idSet :
  finishes (resolveTarget target currentPath pathToId idSet).
Proof.
  unfold resolveTarget. destruct (negb _); [done|].
  destruct target; try done. destruct s as [|c s]; simpl.
  - destruct (pathToId !! ""); [done|]. by destruct (pathToId !! _).
  - repeat case_match; done.
Qed.

Lemma addEdge_finishes sourceId statePath eventType transition idSet target :
  imp_finishes (addEdge sourceId statePath eventType transition idSet target).
Proof.
  unfold addEdge. apply imp_bind_finishes; [by intros ?|]. intros st.
  apply imp_bind_finishes; [apply imp_lift_finishes, resolveTarget_finishes|].
  intros [resolved|]; [|apply imp_ret_finishes].
  destruct (negb _); [apply imp_ret_finishes|].
  apply imp_bind_finishes; [apply freshId_finishes|]. by intros ? ?.
Qed.

Lemma addTransition_finishes sourceId statePath eventType idSet transition :
  imp_finishes (addTransition sourceId statePath eventType idSet transition).
Proof.
  unfold addTransition. apply imp_bind_finishes; [apply imp_lift_finishes, get_finishes|].
  intros ?. apply imp_for_finishes. intros. apply addEdge_finishes.
Qed.

Lemma walkTransitions_finishes fuel states parentPath idSet :
  fuelCovers fuel states -> imp_finishes (walkTransitions fuel states parentPath idSet).
Proof.
  revert states parentPath.
  induction fuel as [|fuel IH]; intros states parentPath Hfuel;
    destruct states as [statesValue|]; try apply imp_ret_finishes; simpl in Hfuel; [lia|].
  simpl. destruct (negb _); [apply imp_ret_finishes|].
  apply imp_for_finishes. intros [key config] Hentry.
  apply imp_bind_finishes; [by intros ?|]. intros st.
  destruct (imp_pathToId st !! _); [|apply imp_ret_finishes].
  destruct (negb _); [apply imp_ret_finishes|].
  apply imp_bind_finishes; [intros ?; by destruct config|]. intros initialKey.
  apply imp_bind_finishes.
  { destruct initialKey as [initialKey|]; [|apply imp_ret_finishes].
    destruct (Dyn.truthy _); [apply createInitialMarker_finishes|apply imp_ret_finishes]. }
  intros _. apply imp_bind_finishes.
  { apply imp_for_finishes. intros [eventType targetConfig] _.
    apply imp_for_finishes. intros. apply addTransition_finishes. }
  intros _. apply IH.
  destruct (Dyn.field config "states") as [child|] eqn:Hchild; [|done].
  pose proof (depth_entry _ _ _ _ _ Hentry Hchild). simpl. lia.
Qed.

Lemma fuelCovers_field parsed k : fuelCovers (S (Dyn.depth parsed)) (Dyn.field parsed k).
Proof.
  destruct (Dyn.field parsed k) as [child|] eqn:Hchild; [|done].
  apply depth_field in Hchild. simpl. lia.
Qed.

Lemma reconstruct_finishes parsed : imp_finishes (reconstruct parsed).
Proof.
  unfold reconstruct.
  apply imp_bind_finishes; [apply walkStates_finishes, fuelCovers_field|]. intros _.
  apply imp_bind_finishes; [by intros ?|]. intros walked.
  apply imp_bind_finishes.
  { destruct (Dyn.field parsed "initial"); [|apply imp_ret_finishes].
    destruct (Dyn.truthy _); [apply createInitialMarker_finishes|apply imp_ret_finishes]. }
  intros _. apply imp_bind_finishes; [apply walkTransitions_finishes, fuelCovers_field|].
  intros _. apply imp_bind_finishes; [by intros ?|]. intros built.
  apply imp_lift_finishes, normalizeImportedMachine_finishes.
Qed.

Lemma reconstruct_complete parsed st doc st' :
  reconstruct parsed st = (Return doc, st') -> completeDocument doc.
Proof.
  unfold reconstruct. intros Hdoc.
  repeat (apply imp_bind_Return in Hdoc as (? & ? & _ & Hdoc)).
  unfold imp_lift in Hdoc. injection Hdoc as Hdoc _.
  by eapply normalizeImportedMachine_complete.
Qed.

Lemma import_finishes raw counter : finishes (fst (importMachineFromXState raw counter)).
Proof.
  unfold importMachineFromXState. destruct (JSON_parse raw) as [parsed|]; [|done].
  pose proof (get_finishes (Some parsed) "meta") as Hmeta.
  destruct (Dyn.get (Some parsed) "meta") as [meta| |]; [|done|done].
  destruct (isMachineDocument _); [apply normalizeImportedMachine_finishes|].
  pose proof (reconstruct_finishes parsed (emptyImport counter)) as Hfin.
  by destruct (reconstruct parsed (emptyImport counter)).
Qed.

Lemma import_complete raw counter doc counter' :
  importMachineFromXState raw counter = (Return doc, counter') -> completeDocument doc.
Proof.
  unfold importMachineFromXState. destruct (JSON_parse raw) as [parsed|]; [|done].
  destruct (Dyn.get (Some parsed) "meta") as [meta| |]; [|done|done].
  destruct (isMachineDocument _).
  - intros [= Hdoc _]. by eapply normalizeImportedMachine_complete.
  - destruct (reconstruct parsed (emptyImport counter)) as [result st] eqn:Hrec.
    intros [= -> _]. by eapply reconstruct_complete.
Qed.

Lemma import_empty_object raw counter :
  JSON_parse raw = Some (JObj []) ->
  importMachineFromXState raw counter = (Return emptyDocument, counter).
Proof. intros Hparse. unfold importMachineFromXState. rewrite Hparse. reflexivity. Qed.
End ReconstructFacts.

Section ImportOutcome.
Context `{Platform}.

(** A parsed value that is not [null] and has none of [meta], [id],
    [states] and [initial] is imported as the empty document. *)
Lemma import_lenient raw counter parsed :
  JSON_parse raw = Some parsed ->
  parsed <> JNull ->
  Dyn.field parsed "meta" = None ->
  Dyn.field parsed "id" = None ->
  Dyn.field parsed "states" = None ->
  Dyn.field parsed "initial" = None ->
  importMachineFromXState raw counter = (Return emptyDocument, counter).
Proof.
  intros Hparse Hnull Hmeta Hid Hstates Hinitial.
  unfold importMachineFromXState. rewrite Hparse.
  assert (Dyn.get (Some parsed) "meta" = Return None) as ->
    by (destruct parsed; try done; simpl in *; by rewrite Hmeta).
  unfold reconstruct. rewrite Hid, Hstates, Hinitial. reflexivity.
Qed.

(** C7, as amended.  [importMachineFromXState] raises a [SyntaxError]
    on text the platform's JSON parser refuses and a [TypeError] on the
    text of [null], with no document and no fresh id drawn.  It does not
    ask for identifying fields: a parsed value other than [null] that
    has none of [meta], [id], [states] and [initial] is imported as the
    document named [importedMachine] with no node and no edge.  Every
    call ends in one of two ways: it returns a document that has all of
    [version], [machineId], [nodes], [edges] and [viewport], or it raises
    an error and returns none. *)
Theorem import_all_or_nothing raw counter :
  (JSON_parse raw = None ->
   importMachineFromXState raw counter = (Throw SyntaxError, counter))
  /\ (JSON_parse raw = Some JNull ->
      importMachineFromXState raw counter = (Throw TypeError, counter))
  /\ (forall parsed,
        JSON_parse raw = Some parsed -> parsed <> JNull ->
        Dyn.field parsed "meta" = None -> Dyn.field parsed "id" = None ->
        Dyn.field parsed "states" = None -> Dyn.field parsed "initial" = None ->
        importMachineFromXState raw counter = (Return emptyDocument, counter))
  /\ ((exists doc counter',
         importMachineFromXState raw counter = (Return doc, counter')
         /\ completeDocument doc)
      \/ (exists error counter',
            importMachineFromXState raw counter = (Throw error, counter'))).
Proof.
  split; [|split; [|split]].
  - intros Hparse. unfold importMachineFromXState. by rewrite Hparse.
  - intros Hparse. unfold importMachineFromXState. by rewrite Hparse.
  - intros parsed. apply import_lenient.
  - pose proof (import_finishes raw counter) as Hfinishes.
    destruct (importMachineFromXState raw counter) as [[doc|error|] counter'] eqn:Himport.
    + left. exists doc, counter'. split; [done|]. by eapply import_complete.
    + right. by exists error, counter'.
    + by destruct Hfinishes.
Qed.

End ImportOutcome.

(** Text that is not JSON is refused. *)
Lemma import_all_or_nothing_witness :
  importMachineFromXState (H:=Reference.platform) "{" 7
  = (Throw SyntaxError, 7%N).
Proof.
  apply (import_all_or_nothing (H:=Reference.platform) "{" 7%N).
  vm_compute. reflexivity.
Defined.

(** C7 as stated fails on the text of the empty object, which parses and
    has no [id], no [meta] and no [states]: the import returns a
    document instead of raising. *)
Lemma empty_object_is_imported :
  JSON_parse (Platform:=Reference.platform) "{}" = Some (JObj [])
  /\ Dyn.field (JObj []) "id" = None
  /\ importMachineFromXState (H:=Reference.platform) "{}" 0
     = (Return emptyDocument, 0%N).
Proof. split; [|split]; vm_compute; reflexivity. Qed.

(** ** Guards *)

Section GuardFacts.
Context `{Platform}.


End GuardFacts.



(** ** Defects of the export *)

(** Without a marker among its children a state gets no [initial],
    whatever its children are. *)
Lemma stateConfigOf_without_marker childrenMap edgeMap child nested config :
  firstInitialTarget (Some (id child)) childrenMap edgeMap = None ->
  stateConfigOf childrenMap edgeMap child nested = Return config ->
  Dyn.field config "initial" = None.
Proof.
  unfold stateConfigOf. intros -> Hconfig.
  destruct (groupTransitions _ _) as [grouped| |]; [|done..].
  simpl in Hconfig. injection Hconfig as <-.
  destruct (style child), (kind (data child)), (states nested), grouped; reflexivity.
Qed.

(** C4, evaluated where it fails.  In [Cases.implicitInitial] the node
    [p] is not parallel and has the child [c] and no marker.  The entry
    resolver selects [c] in [p], its first child.  The exported state of
    [p] has the nested state [child] and no [initial]; the generated
    code has no [initial: 'child'] either.  The root of the same export
    does fall back on its first state: its [initial] is [parent].  No
    state without a marker gets an [initial] from [stateConfigOf]. *)
Theorem nested_initial_is_omitted :
  findInitialTarget (Some "p") (buildMaps Cases.implicitInitial) = Some "c"
  /\ (exists built parentConfig,
        buildStatesForParent (buildChildrenMap (nodes Cases.implicitInitial))
                             (buildEdgeMap (edges Cases.implicitInitial)) 3 None
        = Return built
        /\ Obj.own "parent" (states built) = Some parentConfig
        /\ is_Some (Dyn.get_opt (Dyn.field parentConfig "states") "child")
        /\ Dyn.field parentConfig "initial" = None)
  /\ (exists root,
        buildRootState (H:=Reference.platform) 3 Cases.implicitInitial = Return root
        /\ Dyn.field root "initial" = Some (JStr "parent"))
  /\ (exists code,
        Codegen.generateXStateV5 3 Cases.implicitInitial = Return code
        /\ Codegen.includes "initial: 'parent'" code = true
        /\ Codegen.includes "initial: 'child'" code = false)
  /\ (forall childrenMap edgeMap child nested config,
        firstInitialTarget (Some (id child)) childrenMap edgeMap = None ->
        stateConfigOf childrenMap edgeMap child nested = Return config ->
        Dyn.field config "initial" = None).
Proof.
  split; [vm_compute; reflexivity|]. split; [|split; [|split]].
  - eexists _, _. split; [vm_compute; reflexivity|].
    split; [vm_compute; reflexivity|]. split; [by eexists|reflexivity].
  - eexists. split; [vm_compute; reflexivity|reflexivity].
  - eexists. split; [vm_compute; reflexivity|]. split; vm_compute; reflexivity.
  - apply stateConfigOf_without_marker.
Qed.

(** C8, evaluated where it fails.  The three root states of
    [Cases.clashingLabels] are labelled [A], [A] and [A 2].  The second
    gets the suffixed key [a_2] and the third, whose own slug is [a_2],
    gets the same key; the exported [states] then has two entries, the
    one under [a_2] is the third state and the second state is in none. *)
Theorem sibling_keys_clash :
  slugify "A 2" = "a_2"
  /\ assignKeys (List.filter (fun node => negb (is_marker node))
                   (default [] (buildChildrenMap (nodes Cases.clashingLabels) !! None)))
     = [("n1", "a"); ("n2", "a_2"); ("n3", "a_2")]
  /\ exists built,
       buildStatesForParent (buildChildrenMap (nodes Cases.clashingLabels))
                            (buildEdgeMap (edges Cases.clashingLabels)) 3 None
       = Return built
       /\ Obj.keys (states built) = ["a"; "a_2"]
       /\ Dyn.get_opt (Obj.own "a_2" (states built)) "id" = Some (JStr "n3")
       /\ forall key config,
            (key, config) ∈ states built -> Dyn.field config "id" <> Some (JStr "n2").
Proof.
  split; [vm_compute; reflexivity|]. split; [vm_compute; reflexivity|].
  eexists. split; [vm_compute; reflexivity|].
  split; [vm_compute; reflexivity|]. split; [vm_compute; reflexivity|].
  intros key config Hin. cbn [states] in Hin.
  repeat (apply elem_of_cons in Hin as [[= -> ->]|Hin]; [discriminate|]).
  by apply elem_of_nil in Hin.
Qed.

(** * Further properties *)

(** ** Slugs and identifiers *)

Lemma allChars_weaken (p q : ascii -> bool) s :
  (forall c, p c = true -> q c = true) -> allChars p s = true -> allChars q s = true.
Proof.
  intros Hpq. induction s as [|c s IH]; simpl; [done|].
  rewrite !andb_true_iff. intros [Hc Hs]. auto.
Qed.

Lemma is_underscore_eq c : Js.is_underscore c = true -> c = "_"%char.
Proof. destruct c as [[] [] [] [] [] [] [] []]; vm_compute; congruence. Qed.

Lemma dropStart_allChars p q s :
  allChars q s = true -> allChars q (Js.dropStart p s) = true.
Proof.
  induction s as [|c s IH]; simpl; [done|]. intros Hs.
  destruct (p c); [|done]. apply andb_true_iff in Hs as [_ Hs]. auto.
Qed.

Lemma dropEnd_allChars p q s :
  allChars q s = true -> allChars q (Js.dropEnd p s) = true.
Proof.
  induction s as [|c s IH]; simpl; [done|]. intros Hs.
  apply andb_true_iff in Hs as [Hc Hs]. specialize (IH Hs).
  destruct (Js.dropEnd p s); [destruct (p c); simpl; by rewrite ?Hc|].
  simpl in *. by rewrite Hc, IH.
Qed.

(** Nothing is dropped from a string that has no character to drop. *)
Lemma dropStart_none p q s :
  (forall c, q c = true -> p c = false) -> allChars q s = true -> Js.dropStart p s = s.
Proof.
  intros Hpq. destruct s as [|c s]; simpl; [done|].
  intros Hs. apply andb_true_iff in Hs as [Hc _]. by rewrite (Hpq c Hc).
Qed.

Lemma dropEnd_none p q s :
  (forall c, q c = true -> p c = false) -> allChars q s = true -> Js.dropEnd p s = s.
Proof.
  intros Hpq. induction s as [|c s IH]; simpl; [done|].
  intros Hs. apply andb_true_iff in Hs as [Hc Hs]. rewrite (IH Hs).
  destruct s; [by rewrite (Hpq c Hc)|done].
Qed.

Lemma dropEnd_idempotent p s : Js.dropEnd p (Js.dropEnd p s) = Js.dropEnd p s.
Proof.
  induction s as [|c s IH]; simpl; [done|].
  destruct (Js.dropEnd p s) as [|d t] eqn:Hs.
  - destruct (p c) eqn:Hc; simpl; [done|]. by rewrite Hc.
  - simpl in *. by rewrite IH.
Qed.

Lemma dropEnd_head p c s : p c = false -> exists t, Js.dropEnd p (String c s) = String c t.
Proof. intros Hc. simpl. destruct (Js.dropEnd p s); [rewrite Hc|]; eauto. Qed.

Lemma dropStart_head p s :
  Js.dropStart p s = EmptyString
  \/ exists c t, Js.dropStart p s = String c t /\ p c = false.
Proof.
  induction s as [|c s IH]; simpl; [by left|].
  destruct (p c) eqn:Hc; [done|]. right. eauto.
Qed.

Lemma strip_idempotent p s :
  Js.dropEnd p (Js.dropStart p (Js.dropEnd p (Js.dropStart p s)))
  = Js.dropEnd p (Js.dropStart p s).
Proof.
  destruct (dropStart_head p s) as [->|(c & t & -> & Hc)]; [done|].
  destruct (dropEnd_head p c t Hc) as [u Hu]. rewrite Hu.
  cbn [Js.dropStart]. rewrite Hc, <- Hu. apply dropEnd_idempotent.
Qed.

(** An ASCII character is lower-cased on its own. *)
Lemma toLowerCase_ascii c s :
  (Js.code c <? 128)%N = true ->
  Js.toLowerCase (String c s) = String (Js.lower_char c) (Js.toLowerCase s).
Proof.
  intros Hc. apply N.ltb_lt in Hc.
  assert (Js.between 196 196 c = false) as H196.
  { unfold Js.between. apply andb_false_iff. left. apply N.leb_gt. lia. }
  assert (Js.between 226 226 c = false) as H226.
  { unfold Js.between. apply andb_false_iff. left. apply N.leb_gt. lia. }
  destruct s as [|d [|e s]]; [done| |]; cbn [Js.toLowerCase]; by rewrite ?H196, ?H226.
Qed.

Lemma toLowerCase_allChars s : allChars is_key_char s = true -> Js.toLowerCase s = s.
Proof.
  induction s as [|c s IH]; [done|]. cbn [allChars]. intros Hs.
  apply andb_true_iff in Hs as [Hc Hs]. rewrite toLowerCase_ascii, (IH Hs).
  - f_equal. revert Hc. destruct c as [[] [] [] [] [] [] [] []]; vm_compute; congruence.
  - revert Hc. destruct c as [[] [] [] [] [] [] [] []]; vm_compute; congruence.
Qed.

Lemma key_char_plain c : is_key_char c = true -> is_plain c = true.
Proof. destruct c as [[] [] [] [] [] [] [] []]; vm_compute; congruence. Qed.

Lemma collapseRuns_shape inRun s :
  allChars is_key_char (Js.collapseRuns inRun s) = true
  /\ singleUnderscores inRun (Js.collapseRuns inRun s) = true.
Proof.
  revert inRun. induction s as [|c s IH]; intros inRun; simpl; [done|].
  destruct (Js.is_slug_char c) eqn:Hc.
  - cbn [allChars singleUnderscores]. destruct (IH false) as [-> ->].
    unfold is_key_char. rewrite Hc. simpl.
    assert (Js.is_underscore c = false) as ->; [|done].
    revert Hc. destruct c as [[] [] [] [] [] [] [] []]; vm_compute; congruence.
  - destruct inRun; [apply IH|]. cbn [allChars singleUnderscores].
    destruct (IH true) as [-> ->]. done.
Qed.

Lemma collapseRuns_fixed inRun s :
  allChars is_key_char s = true -> singleUnderscores inRun s = true ->
  Js.collapseRuns inRun s = s.
Proof.
  revert inRun. induction s as [|c s IH]; intros inRun; simpl; [done|].
  intros Hs Hsingle. apply andb_true_iff in Hs as [Hc Hs].
  unfold is_key_char in Hc. destruct (Js.is_slug_char c) eqn:Hslug.
  - assert (Js.is_underscore c = false) as Hu
      by (revert Hslug; destruct c as [[] [] [] [] [] [] [] []]; vm_compute; congruence).
    rewrite Hu in Hsingle. by rewrite (IH false).
  - simpl in Hc. rewrite Hc in Hsingle. apply andb_true_iff in Hsingle as [Hrun Hsingle].
    destruct inRun; [done|]. rewrite (IH true Hs Hsingle).
    by rewrite (is_underscore_eq c Hc).
Qed.

Lemma singleUnderscores_weaken b s :
  singleUnderscores b s = true -> singleUnderscores false s = true.
Proof. destruct s as [|c s]; simpl; [done|]. destruct (Js.is_underscore c), b; simpl; done. Qed.

Lemma dropStart_single p b s :
  singleUnderscores b s = true -> singleUnderscores false (Js.dropStart p s) = true.
Proof.
  revert b. induction s as [|c s IH]; intros b; simpl; [done|]. intros Hs.
  destruct (p c).
  - destruct (Js.is_underscore c); [apply andb_true_iff in Hs as [_ Hs]|]; eauto.
  - simpl. destruct (Js.is_underscore c), b; simpl in *; done.
Qed.

Lemma dropEnd_single p b s :
  singleUnderscores b s = true -> singleUnderscores b (Js.dropEnd p s) = true.
Proof.
  revert b. induction s as [|c s IH]; intros b; simpl; [done|]. intros Hs.
  destruct (Js.is_underscore c) eqn:Hc.
  - apply andb_true_iff in Hs as [Hb Hs]. specialize (IH true Hs).
    destruct (Js.dropEnd p s) as [|d t]; [destruct (p c); simpl; by rewrite ?Hc, ?Hb|].
    remember (String d t) as u. simpl. by rewrite Hc, Hb, IH.
  - specialize (IH false Hs).
    destruct (Js.dropEnd p s) as [|d t]; [destruct (p c); simpl; by rewrite ?Hc|].
    remember (String d t) as u. simpl. by rewrite Hc, IH.
Qed.

(** What [slugify] computes before it falls back on [state]. *)
Lemma slug_shape value :
  let slug := Js.stripUnderscores (Js.collapseRuns false (Js.toLowerCase (Js.trim value))) in
  allChars is_key_char slug = true
  /\ singleUnderscores false slug = true
  /\ Js.stripUnderscores slug = slug.
Proof.
  intros slug. subst slug. unfold Js.stripUnderscores.
  destruct (collapseRuns_shape false (Js.toLowerCase (Js.trim value))) as [Hchars Hsingle].
  split; [by apply dropEnd_allChars, dropStart_allChars|].
  split; [by eapply dropEnd_single, dropStart_single|].
  apply strip_idempotent.
Qed.

Lemma slugify_cases value :
  slugify value = "state"
  \/ (slugify value
      = Js.stripUnderscores (Js.collapseRuns false (Js.toLowerCase (Js.trim value)))
      /\ Js.truthy (slugify value) = true).
Proof.
  unfold slugify. cbn zeta. destruct (Js.truthy _) eqn:Htruthy; [right|left]; done.
Qed.

(** X1.  [slugify] always returns a string that is not empty and is made
    of lower-case letters, digits and underscores, in which no underscore
    follows another and none stands first or last. *)
Theorem slugify_shape value :
  Js.truthy (slugify value) = true
  /\ allChars is_key_char (slugify value) = true
  /\ singleUnderscores false (slugify value) = true
  /\ Js.stripUnderscores (slugify value) = slugify value.
Proof.
  destruct (slugify_cases value) as [->|[-> Htruthy]]; [by vm_compute|].
  split; [done|]. apply slug_shape.
Qed.

(** X2.  A slug is its own slug: [slugify] applied to what [slugify]
    returned changes nothing. *)
Theorem slugify_idempotent value : slugify (slugify value) = slugify value.
Proof.
  destruct (slugify_shape value) as (Htruthy & Hchars & Hsingle & Hstrip).
  unfold slugify at 1. cbn zeta.
  assert (Js.trim (slugify value) = slugify value) as ->.
  { apply trim_plain. eapply allChars_weaken; [apply key_char_plain|done]. }
  rewrite (toLowerCase_allChars _ Hchars), (collapseRuns_fixed _ _ Hchars Hsingle), Hstrip.
  by rewrite Htruthy.
Qed.

Lemma key_char_is_word_char c : is_key_char c = true -> is_word_char c = true.
Proof. destruct c as [[] [] [] [] [] [] [] []]; vm_compute; congruence. Qed.

Lemma upper_char_is_word_char c :
  Js.between 97 122 c = true -> is_word_char (Codegen.upper_char c) = true.
Proof. destruct c as [[] [] [] [] [] [] [] []]; vm_compute; congruence. Qed.

Lemma camel_chars pending s :
  allChars is_word_char pending = true -> allChars is_key_char s = true ->
  allChars is_word_char (Codegen.camel pending s) = true.
Proof.
  revert pending. induction s as [|c s IH]; intros pending Hpending; simpl; [done|].
  intros Hs. apply andb_true_iff in Hs as [Hc Hs].
  destruct (Js.is_underscore c) eqn:Hu.
  - apply IH; [|done]. by rewrite allChars_app, Hpending.
  - destruct (Js.truthy pending && Js.between 97 122 c) eqn:Hcamel.
    + apply andb_true_iff in Hcamel as [_ Hlower]. simpl.
      rewrite (upper_char_is_word_char c Hlower). by apply IH.
    + rewrite allChars_app, Hpending. simpl.
      rewrite (key_char_is_word_char c Hc). by apply IH.
Qed.

(** X3.  [toIdentifier] always returns a name that starts with a letter
    or an underscore and goes on with letters, digits and underscores. *)
Theorem toIdentifier_shape value :
  exists c rest,
    Codegen.toIdentifier value = String c rest
    /\ is_word_start c = true
    /\ allChars is_word_char rest = true.
Proof.
  destruct (slugify_shape value) as (_ & Hchars & _).
  pose proof (camel_chars EmptyString (slugify value) eq_refl Hchars) as Hcamel.
  unfold Codegen.toIdentifier. cbn zeta.
  destruct (Codegen.camel EmptyString (slugify value)) as [|c rest];
    [by exists "s"%char, "_"|].
  fold (is_word_start c). destruct (is_word_start c) eqn:Hstart.
  - exists c, rest. simpl in Hcamel. apply andb_true_iff in Hcamel as [_ Hrest]. done.
  - exists "s"%char, (String "_" (String c rest)). done.
Qed.

(** ** Fresh identifiers *)

Lemma digit36_value_digit36 d :
  (d < 36)%N -> digit36_value (Js.digit36 d) = d /\ Js.is_slug_char (Js.digit36 d) = true.
Proof.
  intros Hd. assert (exists n, d = N.of_nat n /\ n < 36) as (n & -> & Hn)
    by (exists (N.to_nat d); lia).
  do 36 (destruct n as [|n]; [by vm_compute|]). lia.
Qed.

Lemma slug_char_not_underscore c : Js.is_slug_char c = true -> Js.is_underscore c = false.
Proof. destruct c as [[] [] [] [] [] [] [] []]; vm_compute; congruence. Qed.

Lemma parse36_acc acc s :
  parse36 acc s = (acc * 36 ^ N.of_nat (String.length s) + parse36 0 s)%N.
Proof.
  revert acc. induction s as [|c s IH]; intros acc; simpl String.length; cbn [parse36].
  - rewrite N.pow_0_r. lia.
  - rewrite (IH (acc * 36 + _)%N), (IH (0 * 36 + _)%N).
    rewrite Nat2N.inj_succ, N.pow_succ_r'. lia.
Qed.

Lemma toString36_go_spec fuel n acc :
  (n < 2 ^ N.of_nat fuel)%N -> 0 < fuel ->
  allChars Js.is_slug_char acc = true ->
  parse36 0 (Js.toString36_go fuel n acc)
  = (n * 36 ^ N.of_nat (String.length acc) + parse36 0 acc)%N
  /\ allChars Js.is_slug_char (Js.toString36_go fuel n acc) = true.
Proof.
  revert n acc. induction fuel as [|fuel IH]; intros n acc Hn Hfuel Hacc; [lia|].
  cbn [Js.toString36_go].
  destruct (digit36_value_digit36 (n mod 36)) as [Hvalue Hslug];
    [apply N.mod_lt; lia|].
  assert (parse36 0 (String (Js.digit36 (n mod 36)) acc)
          = ((n mod 36) * 36 ^ N.of_nat (String.length acc) + parse36 0 acc)%N) as Hhead.
  { cbn [parse36]. rewrite parse36_acc, Hvalue. lia. }
  assert (allChars Js.is_slug_char (String (Js.digit36 (n mod 36)) acc) = true) as Hchars
    by (simpl; by rewrite Hslug).
  destruct (n / 36 =? 0)%N eqn:Hquot.
  - split; [|done]. rewrite Hhead. apply N.eqb_eq in Hquot.
    pose proof (N.div_mod n 36). lia.
  - apply N.eqb_neq in Hquot.
    assert (n / 36 < 2 ^ N.of_nat fuel)%N as Hless.
    { rewrite Nat2N.inj_succ, N.pow_succ_r' in Hn.
      apply N.Div0.div_lt_upper_bound. lia. }
    assert (0 < fuel) as Hpos.
    { destruct fuel; [|lia]. change (2 ^ N.of_nat 0)%N with 1%N in Hless.
      remember (n / 36)%N as q. lia. }
    destruct (IH (n / 36)%N _ Hless Hpos Hchars) as [-> Hall]. split; [|done].
    rewrite Hhead. cbn [String.length]. rewrite Nat2N.inj_succ, N.pow_succ_r'.
    pose proof (N.div_mod n 36). lia.
Qed.

(** [toString(36)] writes digits and lower-case letters, and the number
    can be read back from them. *)
Lemma toString36_spec n :
  parse36 0 (Js.toString36 n) = n /\ allChars Js.is_slug_char (Js.toString36 n) = true.
Proof.
  unfold Js.toString36.
  destruct (toString36_go_spec (S (N.to_nat (N.log2 n))) n EmptyString) as [Hvalue Hchars];
    [|lia|done|].
  - rewrite Nat2N.inj_succ, N2Nat.id.
    destruct n as [|p]; [done|]. apply N.log2_spec. lia.
  - split; [|done]. rewrite Hvalue. simpl. lia.
Qed.

Lemma allChars_underscore_free prefix tail :
  allChars Js.is_slug_char (prefix +:+ String "_" tail) = false.
Proof.
  induction prefix as [|c s IH]; [done|].
  rewrite append_String. simpl. by rewrite IH, andb_false_r.
Qed.

(** The part after the last underscore is determined by the whole. *)
Lemma last_segment_inj prefix1 prefix2 tail1 tail2 :
  allChars Js.is_slug_char tail1 = true -> allChars Js.is_slug_char tail2 = true ->
  prefix1 +:+ String "_" tail1 = prefix2 +:+ String "_" tail2 -> tail1 = tail2.
Proof.
  intros Htail1 Htail2. revert prefix2.
  induction prefix1 as [|c prefix1 IH]; intros [|d prefix2];
    rewrite ?append_empty, ?append_String.
  - congruence.
  - intros [= <- ->]. by rewrite allChars_underscore_free in Htail1.
  - intros [= -> <-]. by rewrite allChars_underscore_free in Htail2.
  - intros [= _ Heq]. eauto.
Qed.

Section Fresh.
Context `{Platform}.

(** X4.  Two calls of [createId] made at different values of the
    module's counter return different identifiers, whatever the prefixes
    and whatever the clock reads; each call advances the counter by
    one. *)
Theorem createId_fresh prefix1 prefix2 counter1 counter2 :
  counter1 <> counter2 ->
  fst (createId prefix1 counter1) <> fst (createId prefix2 counter2)
  /\ snd (createId prefix1 counter1) = (counter1 + 1)%N.
Proof.
  intros Hcounters. split; [|done]. unfold createId. cbn [fst]. intros Heq.
  destruct (toString36_spec (counter1 + 1)) as [Hvalue1 Hchars1].
  destruct (toString36_spec (counter2 + 1)) as [Hvalue2 Hchars2].
  change (?p +:+ "_" +:+ ?d +:+ "_" +:+ ?c)
    with (p +:+ ("_" +:+ d) +:+ String "_" c) in Heq.
  rewrite <- !append_assoc in Heq.
  apply last_segment_inj in Heq; [|done..].
  rewrite Heq in Hvalue1. rewrite Hvalue1 in Hvalue2. lia.
Qed.

End Fresh.

Lemma createId_fresh_witness :
  fst (createId (H:=Reference.platform) "edge" 0)
  <> fst (createId (H:=Reference.platform) "edge" 1)
  /\ snd (createId (H:=Reference.platform) "edge" 0) = (0 + 1)%N.
Proof. apply (createId_fresh (H:=Reference.platform) "edge" "edge" 0 1). lia. Defined.

(** ** What a configuration holds *)

Lemma set_add_NoDup leaves leaf : NoDup leaves -> NoDup (set_add leaves leaf).
Proof.
  intros Hleaves. unfold set_add. case_bool_decide as Hin; [done|].
  apply NoDup_app. split; [done|]. split; [|apply NoDup_singleton].
  intros x Hx Hx'. apply list_elem_of_singleton in Hx' as ->. done.
Qed.

Lemma foldl_set_add_NoDup new leaves : NoDup leaves -> NoDup (foldl set_add leaves new).
Proof.
  revert leaves. induction new as [|x new IH]; intros leaves Hleaves; simpl; [done|].
  by apply IH, set_add_NoDup.
Qed.

Lemma mapM_Some_elem {A B} (f : A -> option B) (l : list A) (k : list B) y :
  mapM f l = Some k -> y ∈ k -> exists x, x ∈ l /\ f x = Some y.
Proof.
  revert k. induction l as [|x l IH]; intros k; simpl.
  - intros [= <-] Hy. by apply elem_of_nil in Hy.
  - intros Hk. apply bind_Some in Hk as (z & Hz & Hk).
    apply bind_Some in Hk as (k' & Hk' & [= <-]).
    intros Hy. apply elem_of_cons in Hy as [->|Hy].
    + exists x. split; [by left|done].
    + destruct (IH k' Hk' Hy) as (x' & ? & ?). exists x'. split; [by right|done].
Qed.

Lemma enterNode_configuration machine fuel nodeId seen leaves :
  enterNode fuel nodeId (buildMaps machine) seen = Some leaves ->
  configuration machine leaves.
Proof.
  revert nodeId seen leaves.
  induction fuel as [|fuel IH]; intros nodeId seen leaves; [done|].
  assert (configuration machine []) as Hnil.
  { split; [constructor|]. intros ? Hin. by apply elem_of_nil in Hin. }
  rewrite enterNode_step.
  case_bool_decide; [by intros [= <-]|]. cbn zeta.
  destruct (nodeById (buildMaps machine) !! nodeId) as [node|] eqn:Hnode;
    [|by intros [= <-]].
  apply nodeById_Some in Hnode as [Hin Hid].
  destruct (is_marker node) eqn:Hmarker.
  { destruct (head _) as [edge|]; [|by intros [= <-]].
    destruct (Js.truthy _); [apply IH|by intros [= <-]]. }
  apply is_marker_false in Hmarker.
  assert (configuration machine [id node]) as Hself.
  { split; [apply NoDup_singleton|]. intros leaf Hleaf.
    apply list_elem_of_singleton in Hleaf as ->. eauto. }
  destruct (regionsOf _ _) as [|first rest]; [by intros [= <-]|].
  case_bool_decide.
  - intros Hentered. apply bind_Some in Hentered as (entered & Hentered & [= <-]).
    split; [apply foldl_set_add_NoDup; constructor|].
    intros leaf Hleaf. apply foldl_set_add_elem in Hleaf as [Hleaf|Hleaf];
      [by apply elem_of_nil in Hleaf|].
    apply elem_of_concat in Hleaf as (part & Hpart & Hleaf).
    destruct (mapM_Some_elem _ _ _ _ Hentered Hpart) as (child & _ & Hchild).
    by apply (IH _ _ _ Hchild).
  - destruct (Js.truthy _); [apply IH|by intros [= <-]].
Qed.

Section Configurations.
Context `{Platform}.

(** X5.  Whatever the document, the list [initialSimulationState]
    returns holds ids of nodes of the document that are not markers, each
    once; and [triggerSimulationEvent] turns a list of that kind into a
    list of that kind. *)
Theorem configurations_closed machine :
  (forall leaves, initialSimulationState machine = Some leaves ->
                  configuration machine leaves)
  /\ (forall fuel activeLeafIds eventType step,
        configuration machine activeLeafIds ->
        triggerSimulationEvent fuel machine activeLeafIds eventType = Some step ->
        configuration machine (nextActiveLeafIds step)).
Proof.
  assert (configuration machine []) as Hnil.
  { split; [constructor|]. intros ? Hin. by apply elem_of_nil in Hin. }
  split.
  - intros leaves. unfold initialSimulationState. cbn zeta.
    destruct (findInitialTarget None _) as [rootTarget|];
      [destruct (Js.truthy rootTarget); [apply enterNode_configuration|]|];
      (destruct (List.find _ _); [apply enterNode_configuration|by intros [= <-]]).
  - intros fuel activeLeafIds eventType step Hactive Hstep.
    apply (triggerLoop_resolved _ _ _ _ [] activeLeafIds) in Hstep;
      [|done|intros ? Hin; by apply elem_of_nil in Hin].
    destruct Hstep as [(_ & _ & _ & edge & entered & _ & _ & _ & Hentered & ->)|[_ ->]];
      [|done].
    by eapply enterNode_configuration.
Qed.

End Configurations.

Lemma configurations_closed_witness :
  configuration Examples.checkoutMachine ["review_shipping"; "review_payment"].
Proof.
  destruct (configurations_closed (H:=Reference.platform) Examples.checkoutMachine)
    as [Hinitial Hstep].
  apply (Hstep 5 ["cart"] "BEGIN_CHECKOUT"
           {| nextActiveLeafIds := ["review_shipping"; "review_payment"];
              takenEdgeId := Some "e_cart_review" |}).
  - apply Hinitial. vm_compute. reflexivity.
  - vm_compute. reflexivity.
Defined.

(** ** Active nodes *)

Lemma climbsTo_chain fuel maps nodeId current chain :
  getAncestors fuel current maps = Some chain ->
  climbsTo fuel (nodeById maps) nodeId current = Some (bool_decide (nodeId ∈ chain)).
Proof.
  revert current chain. induction fuel as [|fuel IH]; intros [reached|] chain.
  - simpl. destruct (Js.truthy reached); [done|]. by intros [= <-].
  - simpl. by intros [= <-].
  - rewrite getAncestors_step. cbn [climbsTo].
    destruct (Js.truthy reached); [|by intros [= <-]].
    intros Hchain. apply bind_Some in Hchain as (rest & Hrest & [= <-]).
    destruct (decide (reached = nodeId)) as [->|Hreached].
    + rewrite !bool_decide_eq_true_2; [done|by left|done].
    + rewrite (bool_decide_eq_false_2 (reached = nodeId)) by done.
      rewrite (IH _ _ Hrest).
      rewrite (bool_decide_ext (nodeId ∈ rest) (nodeId ∈ reached :: rest)); [done|].
      rewrite elem_of_cons. split; [auto|]. intros [?|?]; [congruence|done].
  - simpl. by intros [= <-].
Qed.

Lemma activeLoop_spec fuel maps nodeId leaves :
  (forall leaf, leaf ∈ leaves ->
     is_Some (getAncestors fuel (nodeById maps !! leaf ≫= parentNode) maps)) ->
  exists answer,
    activeLoop fuel (nodeById maps) nodeId leaves = Some answer
    /\ (answer = true
        <-> exists leaf above,
              leaf ∈ leaves
              /\ getAncestors fuel (nodeById maps !! leaf ≫= parentNode) maps = Some above
              /\ nodeId ∈ above).
Proof.
  induction leaves as [|leaf rest IH]; intros Hreturns.
  - exists false. split; [done|]. split; [done|].
    intros (? & ? & Hin & _). by apply elem_of_nil in Hin.
  - destruct IH as (answer & Hanswer & Hrest); [intros; apply Hreturns; by right|].
    destruct (Hreturns leaf) as [above Habove]; [by left|].
    cbn [activeLoop]. rewrite (climbsTo_chain _ _ _ _ _ Habove).
    case_bool_decide as Hin.
    + exists true. split; [done|]. split; [|done]. intros _.
      exists leaf, above. split; [by left|done].
    + exists answer. split; [done|]. rewrite Hrest. split.
      * intros (other & chain & Hother & Hchain & Hnode).
        exists other, chain. split; [by right|done].
      * intros (other & chain & Hother & Hchain & Hnode).
        apply elem_of_cons in Hother as [->|Hother].
        -- rewrite Habove in Hchain. by injection Hchain as <-.
        -- by exists other, chain.
Qed.

Section Active.
Variable machine : MachineDocument.
Variable rank : string -> nat.
Hypothesis Hforest : forest machine rank.

Lemma parent_chain_returns fuel leaf :
  rankBound machine rank + 2 <= fuel ->
  is_Some (getAncestors fuel (nodeById (buildMaps machine) !! leaf ≫= parentNode)
                        (buildMaps machine)).
Proof.
  intros Hfuel. destruct (_ ≫= parentNode) as [parent|].
  - apply (getAncestors_returns machine rank); [done|lia|lia].
  - rewrite getAncestors_None. by eexists.
Qed.

(** X6.  On a document whose [parentNode] links form a forest
    [isNodeActive] returns, and it answers true exactly when the node is
    one of the active leaves or lies on the chain of ancestors that
    [getAncestors] computes from the parent of an active leaf. *)
Theorem isNodeActive_ancestors fuel nodeId activeLeafIds :
  rankBound machine rank + 2 <= fuel ->
  exists answer,
    isNodeActive fuel nodeId activeLeafIds machine = Some answer
    /\ (answer = true
        <-> nodeId ∈ activeLeafIds
            \/ exists leaf above,
                 leaf ∈ activeLeafIds
                 /\ getAncestors fuel
                       (nodeById (buildMaps machine) !! leaf ≫= parentNode)
                       (buildMaps machine) = Some above
                 /\ nodeId ∈ above).
Proof.
  intros Hfuel. unfold isNodeActive. case_bool_decide as Hin.
  - exists true. split; [done|]. split; [auto|done].
  - cbn zeta.
    destruct (activeLoop_spec fuel (buildMaps machine) nodeId activeLeafIds)
      as (answer & Hanswer & Hspec); [intros; by apply parent_chain_returns|].
    exists answer. split; [done|]. rewrite Hspec. split; [auto|].
    intros [?|?]; done.
Qed.

End Active.

Lemma isNodeActive_ancestors_witness :
  isNodeActive 5 "review" ["review_shipping"; "review_payment"] Examples.checkoutMachine
  = Some true.
Proof.
  destruct (isNodeActive_ancestors Examples.checkoutMachine Cases.checkoutRank
              (wf_forest _ _ checkout_wf) 5 "review" ["review_shipping"; "review_payment"])
    as (answer & Hanswer & Hspec); [vm_compute; lia|].
  rewrite Hanswer. f_equal. apply Hspec. right.
  exists "review_shipping", ["review"]. split; [by left|].
  split; [vm_compute; reflexivity|by left].
Defined.

(** ** The order of the events on offer *)

Section Sorting.
Context `{Platform}.

Lemma sortInsert_perm name sorted : sortInsert name sorted ≡ₚ name :: sorted.
Proof.
  induction sorted as [|other rest IH]; simpl; [done|].
  destruct (localeCompare name other <? 0)%Z; [done|].
  rewrite IH. apply Permutation_swap.
Qed.

Lemma sortByLocale_perm names : sortByLocale names ≡ₚ names.
Proof.
  unfold sortByLocale.
  assert (forall sorted,
            foldl (fun sorted name => sortInsert name sorted) sorted names
            ≡ₚ names ++ sorted) as Hgen.
  { induction names as [|name names IH]; intros sorted; simpl; [done|].
    rewrite IH, sortInsert_perm. by rewrite Permutation_middle. }
  by rewrite Hgen, app_nil_r.
Qed.

Lemma collectEvents_NoDup maps chain events :
  NoDup events -> NoDup (collectEvents maps events chain).
Proof.
  unfold collectEvents. revert events.
  induction chain as [|sourceId chain IH]; intros events Hevents; simpl; [done|].
  apply IH. generalize (outgoing maps sourceId). intros transitions.
  revert events Hevents. induction transitions as [|edge rest IHrest];
    intros events Hevents; simpl; [done|].
  apply IHrest. destruct (Js.truthy _); [by apply set_add_NoDup|done].
Qed.

Lemma availableLoop_NoDup fuel maps leaves events result :
  NoDup events -> availableLoop fuel maps events leaves = Some result -> NoDup result.
Proof.
  revert events. induction leaves as [|leaf rest IH]; intros events Hevents; simpl.
  - by intros [= <-].
  - intros Hloop. apply bind_Some in Hloop as (chain & _ & Hloop).
    eapply IH; [|done]. by apply collectEvents_NoDup.
Qed.

Section Ordered.
Hypothesis Hconverse :
  forall a b, (0 <= localeCompare a b)%Z -> (localeCompare b a <= 0)%Z.
Hypothesis Htransitive :
  forall a b c, (localeCompare a b <= 0)%Z -> (localeCompare b c <= 0)%Z ->
                (localeCompare a c <= 0)%Z.

Lemma sortInsert_ascending name sorted :
  ascending (fun a b => (localeCompare a b <= 0)%Z) sorted ->
  ascending (fun a b => (localeCompare a b <= 0)%Z) (sortInsert name sorted).
Proof.
  induction sorted as [|other rest IH]; simpl; [done|].
  intros [Hother Hrest]. destruct (localeCompare name other <? 0)%Z eqn:Hcompare.
  - apply Z.ltb_lt in Hcompare. simpl. split; [|done].
    constructor; [lia|]. eapply Forall_impl; [done|].
    intros later Hlater. simpl in Hlater. apply (Htransitive _ other); [lia|done].
  - apply Z.ltb_ge in Hcompare. simpl. split; [|by apply IH].
    rewrite sortInsert_perm. constructor; [by apply Hconverse|done].
Qed.

Lemma sortByLocale_ascending names :
  ascending (fun a b => (localeCompare a b <= 0)%Z) (sortByLocale names).
Proof.
  unfold sortByLocale.
  assert (forall sorted,
            ascending (fun a b => (localeCompare a b <= 0)%Z) sorted ->
            ascending (fun a b => (localeCompare a b <= 0)%Z)
                      (foldl (fun sorted name => sortInsert name sorted) sorted names))
    as Hgen.
  { induction names as [|name names IH]; intros sorted Hsorted; simpl; [done|].
    by apply IH, sortInsert_ascending. }
  by apply Hgen.
Qed.

(** X7.  [getAvailableEvents] lists no event name twice, and where the
    platform's [localeCompare] is an order (converse and transitive) the
    list is ascending in it. *)
Theorem getAvailableEvents_sorted fuel machine activeLeafIds events :
  getAvailableEvents fuel machine activeLeafIds = Some events ->
  NoDup events /\ ascending (fun a b => (localeCompare a b <= 0)%Z) events.
Proof.
  unfold getAvailableEvents. intros Hevents.
  apply bind_Some in Hevents as (collected & Hloop & [= <-]).
  split; [|apply sortByLocale_ascending].
  rewrite sortByLocale_perm. eapply availableLoop_NoDup; [|done]. constructor.
Qed.

End Ordered.
End Sorting.

(** *** The reference collation is an order *)

Lemma ascii_compare_Lt_trans a b c :
  Ascii.compare a b = Lt -> Ascii.compare b c <> Gt -> Ascii.compare a c = Lt.
Proof. unfold Ascii.compare. rewrite !N.compare_lt_iff, N.compare_gt_iff. lia. Qed.

Lemma string_compare_trans a b c :
  String.compare a b <> Gt -> String.compare b c <> Gt -> String.compare a c <> Gt.
Proof.
  revert b c. induction a as [|x a IH]; intros [|y b] [|z c]; simpl; try done.
  destruct (Ascii.compare x y) eqn:Hxy; [| |done]; intros Hab.
  - apply Ascii.compare_eq_iff in Hxy as ->.
    destruct (Ascii.compare y z); [by apply IH|done|done].
  - destruct (Ascii.compare y z) eqn:Hyz; [| |done]; intros _.
    + apply Ascii.compare_eq_iff in Hyz as <-. by rewrite Hxy.
    + by rewrite (ascii_compare_Lt_trans x y z) by (done || congruence).
Qed.

Lemma compare_units_converse a b :
  (0 <= Reference.compare_units a b)%Z -> (Reference.compare_units b a <= 0)%Z.
Proof.
  unfold Reference.compare_units. rewrite (String.compare_antisym a b).
  destruct (String.compare b a); simpl; lia.
Qed.

Lemma compare_units_transitive a b c :
  (Reference.compare_units a b <= 0)%Z -> (Reference.compare_units b c <= 0)%Z ->
  (Reference.compare_units a c <= 0)%Z.
Proof.
  unfold Reference.compare_units. intros Hab Hbc.
  pose proof (string_compare_trans a b c) as Htrans.
  destruct (String.compare a b), (String.compare b c), (String.compare a c);
    try lia; exfalso; apply Htrans; done.
Qed.

Lemma getAvailableEvents_sorted_witness :
  NoDup ["PAYMENT_OK"; "SHIPPING_OK"]
  /\ ascending (fun a b => (Reference.compare_units a b <= 0)%Z)
               ["PAYMENT_OK"; "SHIPPING_OK"].
Proof.
  apply (getAvailableEvents_sorted (H:=Reference.platform)
           compare_units_converse compare_units_transitive
           5 Examples.checkoutMachine ["review_shipping"; "review_payment"]).
  vm_compute. reflexivity.
Defined.

(** ** The undo history *)

Section HistoryFacts.
Import History.
Context {T : Type}.
Variable stringify : T -> string.
Variable parse : string -> option T.

Lemma lastN_length {A} n (l : list A) : length (lastN n l) <= n.
Proof. unfold lastN. rewrite length_drop. lia. Qed.

Lemma lastN_short {A} n (l : list A) : length l <= n -> lastN n l = l.
Proof. intros Hl. unfold lastN. by replace (length l - n) with 0 by lia. Qed.

Lemma withoutLast_snoc {A} (l : list A) x : withoutLast (l ++ [x]) = l.
Proof.
  unfold withoutLast. rewrite length_app. simpl.
  replace (length l + 1 - 1) with (length l) by lia. by rewrite take_app_length.
Qed.

Lemma withoutLast_length {A} (l : list A) : length (withoutLast l) <= length l.
Proof. unfold withoutLast. rewrite length_take. lia. Qed.

Lemma cloneValue_survives value :
  survives stringify parse value -> cloneValue stringify parse value = Return value.
Proof. unfold survives, cloneValue. by intros ->. Qed.

Lemma cloneValue_cases value :
  (exists copy, cloneValue stringify parse value = Return copy)
  \/ cloneValue stringify parse value = Throw SyntaxError.
Proof. unfold cloneValue. destruct (parse _); eauto. Qed.

(** X8.  No operation of the history lets the past grow beyond
    [MAX_HISTORY] entries: pushing, pushing from a snapshot, replacing,
    undoing and redoing all return a state whose past has at most 100
    entries when the past they were given had. *)
Theorem history_bounded state next snapshot result :
  length (past state) <= MAX_HISTORY ->
  withHistoryPush stringify parse state next = Return result
  \/ withHistoryPushFromSnapshot stringify parse state snapshot next = Return result
  \/ withHistoryReplace stringify parse state next = Return result
  \/ undoHistory stringify parse state = Return result
  \/ redoHistory stringify parse state = Return result ->
  length (past result) <= MAX_HISTORY.
Proof.
  intros Hpast.
  unfold withHistoryPush, withHistoryPushFromSnapshot, withHistoryReplace,
    undoHistory, redoHistory.
  intros [Hresult|[Hresult|[Hresult|[Hresult|Hresult]]]]; revert Hresult;
    repeat match goal with
           | |- context [String.eqb ?a ?b] => destruct (String.eqb a b)
           | |- context [last ?l] => destruct (last l)
           | |- context [match future ?s with _ => _ end] => destruct (future s)
           | |- context [cloneValue ?s ?p ?v] =>
               destruct (cloneValue_cases v) as [[? ->]| ->]; simpl
           end;
    intros [= <-]; simpl; try done; try apply lastN_length.
  etrans; [apply withoutLast_length|done].
Qed.

(** X9.  Undo and redo are inverse: where the values concerned survive
    cloning through JSON, redoing after an undo gives the state back when
    its past had at most 100 entries, and undoing after a redo gives it
    back when its past had fewer than 100. *)
Theorem undo_redo_inverse state :
  survives stringify parse (present state) ->
  (forall prev, last (past state) = Some prev -> survives stringify parse prev) ->
  (forall next, head (future state) = Some next -> survives stringify parse next) ->
  (past state <> [] -> length (past state) <= MAX_HISTORY ->
   exists undone,
     undoHistory stringify parse state = Return undone
     /\ redoHistory stringify parse undone = Return state)
  /\ (future state <> [] -> length (past state) < MAX_HISTORY ->
      exists redone,
        redoHistory stringify parse state = Return redone
        /\ undoHistory stringify parse redone = Return state).
Proof.
  destruct state as [before current after]. simpl.
  intros Hcurrent Hprev Hnext. split.
  - intros Hsome Hlength. unfold undoHistory. simpl.
    destruct (last before) as [prev|] eqn:Hlast;
      [|by apply last_None in Hlast].
    specialize (Hprev prev eq_refl). apply last_Some in Hlast as [earlier ->].
    rewrite !cloneValue_survives by done. simpl. eexists. split; [done|].
    unfold redoHistory. simpl. rewrite !cloneValue_survives by done. simpl.
    by rewrite withoutLast_snoc, lastN_short.
  - intros Hsome Hlength. unfold redoHistory. simpl.
    destruct after as [|next later]; [done|]. specialize (Hnext next eq_refl).
    rewrite !cloneValue_survives by done. simpl. eexists. split; [done|].
    unfold undoHistory. simpl.
    rewrite lastN_short by (rewrite length_app; simpl; unfold MAX_HISTORY in *; lia).
    rewrite last_snoc. rewrite !cloneValue_survives by done. simpl.
    by rewrite withoutLast_snoc.
Qed.

(** X10.  A push of a value that prints like the present one returns
    the state itself.  Any other push makes the value the present one and
    empties the future, and an undo after it brings the earlier present
    back, with the pushed value as the only future and the past as it
    was. *)
Theorem push_then_undo state next :
  survives stringify parse (present state) ->
  survives stringify parse next ->
  length (past state) < MAX_HISTORY ->
  (stringify (present state) = stringify next ->
   withHistoryPush stringify parse state next = Return state)
  /\ (stringify (present state) <> stringify next ->
      exists pushed,
        withHistoryPush stringify parse state next = Return pushed
        /\ present pushed = next /\ future pushed = []
        /\ undoHistory stringify parse pushed
           = Return {| past := past state; present := present state;
                       future := [next] |}).
Proof.
  intros Hcurrent Hnext Hlength. unfold withHistoryPush. split.
  - intros ->. by rewrite String.eqb_refl.
  - intros Hdiffer. apply String.eqb_neq in Hdiffer. rewrite Hdiffer.
    rewrite !cloneValue_survives by done. simpl. eexists. split; [done|].
    split; [done|]. split; [done|]. unfold undoHistory. simpl.
    rewrite lastN_short by (rewrite length_app; simpl; unfold MAX_HISTORY in *; lia).
    rewrite last_snoc. rewrite !cloneValue_survives by done. simpl.
    by rewrite withoutLast_snoc.
Qed.

End HistoryFacts.

Lemma history_bounded_witness :
  length (History.past
            {| History.past := [JNum 1]; History.present := JNum 2;
               History.future := [] |})
  <= History.MAX_HISTORY.
Proof.
  apply (history_bounded Reference.print Reference.parse
           (History.createHistoryState (JNum 1)) (JNum 2) (JNum 1));
    [vm_compute; lia|left; vm_compute; reflexivity].
Defined.

Lemma undo_redo_inverse_witness :
  exists undone,
    History.undoHistory Reference.print Reference.parse
      {| History.past := [JNum 1]; History.present := JNum 2;
         History.future := [JNum 3] |} = Return undone
    /\ History.redoHistory Reference.print Reference.parse undone
       = Return {| History.past := [JNum 1]; History.present := JNum 2;
                   History.future := [JNum 3] |}.
Proof.
  destruct (undo_redo_inverse Reference.print Reference.parse
              {| History.past := [JNum 1]; History.present := JNum 2;
                 History.future := [JNum 3] |}) as [Hundo _].
  - vm_compute. reflexivity.
  - intros prev [= <-]. vm_compute. reflexivity.
  - intros next [= <-]. vm_compute. reflexivity.
  - apply Hundo; [done|vm_compute; lia].
Defined.

Lemma push_then_undo_witness :
  exists pushed,
    History.withHistoryPush Reference.print Reference.parse
      (History.createHistoryState (JStr "a")) (JStr "b") = Return pushed
    /\ History.present pushed = JStr "b" /\ History.future pushed = []
    /\ History.undoHistory Reference.print Reference.parse pushed
       = Return {| History.past := []; History.present := JStr "a";
                   History.future := [JStr "b"] |}.
Proof.
  destruct (push_then_undo Reference.print Reference.parse
              (History.createHistoryState (JStr "a")) (JStr "b")) as [_ Hpush].
  - vm_compute. reflexivity.
  - vm_compute. reflexivity.
  - vm_compute. lia.
  - apply Hpush. vm_compute. discriminate.
Defined.

(** ** The reconstructed document refers to its own nodes *)

Lemma nodeIds_app before after : nodeIds (before ++ after) = nodeIds before ++ nodeIds after.
Proof. unfold nodeIds. apply omap_app. Qed.

Lemma nodeIds_snoc nodeValues node known :
  known ∈ nodeIds nodeValues -> known ∈ nodeIds (nodeValues ++ [node]).
Proof. rewrite nodeIds_app, elem_of_app. auto. Qed.

Lemma nodeIds_last nodeValues node nodeId :
  Dyn.field node "id" = Some nodeId -> nodeId ∈ nodeIds (nodeValues ++ [node]).
Proof.
  intros Hid. rewrite nodeIds_app, elem_of_app. right.
  unfold nodeIds. simpl. rewrite Hid. by left.
Qed.

Lemma endsKnown_grows nodeValues nodeValues' edge :
  (forall known, known ∈ nodeIds nodeValues -> known ∈ nodeIds nodeValues') ->
  endsKnown nodeValues edge -> endsKnown nodeValues' edge.
Proof. intros Hgrows (s & t & ? & ? & ? & ?). exists s, t. auto. Qed.

Lemma parentKnown_grows nodeValues nodeValues' node :
  (forall known, known ∈ nodeIds nodeValues -> known ∈ nodeIds nodeValues') ->
  parentKnown nodeValues node -> parentKnown nodeValues' node.
Proof. intros Hgrows Hnode parentId Hparent. auto. Qed.

Lemma grows_refl st : grows st st.
Proof. by intros ?. Qed.

Lemma grows_trans st1 st2 st3 : grows st1 st2 -> grows st2 st3 -> grows st1 st3.
Proof. intros H12 H23 known Hknown. auto. Qed.

Lemma sound_ret {A} idSet needed (a : A) : sound idSet needed (imp_ret a).
Proof. intros st a' st' Hlinked _ [= _ <-]. split; [done|apply grows_refl]. Qed.

Lemma sound_lift {A} idSet needed (r : Run A) : sound idSet needed (imp_lift r).
Proof. intros st a' st' Hlinked _ [= _ <-]. split; [done|apply grows_refl]. Qed.

Lemma sound_bind {A B} idSet needed (m : Imp A) (f : A -> Imp B) :
  sound idSet needed m -> (forall a, sound idSet needed (f a)) ->
  sound idSet needed (imp_bind m f).
Proof.
  intros Hm Hf st b st' Hlinked Hneeded Hrun.
  apply imp_bind_Return in Hrun as (a & mid & Hfirst & Hsecond).
  destruct (Hm st a mid Hlinked Hneeded Hfirst) as [Hmid Hgrows].
  destruct (Hf a mid b st' Hmid) as [Hend Hgrows']; [auto|done|].
  split; [done|by eapply grows_trans].
Qed.

(** A step may look at the state it starts from. *)
Lemma sound_get {B} idSet needed (k : ImportState -> Imp B) :
  (forall st, soundAt idSet needed (k st) st) ->
  sound idSet needed (imp_bind imp_get k).
Proof. intros Hk st b st' Hlinked Hneeded Hrun. by apply (Hk st b st' Hlinked Hneeded). Qed.

Lemma sound_for {A} idSet needed (l : list A) (body : A -> Imp unit) :
  (forall x, x ∈ l -> sound idSet needed (body x)) ->
  sound idSet needed (imp_for l body).
Proof.
  induction l as [|x l IH]; intros Hbody; simpl; [apply sound_ret|].
  apply sound_bind; [apply Hbody; by left|].
  intros _. apply IH. intros. apply Hbody. by right.
Qed.

(** Less may be needed than is known. *)
Lemma sound_needed {A} idSet needed needed' (m : Imp A) :
  (forall known, known ∈ needed -> known ∈ needed') ->
  sound idSet needed m -> sound idSet needed' m.
Proof. intros Hsub Hm st a st' Hlinked Hneeded. apply Hm; auto. Qed.

(** *** The steps that write *)

Lemma pushNode_sound idSet needed props :
  (forall parentId,
     Dyn.field (JObj props) "parentNode" = Some parentId -> parentId ∈ needed) ->
  sound idSet needed (pushNode (JObj props)).
Proof.
  set (node := JObj props).
  intros Hparent st [] st' [Hids Hpaths Hedges Hnodes Hshapes] Hneeded [= <-].
  assert (grows st {| imp_nodes := imp_nodes st ++ [node]; imp_edges := imp_edges st;
                      imp_pathToId := imp_pathToId st; imp_counter := imp_counter st |})
    as Hgrows by (intros known; apply nodeIds_snoc).
  split; [|done]. split; simpl.
  - intros known Hknown. by apply nodeIds_snoc, Hids.
  - intros path found Hfound. by eapply nodeIds_snoc, Hpaths.
  - intros edge Hedge. eapply endsKnown_grows; [apply Hgrows|by apply Hedges].
  - intros other Hother. apply elem_of_app in Hother as [Hother|Hother].
    + eapply parentKnown_grows; [apply Hgrows|by apply Hnodes].
    + apply list_elem_of_singleton in Hother as ->.
      intros parentId Hfield. by apply nodeIds_snoc, Hneeded, Hparent.
  - intros other Hother. apply elem_of_app in Hother as [Hother|Hother]; [auto|].
    apply list_elem_of_singleton in Hother as ->. by exists props.
Qed.

Lemma pushEdge_sound idSet needed edge sourceId targetId :
  Dyn.field edge "source" = Some sourceId -> Dyn.field edge "target" = Some targetId ->
  sourceId ∈ needed -> targetId ∈ needed ->
  sound idSet needed (pushEdge edge).
Proof.
  intros Hsource Htarget Hs Ht st [] st' [Hids Hpaths Hedges Hnodes Hshapes] Hneeded [= <-].
  split; [|by intros ?]. split; simpl; try done.
  intros other Hother. apply elem_of_app in Hother as [Hother|Hother]; [by apply Hedges|].
  apply list_elem_of_singleton in Hother as ->. exists sourceId, targetId. auto.
Qed.

Lemma setPath_sound idSet needed path nodeId :
  nodeId ∈ needed -> sound idSet needed (setPath path nodeId).
Proof.
  intros Hid st [] st' [Hids Hpaths Hedges Hnodes Hshapes] Hneeded [= <-].
  split; [|by intros ?]. split; simpl; try done.
  intros other found Hfound. destruct (decide (other = path)) as [->|Hne].
  - rewrite lookup_insert_eq in Hfound. injection Hfound as <-. auto.
  - rewrite lookup_insert_ne in Hfound by done. by eapply Hpaths.
Qed.

(** What the first step makes known may be needed by the second. *)
Lemma sound_bind_known {A B} idSet needed (extra : A -> list jsval)
    (m : Imp A) (f : A -> Imp B) :
  sound idSet needed m ->
  (forall st a st', m st = (Return a, st') ->
     forall known, known ∈ extra a -> known ∈ nodeIds (imp_nodes st')) ->
  (forall a, sound idSet (extra a ++ needed) (f a)) ->
  sound idSet needed (imp_bind m f).
Proof.
  intros Hm Hextra Hf st b st' Hlinked Hneeded Hrun.
  apply imp_bind_Return in Hrun as (a & mid & Hfirst & Hsecond).
  destruct (Hm st a mid Hlinked Hneeded Hfirst) as [Hmid Hgrows].
  destruct (Hf a mid b st' Hmid) as [Hend Hgrows']; [|done|].
  - intros known Hknown. apply elem_of_app in Hknown as [Hknown|Hknown]; [|by auto].
    by eapply Hextra.
  - split; [done|by eapply grows_trans].
Qed.

Lemma soundAt_extend {A} idSet needed known (m : Imp A) st :
  (linked idSet st -> known ∈ nodeIds (imp_nodes st)) ->
  soundAt idSet (known :: needed) m st -> soundAt idSet needed m st.
Proof.
  intros Hknown Hm a st' Hlinked Hneeded. apply Hm; [done|].
  intros other Hother. apply elem_of_cons in Hother as [->|Hother]; auto.
Qed.

(** A lifted result is read where it was computed. *)
Lemma soundAt_lift_bind {A B} idSet needed (r : Run A) (k : A -> Imp B) st :
  (forall a, r = Return a -> soundAt idSet needed (k a) st) ->
  soundAt idSet needed (imp_bind (imp_lift r) k) st.
Proof.
  intros Hk b st' Hlinked Hneeded Hrun.
  apply imp_bind_Return in Hrun as (a & mid & [= -> <-] & Hrun).
  by apply (Hk a eq_refl b st').
Qed.

Section WritesWithPlatform.
Context `{Platform}.

Lemma freshId_sound idSet needed prefix : sound idSet needed (freshId prefix).
Proof.
  intros st newId st' [Hids Hpaths Hedges Hnodes Hshapes] Hneeded. unfold freshId.
  destruct (createId _ _) as [made counter]. intros [= _ <-].
  split; [|by intros ?]. by split.
Qed.

End WritesWithPlatform.

Lemma get_Return v k r : Dyn.get (Some v) k = Return r -> r = Dyn.field v k.
Proof. destruct v; simpl; congruence. Qed.

Lemma own_prop k k' v : Obj.own k (prop k' v) = if String.eqb k k' then v else None.
Proof. destruct v; simpl; by destruct (String.eqb k k'). Qed.

Lemma createNode_sound idSet needed key config parentId path index :
  (forall known, parentId = Some known -> known ∈ needed) ->
  sound idSet needed (createNode key config parentId path index)
  /\ forall st st',
       createNode key config parentId path index st = (Return tt, st') ->
       or_else (Dyn.field config "id") (JStr path) ∈ nodeIds (imp_nodes st').
Proof.
  intros Hparent. unfold createNode. split.
  - apply sound_bind; [apply sound_lift|]. intros configId.
    apply (sound_bind_known _ _ (fun _ => [or_else configId (JStr path)])).
    + apply pushNode_sound. intros known Hfield. apply Hparent.
      unfold Dyn.field in Hfield. rewrite !own_app, !own_prop in Hfield.
      simpl in Hfield. by destruct parentId.
    + intros st [] st' [= <-] known Hknown. apply list_elem_of_singleton in Hknown as ->.
      simpl. by apply nodeIds_last.
    + intros _. apply setPath_sound. by left.
  - intros st st' Hrun.
    apply imp_bind_Return in Hrun as (configId & mid & [= Hget <-] & Hrun).
    apply get_Return in Hget as <-.
    apply imp_bind_Return in Hrun as ([] & mid & [= <-] & [= <-]). simpl.
    by apply nodeIds_last.
Qed.

Lemma walkStates_sound idSet fuel states parentId parentPath needed :
  (forall known, parentId = Some known -> known ∈ needed) ->
  sound idSet needed (walkStates fuel states parentId parentPath).
Proof.
  revert states parentId parentPath needed.
  induction fuel as [|fuel IH]; intros states parentId parentPath needed Hparent;
    destruct states as [statesValue|]; try apply sound_ret; simpl;
    (destruct (negb _); [apply sound_ret|]); [apply sound_lift|].
  apply sound_for. intros [index [key config]] _.
  destruct (createNode_sound idSet needed key config parentId
              (joinPath parentPath key) index Hparent) as [Hcreate Hknown].
  apply (sound_bind_known _ _
           (fun _ => [or_else (Dyn.field config "id") (JStr (joinPath parentPath key))]));
    [done| |].
  - intros st [] st' Hrun known Hin. apply list_elem_of_singleton in Hin as ->.
    by eapply Hknown.
  - intros _. apply IH. intros known [= <-]. by left.
Qed.

Section ReconstructLinks.
Context `{Platform}.

Lemma createInitialMarker_sound idSet needed parentId parentPath initialKey :
  (forall known, parentId = Some known -> known ∈ needed) ->
  sound idSet needed (createInitialMarker parentId parentPath initialKey).
Proof.
  intros Hparent. unfold createInitialMarker. apply sound_get. intros st.
  destruct (lookupPath _ _) as [targetId|] eqn:Hlookup; [|apply sound_ret].
  destruct (negb _); [apply sound_ret|].
  apply soundAt_extend with (known := targetId).
  { intros Hlinked. unfold lookupPath in Hlookup.
    destruct (if Js.truthy parentPath then _ else _); try done.
    by eapply linked_paths. }
  apply (sound_bind_known _ _ (fun _ => [])); [apply freshId_sound| |].
  { intros ? ? ? _ ? Hin. by apply elem_of_nil in Hin. }
  intros markerId. simpl.
  apply (sound_bind_known _ _ (fun _ => [JStr markerId])).
  - apply pushNode_sound. intros known Hfield. right. apply Hparent.
    unfold Dyn.field in Hfield. simpl in Hfield.
    rewrite ?own_app, ?own_prop in Hfield. simpl in Hfield. by destruct parentId.
  - intros ? [] ? [= <-] known Hin. apply list_elem_of_singleton in Hin as ->.
    simpl. by apply nodeIds_last.
  - intros _. apply sound_bind; [apply freshId_sound|]. intros edgeId.
    apply (pushEdge_sound _ _ _ (JStr markerId) targetId); [done|done|by left|].
    right. by left.
Qed.

Lemma resolveTarget_known target currentPath pathToId idSet resolved :
  resolveTarget target currentPath pathToId idSet = Return (Some resolved) ->
  resolved ∈ idSet \/ exists path, pathToId !! path = Some resolved.
Proof.
  unfold resolveTarget. destruct (negb _); [done|].
  destruct target as [| | |text| |]; try done.
  assert (forall r : Run (option jsval),
            (r = match pathToId !! text with
                 | Some found => Return (Some found)
                 | None =>
                     match pathToId !! joinPath (default "" (beforeLastDot currentPath)) text with
                     | Some found => Return (Some found)
                     | None => Return (pathToId !! (currentPath +:+ "." +:+ text))
                     end
                 end) ->
            r = Return (Some resolved) ->
            exists path, pathToId !! path = Some resolved) as Hrelative.
  { intros r ->. destruct (pathToId !! text) eqn:Hfirst; [intros [= ->]; eauto|].
    destruct (pathToId !! joinPath _ _) eqn:Hsecond; [intros [= ->]; eauto|].
    intros [= Hthird]. eauto. }
  destruct text as [|c rest]; [right; by eapply Hrelative|].
  destruct (Ascii.eqb c "#") eqn:Hhash.
  - apply Ascii.eqb_eq in Hhash as ->.
    destruct (existsb _ _) eqn:Hknown; [|done]. intros [= <-]. left.
    apply existsb_exists in Hknown as (known & Hin & Hstr).
    apply list_elem_of_In in Hin. destruct known; try done. simpl in Hstr.
    by apply String.eqb_eq in Hstr as ->.
  - intros Hresolved. right. eapply Hrelative; [|done].
    destruct c as [[] [] [] [] [] [] [] []]; try done.
Qed.

Lemma addEdge_sound idSet needed sourceId statePath eventType transition target :
  sourceId ∈ needed ->
  sound idSet needed (addEdge sourceId statePath eventType transition idSet target).
Proof.
  intros Hsource. unfold addEdge. apply sound_get. intros st.
  apply soundAt_lift_bind. intros [resolved|] Hresolved; [|apply sound_ret].
  destruct (negb _); [apply sound_ret|].
  apply soundAt_extend with (known := resolved).
  { intros Hlinked. apply resolveTarget_known in Hresolved as [Hknown|[path Hpath]].
    - by apply (linked_idSet _ _ Hlinked).
    - by apply (linked_paths _ _ Hlinked path). }
  apply sound_bind; [apply freshId_sound|]. intros edgeId.
  apply (pushEdge_sound _ _ _ sourceId resolved); [done|done|by right|by left].
Qed.

Lemma addTransition_sound idSet needed sourceId statePath eventType transition :
  sourceId ∈ needed ->
  sound idSet needed (addTransition sourceId statePath eventType idSet transition).
Proof.
  intros Hsource. unfold addTransition.
  apply sound_bind; [apply sound_lift|]. intros targetField.
  apply sound_for. intros target _. by apply addEdge_sound.
Qed.

Lemma walkTransitions_sound idSet needed fuel states parentPath :
  sound idSet needed (walkTransitions fuel states parentPath idSet).
Proof.
  revert states parentPath needed.
  induction fuel as [|fuel IH]; intros states parentPath needed;
    destruct states as [statesValue|]; try apply sound_ret; simpl;
    (destruct (negb _); [apply sound_ret|]); [apply sound_lift|].
  apply sound_for. intros [key config] _. apply sound_get. intros st.
  destruct (imp_pathToId st !! joinPath parentPath key) as [sourceId|] eqn:Hsource;
    [|apply sound_ret].
  destruct (negb _); [apply sound_ret|].
  apply soundAt_extend with (known := sourceId).
  { intros Hlinked. by apply (linked_paths _ _ Hlinked (joinPath parentPath key)). }
  apply sound_bind; [apply sound_lift|]. intros initialKey.
  apply sound_bind.
  { destruct initialKey as [initialKey|]; [|apply sound_ret].
    destruct (Dyn.truthy _); [|apply sound_ret].
    apply createInitialMarker_sound. intros known [= <-]. by left. }
  intros _. apply sound_bind; [|intros _; apply IH].
  apply sound_for. intros [eventType targetConfig] _.
  apply sound_for. intros transition _. apply addTransition_sound. by left.
Qed.

Lemma linked_empty counter : linked [] (emptyImport counter).
Proof.
  split; simpl.
  - intros known Hin. by apply elem_of_nil in Hin.
  - intros path found Hfound. by rewrite lookup_empty in Hfound.
  - intros edge Hin. by apply elem_of_nil in Hin.
  - intros node Hin. by apply elem_of_nil in Hin.
  - intros node Hin. by apply elem_of_nil in Hin.
Qed.

Lemma linked_idSet_change idSet idSet' st :
  (forall known, known ∈ idSet' -> known ∈ nodeIds (imp_nodes st)) ->
  linked idSet st -> linked idSet' st.
Proof. intros Hids [_ Hpaths Hedges Hnodes Hshapes]. by split. Qed.


(** What the walks leave behind, just before it is normalised. *)
Lemma reconstruct_built parsed counter doc st' :
  reconstruct parsed (emptyImport counter) = (Return doc, st') ->
  exists idSet machineIdValue,
    linked idSet st'
    /\ normalizeImportedMachine
         (JObj [ ("version", JNum 1); ("machineId", machineIdValue);
                 ("nodes", JArr (imp_nodes st')); ("edges", JArr (imp_edges st'));
                 ("viewport", viewport_value 0 0 1) ]) = Return doc.
Proof.
  unfold reconstruct. intros Hrun.
  apply imp_bind_Return in Hrun as ([] & walked & Hwalk & Hrun).
  assert (linked [] walked) as Hwalked.
  { eapply (walkStates_sound [] _ _ None "" []); [done|apply linked_empty| |done].
    intros known Hin. by apply elem_of_nil in Hin. }
  apply imp_bind_Return in Hrun as (? & ? & [= <- <-] & Hrun).
  set (idSet := omap (fun node => Dyn.field node "id") (imp_nodes walked)) in *.
  assert (linked idSet walked) as Hlinked
    by (by apply (linked_idSet_change [])).
  apply imp_bind_Return in Hrun as ([] & marked & Hmark & Hrun).
  assert (linked idSet marked) as Hmarked.
  { revert Hmark. destruct (Dyn.field parsed "initial") as [initialKey|];
      [destruct (Dyn.truthy _)|]; try (by intros [= <-]).
    intros Hmark.
    eapply (createInitialMarker_sound idSet [] None "" initialKey); [done|done| |done].
    intros known Hin. by apply elem_of_nil in Hin. }
  apply imp_bind_Return in Hrun as ([] & built & Hedges & Hrun).
  assert (linked idSet built) as Hbuilt.
  { eapply (walkTransitions_sound idSet []); [done| |done].
    intros known Hin. by apply elem_of_nil in Hin. }
  apply imp_bind_Return in Hrun as (? & ? & [= <- <-] & [= Hdoc <-]).
  eauto.
Qed.

End ReconstructLinks.

(** *** Normalising keeps the references *)

Lemma mapM_Return {A B} (f : A -> Run B) (l : list A) (k : list B) :
  mapM f l = Return k -> Forall2 (fun x y => f x = Return y) l k.
Proof.
  revert k. induction l as [|x l IH]; intros k.
  - intros [= <-]. constructor.
  - change (mapM f (x :: l)) with (y ← f x; rest ← mapM f l; mret (y :: rest)).
    intros Hk. apply bind_Return in Hk as (y & Hy & Hk).
    apply bind_Return in Hk as (rest & Hrest & [= <-]).
    constructor; [done|by apply IH].
Qed.

Lemma normalizeNode_keeps props normal k :
  normalizeNode (JObj props) = Return normal ->
  k <> "extent" -> k <> "data" -> k <> "type" ->
  Dyn.field normal k = Obj.own k props.
Proof.
  unfold normalizeNode. intros Hnormal Hextent Hdata Htype.
  repeat (apply bind_Return in Hnormal as (? & _ & Hnormal)).
  injection Hnormal as <-. unfold Dyn.field.
  repeat (rewrite own_override || rewrite own_define).
  apply String.eqb_neq in Hextent, Hdata, Htype. by rewrite Hextent, Hdata, Htype.
Qed.

Lemma normalizeEdge_keeps props normal k :
  normalizeEdge (JObj props) = Return normal ->
  k <> "data" -> k <> "markerEnd" -> k <> "type" ->
  Dyn.field normal k = Obj.own k props.
Proof.
  unfold normalizeEdge. intros Hnormal Hdata Hmarker Htype.
  repeat (apply bind_Return in Hnormal as (? & _ & Hnormal)).
  injection Hnormal as <-. unfold Dyn.field.
  repeat (rewrite own_override || rewrite own_define).
  apply String.eqb_neq in Hdata, Hmarker, Htype. by rewrite Hdata, Hmarker, Htype.
Qed.

Lemma field_Some_object v k found :
  Dyn.field v k = Some found -> exists props, v = JObj props.
Proof. destruct v; try done. eauto. Qed.

Lemma nodeIds_elem nodeValues known :
  known ∈ nodeIds nodeValues
  <-> exists node, node ∈ nodeValues /\ Dyn.field node "id" = Some known.
Proof. unfold nodeIds. apply list_elem_of_omap. Qed.

Lemma nodeIds_normalized nodeValues normals known :
  Forall2 (fun node normal => normalizeNode node = Return normal) nodeValues normals ->
  known ∈ nodeIds nodeValues -> known ∈ nodeIds normals.
Proof.
  intros Hall Hknown. apply nodeIds_elem in Hknown as (node & Hnode & Hid).
  apply list_elem_of_lookup in Hnode as [i Hi].
  destruct (Forall2_lookup_l _ _ _ _ _ Hall Hi) as (normal & Hnormal & Hrun).
  apply nodeIds_elem. exists normal. split; [by eapply list_elem_of_lookup_2|].
  destruct (field_Some_object _ _ _ Hid) as [props ->].
  by rewrite (normalizeNode_keeps _ _ "id" Hrun).
Qed.

Lemma normalized_nodes machineIdValue nodesValue edgesValue viewportValue :
  Dyn.field (JObj (("version", JNum 1)
                   :: prop "machineId" machineIdValue
                   ++ ("nodes", nodesValue) :: ("edges", edgesValue)
                   :: prop "viewport" viewportValue)) "nodes" = Some nodesValue.
Proof.
  change (Dyn.field ?doc "nodes")
    with (Obj.own "nodes" (prop "machineId" machineIdValue
                         ++ ("nodes", nodesValue) :: ("edges", edgesValue)
                         :: prop "viewport" viewportValue)).
  by rewrite own_app, own_prop.
Qed.

Lemma normalized_edges machineIdValue nodesValue edgesValue viewportValue :
  Dyn.field (JObj (("version", JNum 1)
                   :: prop "machineId" machineIdValue
                   ++ ("nodes", nodesValue) :: ("edges", edgesValue)
                   :: prop "viewport" viewportValue)) "edges" = Some edgesValue.
Proof.
  change (Dyn.field ?doc "edges")
    with (Obj.own "edges" (prop "machineId" machineIdValue
                         ++ ("nodes", nodesValue) :: ("edges", edgesValue)
                         :: prop "viewport" viewportValue)).
  by rewrite own_app, own_prop.
Qed.

(** The document [normalizeImportedMachine] makes of nodes and edges that
    refer to each other refers to its own nodes. *)
Lemma normalized_links machineIdValue nodeValues edgeValues viewportValue doc :
  normalizeImportedMachine
    (JObj [ ("version", JNum 1); ("machineId", machineIdValue);
            ("nodes", JArr nodeValues); ("edges", JArr edgeValues);
            ("viewport", viewportValue) ]) = Return doc ->
  (forall edge, edge ∈ edgeValues -> endsKnown nodeValues edge) ->
  (forall node, node ∈ nodeValues -> parentKnown nodeValues node) ->
  (forall node, node ∈ nodeValues -> exists props, node = JObj props) ->
  (forall edge, edge ∈ elementsOf (Dyn.field doc "edges") ->
                endsKnown (elementsOf (Dyn.field doc "nodes")) edge)
  /\ (forall node, node ∈ elementsOf (Dyn.field doc "nodes") ->
                   parentKnown (elementsOf (Dyn.field doc "nodes")) node).
Proof.
  unfold normalizeImportedMachine. intros Hdoc Hedges Hnodes Hshapes.
  apply bind_Return in Hdoc as (nodesValue & Hnormals & Hdoc).
  apply bind_Return in Hdoc as (edgesValue & Hnormaledges & Hdoc).
  injection Hdoc as <-.
  change (Dyn.field _ "nodes") with (Some (JArr nodeValues)) in Hnormals.
  change (Dyn.field _ "edges") with (Some (JArr edgeValues)) in Hnormaledges.
  unfold mapArray in Hnormals, Hnormaledges.
  destruct (mapM normalizeNode nodeValues) as [normals| |] eqn:Hrun; [|done..].
  destruct (mapM normalizeEdge edgeValues) as [normaledges| |] eqn:Hrunedges; [|done..].
  injection Hnormals as <-. injection Hnormaledges as <-.
  apply mapM_Return in Hrun, Hrunedges.
  rewrite !normalized_nodes, !normalized_edges. simpl elementsOf. split.
  - intros normal Hnormal. apply list_elem_of_lookup in Hnormal as [i Hi].
    destruct (Forall2_lookup_r _ _ _ _ _ Hrunedges Hi) as (edge & Hedge & Hnormalized).
    apply list_elem_of_lookup_2 in Hedge.
    destruct (Hedges edge Hedge) as (sourceId & targetId & Hsource & Htarget & Hs & Ht).
    destruct (field_Some_object _ _ _ Hsource) as [props ->].
    exists sourceId, targetId.
    rewrite (normalizeEdge_keeps _ _ "source" Hnormalized) by done.
    rewrite (normalizeEdge_keeps _ _ "target" Hnormalized) by done.
    split; [done|]. split; [done|]. split; by eapply nodeIds_normalized.
  - intros normal Hnormal parentId Hparent.
    apply list_elem_of_lookup in Hnormal as [i Hi].
    destruct (Forall2_lookup_r _ _ _ _ _ Hrun Hi) as (node & Hnode & Hnormalized).
    apply list_elem_of_lookup_2 in Hnode.
    destruct (Hshapes node Hnode) as [props ->].
    rewrite (normalizeNode_keeps _ _ "parentNode" Hnormalized) in Hparent by done.
    eapply nodeIds_normalized; [done|]. by apply (Hnodes _ Hnode).
Qed.

Section ImportLinks.
Context `{Platform}.

(** X11.  A document that [importMachineFromXState] rebuilds from a
    configuration without an embedded document refers only to its own
    nodes: the source and the target of every edge, and every
    [parentNode] that is set, is the id of a node of the document. *)
Theorem import_refers_to_own_nodes raw counter parsed doc counter' :
  JSON_parse raw = Some parsed ->
  isMachineDocument (Dyn.get_opt (Dyn.field parsed "meta") "fluxState") = false ->
  importMachineFromXState raw counter = (Return doc, counter') ->
  (forall edge, edge ∈ elementsOf (Dyn.field doc "edges") ->
                endsKnown (elementsOf (Dyn.field doc "nodes")) edge)
  /\ (forall node, node ∈ elementsOf (Dyn.field doc "nodes") ->
                   parentKnown (elementsOf (Dyn.field doc "nodes")) node).
Proof.
  intros Hparse Hembedded. unfold importMachineFromXState. rewrite Hparse.
  destruct (Dyn.get (Some parsed) "meta") as [meta| |] eqn:Hmeta; [|done..].
  apply get_Return in Hmeta as ->. rewrite Hembedded.
  destruct (reconstruct parsed (emptyImport counter)) as [result st] eqn:Hrun.
  intros [= -> _].
  apply reconstruct_built in Hrun as (idSet & machineIdValue & Hlinked & Hdoc).
  eapply normalized_links; [done|..].
  - apply (linked_edges _ _ Hlinked).
  - apply (linked_nodes _ _ Hlinked).
  - apply (linked_shapes _ _ Hlinked).
Qed.

End ImportLinks.

Lemma import_refers_to_own_nodes_witness :
  exists doc counter',
    importMachineFromXState (H:=Reference.platform)
      (Reference.print Samples.plainConfig) 0 = (Return doc, counter')
    /\ (forall edge, edge ∈ elementsOf (Dyn.field doc "edges") ->
                     endsKnown (elementsOf (Dyn.field doc "nodes")) edge)
    /\ (forall node, node ∈ elementsOf (Dyn.field doc "nodes") ->
                     parentKnown (elementsOf (Dyn.field doc "nodes")) node).
Proof.
  eexists _, _. split; [vm_compute; reflexivity|].
  eapply (import_refers_to_own_nodes (H:=Reference.platform)
            (Reference.print Samples.plainConfig) 0%N Samples.plainConfig);
    vm_compute; reflexivity.
Defined.

(** ** The keys the export gives to sibling states *)

Lemma own_assign {V} k k' (v : V) props :
  Obj.own k (Obj.assign k' v props)
  = if String.eqb k' "__proto__" then Obj.own k props
    else if String.eqb k k' then Some v else Obj.own k props.
Proof. unfold Obj.assign. destruct (String.eqb k' "__proto__"); [done|apply own_define]. Qed.

Lemma sameSlug_snoc base children child :
  sameSlug base (children ++ [child])
  = sameSlug base children
    + (if bool_decide (slugify (label (data child)) = base) then 1 else 0).
Proof.
  unfold sameSlug. rewrite List.filter_app, length_app. simpl.
  by destruct (bool_decide _).
Qed.

(** The counts of the first loop of [buildStatesForParent] after the
    children of [children]. *)
Lemma assignKeys_counts children base :
  default 0
    (fst (foldl (fun '(keyCount, idToKey) child =>
                   let base := slugify (label (data child)) in
                   let count := default 0%nat ((keyCount : gmap string nat) !! base) in
                   (<[base := S count]> keyCount,
                    Obj.assign (id child)
                      (if bool_decide (count = 0%nat) then base
                       else base +:+ "_" +:+ pretty (S count))
                      idToKey))
                (∅, []) children) !! base)
  = sameSlug base children.
Proof.
  induction children as [|child children IH] using rev_ind; [done|].
  rewrite foldl_app, sameSlug_snoc, <- IH. simpl.
  destruct (foldl _ _ children) as [keyCount idToKey]. simpl.
  case_bool_decide as Hbase.
  - subst base. rewrite lookup_insert_eq. simpl. lia.
  - rewrite lookup_insert_ne by done. lia.
Qed.

(** One more sibling: its key is numbered by the siblings before it. *)
Lemma assignKeys_snoc children child :
  assignKeys (children ++ [child])
  = Obj.assign (id child) (numberedKey children child) (assignKeys children).
Proof.
  pose proof (assignKeys_counts children (slugify (label (data child)))) as Hcount.
  unfold assignKeys. rewrite foldl_app. simpl.
  destruct (foldl _ _ children) as [keyCount idToKey]. simpl in *.
  unfold numberedKey. cbn zeta. rewrite <- Hcount.
  by destruct (default 0 _).
Qed.

(** X12.  Among siblings with distinct ids the export gives each one the
    slug of its label when no earlier sibling has that slug, and the slug
    followed by [_] and its occurrence number (2, 3, ...) otherwise.  The
    id [__proto__] is left out: a key stored under it is not read back. *)
Theorem sibling_keys_numbered children i child :
  NoDup (id <$> children) ->
  children !! i = Some child ->
  id child <> "__proto__" ->
  Obj.own (id child) (assignKeys children) = Some (numberedKey (take i children) child).
Proof.
  revert i. induction children as [|last children IH] using rev_ind;
    intros i Hids Hchild Hproto; [done|].
  rewrite assignKeys_snoc, own_assign.
  rewrite fmap_app in Hids. apply NoDup_app in Hids as (Hids & Hlast & _).
  destruct (decide (i < length children)) as [Hi|Hi].
  - rewrite lookup_app_l in Hchild by done.
    rewrite take_app_le by lia.
    assert (id child <> id last) as Hne.
    { intros Heq. apply (Hlast (id child)).
      - apply list_elem_of_fmap. exists child. split; [done|].
        by eapply list_elem_of_lookup_2.
      - rewrite Heq. simpl. by left. }
    apply String.eqb_neq in Hne. rewrite Hne, (IH i) by done.
    by destruct (String.eqb (id last) "__proto__").
  - rewrite lookup_app_r in Hchild by lia.
    destruct (i - length children) as [|later] eqn:Hlater; [|by destruct later].
    injection Hchild as ->.
    assert (i = length children) as -> by lia.
    rewrite take_app_length. apply String.eqb_neq in Hproto.
    by rewrite Hproto, String.eqb_refl.
Qed.

Lemma sibling_keys_numbered_witness :
  Obj.own "n2" (assignKeys (nodes Cases.clashingLabels)) = Some "a_2".
Proof.
  apply (sibling_keys_numbered (nodes Cases.clashingLabels) 1 Samples.secondA);
    [apply (bool_decide_unpack _); vm_compute; exact I|reflexivity|done].
Defined.

(** *** The generated code uses the same keys *)

Lemma keysOf_agree children nodeId :
  nodeId <> "__proto__" ->
  Obj.own nodeId (assignKeys (List.filter (fun node => negb (is_marker node)) children))
  = Codegen.keysOf children !! nodeId.
Proof.
  intros Hproto. unfold Codegen.keysOf, assignKeys.
  generalize (List.filter (fun node => negb (is_marker node)) children).
  intros siblings.
  assert (forall (keyCount : gmap string nat) idToKey (byId : gmap string string),
            Obj.own nodeId idToKey = byId !! nodeId ->
            Obj.own nodeId
              (snd (foldl (fun '(keyCount, idToKey) child =>
                             let base := slugify (label (data child)) in
                             let count := default 0%nat ((keyCount : gmap string nat) !! base) in
                             (<[base := S count]> keyCount,
                              Obj.assign (id child)
                                (if bool_decide (count = 0%nat) then base
                                 else base +:+ "_" +:+ pretty (S count))
                                idToKey))
                          (keyCount, idToKey) siblings))
            = snd (foldl (fun '(keyCount, byId) child =>
                            let base := slugify (label (data child)) in
                            let count := default 0%nat ((keyCount : gmap string nat) !! base) in
                            (<[base := S count]> keyCount,
                             <[id child := if bool_decide (count = 0%nat) then base
                                           else base +:+ "_" +:+ pretty (S count)]> byId))
                         (keyCount, byId) siblings) !! nodeId) as Hgen.
  { induction siblings as [|child siblings IH]; intros keyCount idToKey byId Hsame;
      [done|].
    simpl. apply IH. rewrite own_assign.
    destruct (String.eqb nodeId (id child)) eqn:Hid.
    - apply String.eqb_eq in Hid as <-. apply String.eqb_neq in Hproto.
      by rewrite Hproto, lookup_insert_eq.
    - apply String.eqb_neq in Hid. rewrite lookup_insert_ne by done.
      by destruct (String.eqb (id child) "__proto__"). }
  by apply Hgen.
Qed.

(** X13.  The export and the code generators agree on names: for every
    parent and every node id other than [__proto__], the key the export
    assigns to the node among the children of that parent that are not
    markers is the key [createContext] stores for it. *)
Theorem export_and_codegen_keys_agree machine parentId nodeId :
  nodeId <> "__proto__" ->
  Obj.own nodeId
    (assignKeys (List.filter (fun node => negb (is_marker node))
                   (default [] (buildChildrenMap (nodes machine) !! parentId))))
  = default ∅ (Codegen.keyByParent (Codegen.createContext machine) !! parentId)
      !! nodeId.
Proof.
  intros Hproto. unfold Codegen.createContext. simpl. rewrite lookup_fmap.
  destruct (buildChildrenMap (nodes machine) !! parentId) as [children|]; simpl;
    [by apply keysOf_agree|done].
Qed.

Lemma export_and_codegen_keys_agree_witness :
  Obj.own "review_payment"
    (assignKeys (List.filter (fun node => negb (is_marker node))
                   (default [] (buildChildrenMap (nodes Examples.checkoutMachine)
                                  !! Some "review"))))
  = default ∅ (Codegen.keyByParent (Codegen.createContext Examples.checkoutMachine)
                 !! Some "review") !! "review_payment".
Proof.
  apply (export_and_codegen_keys_agree Examples.checkoutMachine (Some "review")
           "review_payment").
  done.
Defined.

(** *** Every [initial] of the export names a state *)

Lemma assignKeys_ids children nodeId key :
  Obj.own nodeId (assignKeys children) = Some key ->
  exists child, child ∈ children /\ id child = nodeId.
Proof.
  induction children as [|child children IH] using rev_ind; [done|].
  rewrite assignKeys_snoc, own_assign.
  destruct (String.eqb (id child) "__proto__");
    [|destruct (String.eqb nodeId (id child)) eqn:Hid].
  - intros Hown. destruct (IH Hown) as (found & ? & ?).
    exists found. split; [apply elem_of_app; by left|done].
  - intros _. apply String.eqb_eq in Hid. exists child.
    split; [apply elem_of_app; right; by left|done].
  - intros Hown. destruct (IH Hown) as (found & ? & ?).
    exists found. split; [apply elem_of_app; by left|done].
Qed.

Section BuilderKeys.
Variable childrenMap : gmap (option string) (list StateNode).
Variable edgeMap : gmap string (list TransitionEdge).

Lemma statesLoop_keys build idToKey todo states result :
  statesLoop childrenMap edgeMap build idToKey todo states = Return result ->
  (forall child, child ∈ todo ->
     is_Some (Obj.own (stateKey (id child) idToKey) result))
  /\ (forall key, is_Some (Obj.own key states) -> is_Some (Obj.own key result)).
Proof.
  revert states. induction todo as [|child rest IH]; intros states; simpl.
  - intros [= <-]. split; [|done]. intros ? Hin. by apply elem_of_nil in Hin.
  - intros Hloop. apply bind_Return in Hloop as (nested & _ & Hloop).
    apply bind_Return in Hloop as (stateConfig & _ & Hloop).
    destruct (IH _ Hloop) as [Hrest Hkept]. split.
    + intros other Hother. apply elem_of_cons in Hother as [->|Hother]; [|by auto].
      apply Hkept. rewrite own_define, String.eqb_refl. by eexists.
    + intros key Hkey. apply Hkept. rewrite own_define.
      by destruct (String.eqb key _).
Qed.

(** A key that [idToKey] gives is a key of [states]. *)
Lemma built_keys fuel parentId built nodeId key :
  buildStatesForParent childrenMap edgeMap fuel parentId = Return built ->
  Obj.own nodeId (idToKey built) = Some key ->
  is_Some (Obj.own key (states built)).
Proof.
  destruct fuel as [|fuel]; [done|]. simpl. intros Hbuilt.
  apply bind_Return in Hbuilt as (result & Hloop & [= <-]). simpl. intros Hkey.
  destruct (assignKeys_ids _ _ _ Hkey) as (child & Hchild & <-).
  apply statesLoop_keys in Hloop as [Hloop _].
  specialize (Hloop child Hchild). unfold stateKey, Obj.get in Hloop.
  by rewrite Hkey in Hloop.
Qed.

(** A truthy read of [idToKey] gives a key of its own, or for the id
    [__proto__] the prototype of the object, which is written as [{}]. *)
Lemma readKey_cases nodeId mapping value :
  readKey nodeId mapping = (true, Some value) ->
  (exists key, value = JStr key /\ Obj.own nodeId mapping = Some key)
  \/ (value = JObj [] /\ nodeId = "__proto__").
Proof.
  unfold readKey, Obj.get. destruct (Obj.own nodeId mapping) as [found|].
  - intros [= _ <-]. left. by exists found.
  - case_bool_decide; [|done]. unfold inheritedValue.
    destruct (String.eqb nodeId "__proto__") eqn:Hid; [|done].
    apply String.eqb_eq in Hid. intros [= <-]. by right.
Qed.

Lemma nested_initial_names_state fuel child nested config value :
  buildStatesForParent childrenMap edgeMap fuel (Some (id child)) = Return nested ->
  stateConfigOf childrenMap edgeMap child nested = Return config ->
  Dyn.field config "initial" = Some value ->
  (exists key,
      value = JStr key /\ is_Some (Dyn.get_opt (Dyn.field config "states") key))
  \/ (value = JObj []
      /\ firstInitialTarget (Some (id child)) childrenMap edgeMap = Some "__proto__").
Proof.
  intros Hnested Hconfig. unfold stateConfigOf in Hconfig.
  apply bind_Return in Hconfig as (grouped & _ & [= <-]).
  unfold Dyn.field. cbn [Obj.own String.eqb Ascii.eqb Bool.eqb].
  rewrite !own_app, !own_prop. cbn [Obj.own String.eqb Ascii.eqb Bool.eqb].
  intros Hinitial.
  assert ((exists key, value = JStr key /\ is_Some (Obj.own key (states nested)))
          \/ (value = JObj []
              /\ firstInitialTarget (Some (id child)) childrenMap edgeMap
                 = Some "__proto__")) as [(key & -> & Hstate)|Hproto]; [|left|by right].
  { revert Hinitial. case_bool_decide; [done|].
    destruct (firstInitialTarget _ _ _) as [targetId|]; [|done].
    destruct (Js.truthy targetId); simpl; [|done].
    destruct (readKey targetId (idToKey nested)) as [[] found] eqn:Hread; simpl; [|done].
    destruct found as [found|]; [|done]. intros [= ->].
    apply readKey_cases in Hread as [(key & -> & Hown)|[-> ->]]; [left|by right].
    exists key. split; [done|]. by eapply built_keys. }
  exists key. split; [done|].
  destruct (states nested) as [|entry entries]; [by destruct Hstate|]. done.
Qed.

End BuilderKeys.

Lemma head_keys {V} (props : list (string * V)) key :
  head (Obj.keys props) = Some key -> is_Some (Obj.own key props).
Proof.
  destruct props as [|[first v] rest]; [done|]. simpl. intros [= ->].
  by rewrite String.eqb_refl.
Qed.

Section RootKeys.
Context `{Platform}.

Lemma root_initial_names_state fuel machine root value :
  buildRootState fuel machine = Return root ->
  Dyn.field root "initial" = Some value ->
  (exists key,
      value = JStr key /\ is_Some (Dyn.get_opt (Dyn.field root "states") key))
  \/ (value = JObj []
      /\ firstInitialTarget None (buildChildrenMap (nodes machine))
                            (buildEdgeMap (edges machine)) = Some "__proto__").
Proof.
  unfold buildRootState. intros Hroot.
  apply bind_Return in Hroot as (built & Hbuilt & Hroot).
  apply bind_Return in Hroot as (fluxState & _ & [= <-]).
  unfold Dyn.field. cbn [Obj.own String.eqb Ascii.eqb Bool.eqb].
  rewrite ?own_app, ?own_prop. cbn [Obj.own String.eqb Ascii.eqb Bool.eqb Dyn.get_opt Dyn.field].
  destruct (fst _) eqn:Hmarker.
  - destruct (firstInitialTarget None _ _) as [targetId|]; [|done].
    destruct (Js.truthy targetId); [|done].
    destruct (readKey targetId (idToKey built)) as [[] found] eqn:Hread; [|done].
    simpl. intros ->.
    apply readKey_cases in Hread as [(key & -> & Hown)|[-> ->]]; [left|by right].
    exists key. split; [done|]. by eapply built_keys.
  - destruct (head (Obj.keys (states built))) as [first|] eqn:Hfirst; [|done].
    destruct (Js.truthy first); [|done]. intros [= <-]. left.
    exists first. split; [done|]. by apply head_keys.
Qed.

(** X14.  An [initial] that the export writes, at the root or in a
    nested state, is the key of one of the states written beside it,
    with one exception: when the first transition of the initial marker
    targets the id [__proto__], the read of [idToKey] meets the prototype
    of the object and [initial] is written as the empty object, which
    names no state. *)
Theorem exported_initial_names_a_state machine fuel :
  (forall root value,
      buildRootState fuel machine = Return root ->
      Dyn.field root "initial" = Some value ->
      (exists key,
          value = JStr key /\ is_Some (Dyn.get_opt (Dyn.field root "states") key))
      \/ (value = JObj []
          /\ firstInitialTarget None (buildChildrenMap (nodes machine))
                                (buildEdgeMap (edges machine)) = Some "__proto__"))
  /\ (forall child nested config value,
        buildStatesForParent (buildChildrenMap (nodes machine))
                             (buildEdgeMap (edges machine)) fuel (Some (id child))
        = Return nested ->
        stateConfigOf (buildChildrenMap (nodes machine)) (buildEdgeMap (edges machine))
                      child nested = Return config ->
        Dyn.field config "initial" = Some value ->
        (exists key,
            value = JStr key /\ is_Some (Dyn.get_opt (Dyn.field config "states") key))
        \/ (value = JObj []
            /\ firstInitialTarget (Some (id child)) (buildChildrenMap (nodes machine))
                                  (buildEdgeMap (edges machine)) = Some "__proto__")).
Proof.
  split.
  - intros root value. apply root_initial_names_state.
  - intros child nested config value. apply nested_initial_names_state.
Qed.

End RootKeys.

Lemma exported_initial_names_a_state_witness :
  exists root,
    buildRootState (H:=Reference.platform) 5 Examples.checkoutMachine = Return root
    /\ Dyn.field root "initial" = Some (JStr "cart")
    /\ is_Some (Dyn.get_opt (Dyn.field root "states") "cart").
Proof.
  eexists. split; [vm_compute; reflexivity|]. split; [vm_compute; reflexivity|].
  destruct (proj1 (exported_initial_names_a_state (H:=Reference.platform)
                     Examples.checkoutMachine 5) _ (JStr "cart")
              ltac:(vm_compute; reflexivity) ltac:(vm_compute; reflexivity))
    as [(key & [= <-] & Hstate)|[[=] _]].
  exact Hstate.
Defined.

(** The exception is met: a marker whose transition targets a node with
    the id [__proto__] is exported with the empty object as [initial]. *)
Lemma proto_target_initial_is_object :
  exists root,
    buildRootState (H:=Reference.platform) 3 Samples.protoTarget = Return root
    /\ Dyn.field root "initial" = Some (JObj []).
Proof. eexists. split; vm_compute; reflexivity. Qed.

(** ** An exported transition read back *)

Lemma existsb_is_str text idSet :
  JStr text ∈ idSet ->
  existsb (fun known => Dyn.is_str text (Some known)) idSet = true.
Proof.
  intros Hin. apply existsb_exists. exists (JStr text).
  split; [by apply list_elem_of_In|]. simpl. apply String.eqb_refl.
Qed.

Lemma readActions_exported edge :
  readActions (Dyn.field (toTransitionValue edge) "actions")
  = List.filter (fun entry => Js.truthy (Js.trim entry)) (actions (edge_data edge)).
Proof.
  unfold toTransitionValue. cbn zeta. unfold Dyn.field.
  cbn [Obj.own String.eqb Ascii.eqb Bool.eqb app]. rewrite own_app, !own_prop.
  cbn [Obj.own String.eqb Ascii.eqb Bool.eqb].
  destruct (List.filter _ _) as [|only [|second rest]] eqn:Hkept.
  - done.
  - assert (Js.truthy (Js.trim only) = true) as Honly.
    { assert (only ∈ List.filter (fun entry => Js.truthy (Js.trim entry))
                                 (actions (edge_data edge))) as Hin
        by (rewrite Hkept; by left).
      by apply elem_of_filter_bool in Hin as [_ ?]. }
    assert (Js.truthy only = true) as Htruthy by (by destruct only).
    unfold readActions. simpl. by rewrite Htruthy.
  - unfold readActions. simpl. f_equal. f_equal.
    rewrite <- list_fmap_compose. apply list_fmap_id.
Qed.

Lemma guard_exported edge :
  Dyn.coalesce (Dyn.field (toTransitionValue edge) "guard")
    (Dyn.coalesce (Dyn.field (toTransitionValue edge) "cond") (Some (JStr "")))
  = Some (JStr (Js.trim (guard (edge_data edge)))).
Proof.
  unfold toTransitionValue. cbn zeta. unfold Dyn.field.
  cbn [Obj.own String.eqb Ascii.eqb Bool.eqb app]. rewrite !own_app, !own_prop.
  cbn [Obj.own String.eqb Ascii.eqb Bool.eqb].
  destruct (Js.trim (guard (edge_data edge))) as [|c rest] eqn:Hguard; simpl.
  - done.
  - done.
Qed.

Section Reimport.
Context `{Platform}.

(** X15.  The import reads back what the export writes for a transition
    whose target is a known node: it adds exactly one edge, with a fresh
    id, to that target, with the guard trimmed and the actions that are
    not blank in their order, and changes nothing else. *)
Theorem exported_transition_reimported edge sourceId statePath eventType idSet st :
  Js.truthy (target edge) = true ->
  JStr (target edge) ∈ idSet ->
  addTransition sourceId statePath eventType idSet (toTransitionValue edge) st
  = (Return tt,
     {| imp_nodes := imp_nodes st;
        imp_edges :=
          imp_edges st
          ++ [ JObj [ ("id", JStr (fst (createId "edge" (imp_counter st))));
                      ("type", JStr "transitionEdge");
                      ("source", sourceId);
                      ("target", JStr (target edge));
                      ("markerEnd", arrowMarker);
                      ("data",
                       JObj [ ("event", JStr eventType);
                              ("guard", JStr (Js.trim (guard (edge_data edge))));
                              ("actions",
                               JArr (JStr <$> List.filter
                                                (fun entry => Js.truthy (Js.trim entry))
                                                (actions (edge_data edge)))) ]) ] ];
        imp_pathToId := imp_pathToId st;
        imp_counter := (imp_counter st + 1)%N |}).
Proof.
  intros Htruthy Hknown.
  unfold addTransition.
  change (Dyn.get (Some (toTransitionValue edge)) "target")
    with (Return (Some (JStr (String "#" (target edge))))).
  unfold imp_bind at 1. unfold imp_lift at 1. cbn [imp_for foldr Dyn.truthy Js.truthy].
  unfold addEdge.
  unfold imp_bind at 1. unfold imp_bind at 1. unfold imp_get at 1.
  unfold resolveTarget. cbn [Dyn.truthy Js.truthy negb].
  rewrite (existsb_is_str _ _ Hknown). unfold imp_bind at 1. unfold imp_lift at 1.
  cbn [Dyn.truthy]. rewrite Htruthy. cbn [negb].
  rewrite guard_exported, readActions_exported.
  unfold imp_bind, freshId, pushEdge, imp_ret, createId. simpl. done.
Qed.

End Reimport.

Lemma exported_transition_reimported_witness :
  fst (addTransition (H:=Reference.platform) (JStr "cart") "cart" "BEGIN_CHECKOUT"
         [JStr "cart"; JStr "review"] (toTransitionValue Samples.beginCheckout)
         (emptyImport 0))
  = Return tt.
Proof.
  rewrite (exported_transition_reimported (H:=Reference.platform) Samples.beginCheckout
             (JStr "cart") "cart" "BEGIN_CHECKOUT" [JStr "cart"; JStr "review"]
             (emptyImport 0)); [done|done|].
  apply elem_of_cons. right. by left.
Defined.

(** ** Formatting twice *)

Section FormatFacts.
Import CodeFormat.

Lemma normalizeLineEndings_step c rest :
  normalizeLineEndings (String c rest)
  = if is_cr c then
      match rest with
      | String d rest' =>
          if is_lf d then String lf (normalizeLineEndings rest')
          else String lf (normalizeLineEndings rest)
      | EmptyString => String lf (normalizeLineEndings rest)
      end
    else String c (normalizeLineEndings rest).
Proof. reflexivity. Qed.

Lemma normalizeLineEndings_inline code :
  allChars (fun c => negb (is_cr c)) (normalizeLineEndings code) = true.
Proof.
  assert (forall n code, String.length code <= n ->
            allChars (fun c => negb (is_cr c)) (normalizeLineEndings code) = true) as Hgen.
  { clear code. induction n as [|n IH]; intros [|c rest] Hlen; try done;
      [simpl in Hlen; lia|].
    rewrite normalizeLineEndings_step. simpl in Hlen.
    destruct (is_cr c) eqn:Hc.
    - destruct rest as [|d rest']; [done|].
      destruct (is_lf d); cbn [allChars]; rewrite IH; try done; simpl in *; lia.
    - cbn [allChars]. rewrite Hc, IH; [done|lia]. }
  by apply (Hgen (String.length code)).
Qed.

Lemma normalizeLineEndings_fixed code :
  allChars (fun c => negb (is_cr c)) code = true -> normalizeLineEndings code = code.
Proof.
  induction code as [|c rest IH]; [done|]. rewrite normalizeLineEndings_step.
  cbn [allChars]. intros Hcode. apply andb_true_iff in Hcode as [Hc Hrest].
  apply negb_true_iff in Hc. rewrite Hc. by rewrite IH.
Qed.

Lemma split_pieces sep (p : ascii -> bool) text :
  allChars p text = true ->
  Forall (fun piece => allChars (fun c => negb (sep c) && p c) piece = true)
         (split sep text)
  /\ split sep text <> [].
Proof.
  induction text as [|c rest IH]; simpl; [by repeat constructor|].
  intros Htext. apply andb_true_iff in Htext as [Hc Hrest].
  destruct (IH Hrest) as [Hpieces Hsome].
  destruct (sep c) eqn:Hsep; [split; [by constructor|done]|].
  destruct (split sep rest) as [|first others]; [done|].
  apply Forall_cons in Hpieces as [Hfirst Hothers]. split; [|done].
  constructor; [|done]. simpl. by rewrite Hsep, Hc, Hfirst.
Qed.

Lemma split_whole sep text :
  allChars (fun c => negb (sep c)) text = true -> split sep text = [text].
Proof.
  induction text as [|c rest IH]; simpl; [done|].
  intros Htext. apply andb_true_iff in Htext as [Hc Hrest].
  apply negb_true_iff in Hc. by rewrite Hc, IH.
Qed.

Lemma split_append sep first c rest :
  allChars (fun c => negb (sep c)) first = true -> sep c = true ->
  split sep (first +:+ String c rest) = first :: split sep rest.
Proof.
  intros Hfirst Hc. induction first as [|d first IH].
  - rewrite append_empty. simpl. by rewrite Hc.
  - rewrite append_String. simpl in *. apply andb_true_iff in Hfirst as [Hd Hfirst].
    apply negb_true_iff in Hd. by rewrite Hd, IH.
Qed.

Lemma join_more sep first second rest :
  Dyn.join sep (first :: second :: rest)
  = first +:+ sep +:+ Dyn.join sep (second :: rest).
Proof.
  unfold Dyn.join. simpl.
  assert (forall start prefix,
            foldl (fun acc part => acc +:+ sep +:+ part) (prefix +:+ start) rest
            = prefix +:+ foldl (fun acc part => acc +:+ sep +:+ part) start rest) as Hgen.
  { induction rest as [|part rest IH]; intros start prefix; simpl; [done|].
    by rewrite <- IH, append_assoc. }
  by rewrite (Hgen (sep +:+ second) first), (Hgen second sep).
Qed.

(** Joining lines that hold no separator and splitting again gives the
    lines back. *)
Lemma split_join sep c lines :
  sep c = true -> lines <> [] ->
  Forall (fun line => allChars (fun c => negb (sep c)) line = true) lines ->
  split sep (Dyn.join (String c EmptyString) lines) = lines.
Proof.
  intros Hc. induction lines as [|first [|second rest] IH]; intros Hsome Hlines; [done| |].
  - apply Forall_cons in Hlines as [Hfirst _]. by apply split_whole.
  - apply Forall_cons in Hlines as [Hfirst Hrest].
    rewrite join_more.
    change (String c EmptyString +:+ ?tail) with (String c tail).
    rewrite split_append by done. f_equal. by apply IH.
Qed.

Lemma allChars_join p sep lines :
  allChars p sep = true -> Forall (fun line => allChars p line = true) lines ->
  allChars p (Dyn.join sep lines) = true.
Proof.
  intros Hsep. induction lines as [|first [|second rest] IH]; intros Hlines; [done| |].
  - by apply Forall_cons in Hlines as [? _].
  - apply Forall_cons in Hlines as [Hfirst Hrest]. rewrite join_more, !allChars_app.
    by rewrite Hfirst, Hsep, IH.
Qed.

Lemma indentation_inline level : allChars is_inline (indentation level) = true.
Proof.
  induction level as [|level IH]; [done|]. simpl.
  by rewrite allChars_app, IH.
Qed.

Lemma trimStart_space s : Js.trimStart (String " " s) = Js.trimStart s.
Proof. by rewrite (trimStart_step (String " " s)). Qed.

Lemma trimStart_indentation level line :
  Js.trimStart (indentation level +:+ line) = Js.trimStart line.
Proof.
  induction level as [|level IH]; [done|]. cbn [indentation].
  rewrite append_assoc. unfold INDENT. rewrite !append_String, append_empty.
  by rewrite !trimStart_space.
Qed.

Lemma trim_indented level raw :
  Js.trim (indentation level +:+ Js.trim raw) = Js.trim raw.
Proof.
  unfold Js.trim at 1. rewrite trimStart_indentation. apply trim_idempotent.
Qed.

Lemma truthy_append prefix line : Js.truthy line = true -> Js.truthy (prefix +:+ line) = true.
Proof. intros Hline. destruct prefix; [done|]. by rewrite append_String. Qed.

Lemma endsBlank_snoc lines line : endsBlank (lines ++ [line]) = negb (Js.truthy line).
Proof. unfold endsBlank. by rewrite last_snoc. Qed.

Lemma formatLines_snoc rawLines rawLine :
  formatLines (rawLines ++ [rawLine]) = formatLine (formatLines rawLines) rawLine.
Proof. unfold formatLines. by rewrite foldl_app. Qed.

(** Formatting what a formatting wrote writes it again, at the same
    depth. *)
Lemma formatLines_again rawLines :
  let state := formatLines rawLines in
  formatLines (formatted state)
  = {| formatted := formatted state; indentLevel := indentLevel state;
       previousBlank := endsBlank (formatted state) |}
  /\ (previousBlank state = false -> endsBlank (formatted state) = false).
Proof.
  induction rawLines as [|rawLine rawLines IH] using rev_ind; [done|].
  rewrite formatLines_snoc. destruct IH as (Hagain & Hblank).
  set (state := formatLines rawLines) in *.
  unfold formatLine. cbn zeta.
  destruct (Js.truthy (Js.trim rawLine)) eqn:Hline;
    cbn [negb formatted indentLevel previousBlank].
  - split; [|intros _; by rewrite endsBlank_snoc, truthy_append].
    rewrite formatLines_snoc, Hagain. unfold formatLine. cbn zeta.
    cbn [formatted indentLevel previousBlank].
    rewrite trim_indented, Hline. cbn [negb].
    by rewrite endsBlank_snoc, truthy_append.
  - split; [|done].
    destruct (previousBlank state) eqn:Hprevious; cbn [negb andb]; [done|].
    case_bool_decide as Hempty; cbn [negb]; [done|].
    rewrite formatLines_snoc, Hagain. unfold formatLine. cbn zeta.
    cbn [formatted indentLevel previousBlank].
    change (Js.trim "") with "". cbn [Js.truthy negb].
    rewrite (Hblank eq_refl). cbn [negb andb].
    rewrite bool_decide_eq_false_2 by done. cbn [negb]. by rewrite endsBlank_snoc.
Qed.

(** Every line written holds neither a carriage return nor a line feed. *)
Lemma formatLines_inline rawLines :
  Forall (fun raw => allChars is_inline raw = true) rawLines ->
  Forall (fun line => allChars is_inline line = true) (formatted (formatLines rawLines)).
Proof.
  induction rawLines as [|rawLine rawLines IH] using rev_ind; [by constructor|].
  intros Hraw. apply Forall_app in Hraw as [Hraw Hlast].
  apply Forall_cons in Hlast as [Hlast _]. specialize (IH Hraw).
  rewrite formatLines_snoc. unfold formatLine. cbn zeta.
  destruct (Js.truthy (Js.trim rawLine)); cbn [negb formatted].
  - apply Forall_app. split; [done|]. apply Forall_singleton.
    rewrite allChars_app, indentation_inline. cbn [andb]. by apply trim_allChars.
  - destruct (_ && _); [|done]. apply Forall_app. split; [done|by repeat constructor].
Qed.

(** X16.  Formatting is stable: [formatGeneratedCode] applied to its own
    output returns that output unchanged, whatever the code. *)
Theorem formatGeneratedCode_idempotent code :
  formatGeneratedCode (formatGeneratedCode code) = formatGeneratedCode code.
Proof.
  unfold formatGeneratedCode.
  set (lines := formatted (formatLines (split is_lf (normalizeLineEndings code)))).
  assert (Forall (fun line => allChars is_inline line = true) lines) as Hlines.
  { apply formatLines_inline.
    destruct (split_pieces is_lf (fun c => negb (is_cr c)) _
                (normalizeLineEndings_inline code)) as [Hpieces _].
    eapply Forall_impl; [exact Hpieces|]. intros piece Hpiece.
    eapply allChars_weaken; [|exact Hpiece]. intros c Hc. unfold is_inline.
    cbv beta in Hc. apply andb_true_iff in Hc as [-> ->]. done. }
  assert (normalizeLineEndings (Dyn.join (String lf EmptyString) lines)
          = Dyn.join (String lf EmptyString) lines) as ->.
  { apply normalizeLineEndings_fixed, allChars_join; [done|].
    eapply Forall_impl; [exact Hlines|]. intros line Hline.
    eapply allChars_weaken; [|exact Hline]. intros c Hc. unfold is_inline in Hc.
    by apply andb_true_iff in Hc as [-> _]. }
  destruct (decide (lines = [])) as [Hempty|Hsome].
  - by rewrite Hempty.
  - rewrite (split_join is_lf lf lines); [|done|done|].
    + subst lines. by destruct (formatLines_again (split is_lf (normalizeLineEndings code)))
        as [-> _].
    + eapply Forall_impl; [exact Hlines|]. intros line Hline.
      eapply allChars_weaken; [|exact Hline]. intros c Hc. unfold is_inline in Hc.
      by apply andb_true_iff in Hc as [_ ->].
Qed.

End FormatFacts.

Section FormatBlankLines.
Import CodeFormat.

Lemma formatLines_spaced rawLines i line :
  formatted (formatLines rawLines) !! i = Some line -> Js.truthy line = false ->
  exists j previous,
    i = S j /\ formatted (formatLines rawLines) !! j = Some previous
    /\ Js.truthy previous = true.
Proof.
  revert i line. induction rawLines as [|rawLine rawLines IH] using rev_ind; [done|].
  intros i line. destruct (formatLines_again rawLines) as [_ Hblank]. cbn zeta in Hblank.
  rewrite formatLines_snoc. set (state := formatLines rawLines) in *.
  unfold formatLine. cbn zeta.
  destruct (Js.truthy (Js.trim rawLine)) eqn:Hline; cbn [negb formatted].
  - intros Hi Hfalsy. destruct (decide (i < length (formatted state))) as [Hless|Hmore].
    + rewrite lookup_app_l in Hi by done.
      destruct (IH i line Hi Hfalsy) as (j & previous & -> & Hj & Hprevious).
      exists j, previous. split; [done|]. split; [|done].
      rewrite lookup_app_l; [done|lia].
    + rewrite lookup_app_r in Hi by lia.
      destruct (i - length (formatted state)) as [|k]; [|done].
      injection Hi as <-. by rewrite truthy_append in Hfalsy.
  - destruct (previousBlank state) eqn:Hprevious; cbn [negb andb]; [by apply IH|].
    case_bool_decide as Hempty; cbn [negb]; [by apply IH|].
    intros Hi Hfalsy. destruct (decide (i < length (formatted state))) as [Hless|Hmore].
    + rewrite lookup_app_l in Hi by done.
      destruct (IH i line Hi Hfalsy) as (j & previous & -> & Hj & Hbefore).
      exists j, previous. split; [done|]. split; [|done].
      rewrite lookup_app_l; [done|lia].
    + rewrite lookup_app_r in Hi by lia.
      destruct (i - length (formatted state)) as [|k] eqn:Hk; [|done].
      specialize (Hblank eq_refl). unfold endsBlank in Hblank.
      destruct (last (formatted state)) as [previous|] eqn:Hlast;
        [|by apply last_None in Hlast].
      rewrite last_lookup in Hlast.
      destruct (formatted state) as [|first others] eqn:Hlines; [done|].
      cbn [length Nat.pred] in *. exists (length others), previous.
      split; [lia|]. split; [|by apply negb_false_iff in Hblank].
      rewrite lookup_app_l; [done|simpl; lia].
Qed.

(** X17.  Formatted code never starts with an empty line and never has
    two empty lines in a row: unless the whole output is empty, every
    empty line of it directly follows a line that is not empty. *)
Theorem formatGeneratedCode_blank_lines code i line :
  split is_lf (formatGeneratedCode code) !! i = Some line ->
  Js.truthy line = false ->
  formatGeneratedCode code = ""
  \/ exists j previous,
       i = S j /\ split is_lf (formatGeneratedCode code) !! j = Some previous
       /\ Js.truthy previous = true.
Proof.
  unfold formatGeneratedCode.
  set (rawLines := split is_lf (normalizeLineEndings code)).
  destruct (decide (formatted (formatLines rawLines) = [])) as [Hempty|Hsome].
  { left. by rewrite Hempty. }
  right.
  assert (split is_lf (Dyn.join (String lf EmptyString) (formatted (formatLines rawLines)))
          = formatted (formatLines rawLines)) as Hlines.
  { apply split_join; [done|done|].
    eapply Forall_impl.
    - apply formatLines_inline.
      destruct (split_pieces is_lf (fun c => negb (is_cr c)) _
                  (normalizeLineEndings_inline code)) as [Hpieces _].
      eapply Forall_impl; [exact Hpieces|]. intros piece Hpiece.
      eapply allChars_weaken; [|exact Hpiece]. intros c Hc. unfold is_inline.
      cbv beta in Hc. by apply andb_true_iff in Hc as [-> ->].
    - intros piece Hpiece. eapply allChars_weaken; [|exact Hpiece].
      intros c Hc. unfold is_inline in Hc. by apply andb_true_iff in Hc as [_ ->]. }
  rewrite Hlines in *. by eapply formatLines_spaced.
Qed.

End FormatBlankLines.

Lemma formatGeneratedCode_blank_lines_witness :
  CodeFormat.formatGeneratedCode Samples.looseCode = ""
  \/ exists j previous,
       1 = S j
       /\ CodeFormat.split CodeFormat.is_lf (CodeFormat.formatGeneratedCode Samples.looseCode)
            !! j = Some previous
       /\ Js.truthy previous = true.
Proof.
  apply (formatGeneratedCode_blank_lines Samples.looseCode 1 ""); vm_compute; reflexivity.
Defined.

(** ** Actions typed as text *)


Lemma split_joined first rest :
  Forall (fun action => commaFree action = true) (first :: rest) ->
  CodeFormat.split is_comma_char (Dyn.join ", " (first :: rest))
  = first :: (String " " <$> rest).
Proof.
  revert first. induction rest as [|second rest IH]; intros first Hfree.
  - apply Forall_cons in Hfree as [Hfirst _]. by apply split_whole.
  - apply Forall_cons in Hfree as [Hfirst Hrest]. rewrite join_more.
    change (", " +:+ ?tail) with (String "," (String " " tail)).
    rewrite split_append by done. f_equal.
    cbn [CodeFormat.split]. change (is_comma_char " ") with false. cbn iota.
    by rewrite IH.
Qed.

Lemma trim_entry action : Js.trim (String " " action) = Js.trim action.
Proof. apply trim_space. Qed.

Lemma parseActions_entries actions :
  Forall (fun action => Js.truthy action = true /\ Js.trim action = action) actions ->
  List.filter Js.truthy (Js.trim <$> (String " " <$> actions)) = actions.
Proof.
  induction actions as [|action actions IH]; [done|]. intros Hall.
  apply Forall_cons in Hall as [[Hsome Htrimmed] Hall].
  cbn [fmap list_fmap List.filter]. rewrite trim_entry, Htrimmed, Hsome.
  f_equal. by apply IH.
Qed.

Lemma parse_joined actions :
  Forall (fun action => Js.truthy action = true /\ Js.trim action = action
                        /\ commaFree action = true) actions ->
  parseActions (Dyn.join ", " actions) = actions.
Proof.
  intros Hall. destruct actions as [|first rest]; [done|].
  unfold parseActions. rewrite split_joined.
  - pose proof Hall as Hrest. apply Forall_cons in Hrest as [(Hsome & Htrimmed & _) Hrest].
    cbn [fmap list_fmap List.filter]. rewrite Htrimmed, Hsome. f_equal.
    apply parseActions_entries. eapply Forall_impl; [exact Hrest|]. by intros ? (? & ? & ?).
  - eapply Forall_impl; [exact Hall|]. by intros ? (? & ? & ?).
Qed.

Lemma parseActions_clean value :
  Forall (fun action => Js.truthy action = true /\ Js.trim action = action
                        /\ commaFree action = true) (parseActions value).
Proof.
  unfold parseActions. apply Forall_forall. intros action Hin.
  apply elem_of_filter_bool in Hin as [Hin Hsome].
  apply list_elem_of_fmap in Hin as (piece & -> & Hpiece).
  split; [done|]. split; [apply trim_idempotent|].
  destruct (split_pieces is_comma_char (fun _ => true) value) as [Hpieces _].
  { clear. induction value; [done|by simpl]. }
  eapply Forall_forall in Hpieces; [|done]. unfold commaFree.
  apply trim_allChars.
  eapply allChars_weaken; [|exact Hpieces]. intros c Hc.
  by apply andb_true_iff in Hc as [-> _].
Qed.

(** X18.  The action field shows a transition's actions joined by a
    comma and a space, and [parseActions] reads that text back as the same
    list when every action is not empty, has no white space at its ends
    and holds no comma. *)
Theorem parseActions_join actions :
  Forall (fun action => Js.truthy action = true /\ Js.trim action = action
                        /\ commaFree action = true) actions ->
  parseActions (Dyn.join ", " actions) = actions.
Proof. apply parse_joined. Qed.

Lemma parseActions_join_witness :
  parseActions (Dyn.join ", " ["lockInventory"; "notify user"])
  = ["lockInventory"; "notify user"].
Proof. apply (parseActions_join ["lockInventory"; "notify user"]). repeat constructor. Defined.

(** An action led by a no-break space is not among those the property
    speaks of: [trim] strips the space. *)
Lemma padded_action_is_trimmed :
  parseActions (Dyn.join ", " [Samples.noBreakSpace +:+ "notify"]) = ["notify"].
Proof. vm_compute. reflexivity. Qed.

(** X19.  What [parseActions] returns from any text is read back
    unchanged once shown: joined by a comma and a space and parsed again
    it gives the same list. *)
Theorem parseActions_shown_again value :
  parseActions (Dyn.join ", " (parseActions value)) = parseActions value.
Proof. apply parse_joined, parseActions_clean. Qed.

(** ** Choosing a parent *)

Lemma findNode_Some nodes nodeId node :
  findNode nodes nodeId = Some node -> node ∈ nodes /\ id node = nodeId.
Proof.
  intros Hfind. apply find_some in Hfind as [Hin Hid].
  split; [by apply list_elem_of_In|by apply bool_decide_eq_true in Hid].
Qed.

Lemma findNode_NoDup nodes node :
  NoDup (id <$> nodes) -> node ∈ nodes -> findNode nodes (id node) = Some node.
Proof.
  unfold findNode. induction nodes as [|first rest IH]; intros Hdistinct Hin;
    [by apply elem_of_nil in Hin|].
  rewrite fmap_cons in Hdistinct. apply NoDup_cons in Hdistinct as [Hfirst Hrest].
  cbn [List.find]. apply elem_of_cons in Hin as [->|Hin].
  - by rewrite bool_decide_eq_true_2.
  - rewrite bool_decide_eq_false_2; [by apply IH|].
    intros Hsame. apply Hfirst. rewrite Hsame. by apply list_elem_of_fmap_2.
Qed.

Lemma descendantLoop_step fuel nodes nodeId reached :
  descendantLoop (S fuel) nodes nodeId (Some reached)
  = if Js.truthy reached then
      if bool_decide (reached = nodeId) then Some true
      else descendantLoop fuel nodes nodeId (findNode nodes reached ≫= parentNode)
    else Some false.
Proof. reflexivity. Qed.

Lemma descendantLoop_None fuel nodes nodeId :
  descendantLoop fuel nodes nodeId None = Some false.
Proof. by destruct fuel. Qed.

(** In a forest the climb ends once the fuel covers the ranks above. *)
Lemma descendantLoop_returns machine rank nodeId fuel current :
  forest machine rank ->
  1 <= fuel -> rankBound machine rank + 2 <= fuel + rank current ->
  is_Some (descendantLoop fuel (nodes machine) nodeId (Some current)).
Proof.
  intros Hforest. revert current.
  induction fuel as [|fuel IH]; intros current Hone Hfuel; [lia|].
  rewrite descendantLoop_step. destruct (Js.truthy current); [|eauto].
  case_bool_decide; [eauto|].
  destruct (findNode (nodes machine) current) as [node|] eqn:Hnode;
    [|simpl; rewrite descendantLoop_None; eauto].
  apply findNode_Some in Hnode as [Hin <-].
  destruct (parentNode node) as [p|] eqn:Hparent;
    [|simpl; rewrite Hparent, descendantLoop_None; eauto].
  pose proof (Hforest node p Hin Hparent). pose proof (rankBound_ge machine rank node Hin).
  simpl. rewrite Hparent. apply IH; lia.
Qed.

(** More fuel does not change an answer. *)
Lemma descendantLoop_more fuel fuel' nodes nodeId current answer :
  descendantLoop fuel nodes nodeId current = Some answer -> fuel <= fuel' ->
  descendantLoop fuel' nodes nodeId current = Some answer.
Proof.
  revert fuel' current. induction fuel as [|fuel IH]; intros fuel' [reached|] Hanswer Hmore;
    try (by rewrite descendantLoop_None in *).
  - simpl in Hanswer. destruct fuel'; simpl; by destruct (Js.truthy reached).
  - destruct fuel' as [|fuel']; [lia|]. rewrite descendantLoop_step in *.
    destruct (Js.truthy reached); [|done]. case_bool_decide; [done|].
    apply IH; [done|lia].
Qed.

Lemma keepWhere_kept {A} (p : A -> option bool) items kept item :
  keepWhere p items = Some kept -> item ∈ kept -> item ∈ items /\ p item = Some true.
Proof.
  revert kept. induction items as [|first rest IH]; intros kept; simpl.
  - intros [= <-] Hin. by apply elem_of_nil in Hin.
  - destruct (p first) as [keep|] eqn:Hfirst; [|done]. simpl.
    destruct (keepWhere p rest) as [others|]; [|done]. simpl. intros [= <-] Hin.
    destruct keep.
    + apply elem_of_cons in Hin as [->|Hin]; [split; [by left|done]|].
      destruct (IH others eq_refl Hin). split; [by right|done].
    + destruct (IH others eq_refl Hin). split; [by right|done].
Qed.

Lemma keepWhere_returns {A} (p : A -> option bool) items :
  (forall item, item ∈ items -> is_Some (p item)) -> is_Some (keepWhere p items).
Proof.
  induction items as [|first rest IH]; intros Hreturns; simpl; [eauto|].
  destruct (Hreturns first) as [keep ->]; [by left|]. simpl.
  destruct IH as [kept ->]; [intros item Hin; apply Hreturns; by right|]. simpl. eauto.
Qed.

Section Reparenting.
Variable machine : MachineDocument.
Variable rank : string -> nat.
Hypothesis Hforest : forest machine rank.
Hypothesis Hdistinct : NoDup (id <$> nodes machine).
Hypothesis Hnamed : forall node, node ∈ nodes machine -> Js.truthy (id node) = true.

Lemma below_self node nodeId :
  node ∈ nodes machine -> id node = nodeId -> below machine rank nodeId nodeId = true.
Proof.
  intros Hin Hid. unfold below. apply bool_decide_eq_true.
  replace (rankBound machine rank + 2) with (S (S (rankBound machine rank))) by lia.
  rewrite descendantLoop_step, <- Hid, (Hnamed node Hin). by rewrite bool_decide_eq_true_2.
Qed.

(** A child of a node below [nodeId] is below [nodeId]. *)
Lemma below_child node p nodeId :
  node ∈ nodes machine -> parentNode node = Some p ->
  below machine rank nodeId p = true -> below machine rank nodeId (id node) = true.
Proof.
  unfold below. intros Hin Hparent Hp.
  apply bool_decide_eq_true in Hp. apply bool_decide_eq_true.
  replace (rankBound machine rank + 2) with (S (S (rankBound machine rank))) in * by lia.
  rewrite descendantLoop_step, (Hnamed node Hin). case_bool_decide; [done|].
  rewrite (findNode_NoDup _ _ Hdistinct Hin). cbn [mbind option_bind]. rewrite Hparent.
  pose proof (Hforest node p Hin Hparent).
  destruct (descendantLoop_returns machine rank nodeId (S (rankBound machine rank)) p)
    as [answer Hanswer]; [done|lia|lia|].
  rewrite Hanswer. f_equal.
  eapply descendantLoop_more in Hanswer; [|apply Nat.le_succ_diag_r]. congruence.
Qed.

(** A candidate the filter lets through is not below the selected node. *)
Lemma candidate_outside fuel selected candidate :
  candidate ∈ nodes machine ->
  isCandidate fuel (nodes machine) (Some selected) candidate = Some true ->
  below machine rank (id selected) (id candidate) = false.
Proof.
  intros Hin Hcandidate. unfold isCandidate in Hcandidate.
  case_bool_decide as Hid; [done|]. destruct (_ || _); [done|].
  apply fmap_Some in Hcandidate as (answer & Hanswer & Hnegb).
  destruct answer; [done|]. unfold isDescendant in Hanswer.
  unfold below. apply bool_decide_eq_false. intros Hbelow.
  replace (rankBound machine rank + 2) with (S (S (rankBound machine rank))) in * by lia.
  rewrite descendantLoop_step, (Hnamed _ Hin), bool_decide_eq_false_2 in Hbelow by done.
  eapply descendantLoop_more in Hbelow; [|apply (Nat.le_max_l _ fuel)].
  eapply descendantLoop_more in Hanswer; [|apply (Nat.le_max_r (S (rankBound machine rank)))].
  congruence.
Qed.

Lemma parentCandidates_returns fuel selectedNode :
  rankBound machine rank + 2 <= fuel ->
  is_Some (parentCandidates fuel machine selectedNode).
Proof.
  intros Hfuel. apply keepWhere_returns. intros node Hin.
  unfold isCandidate. destruct selectedNode as [selected|]; [|eauto].
  case_bool_decide; [eauto|]. destruct (_ || _); [eauto|].
  apply fmap_is_Some. unfold isDescendant.
  destruct (findNode (nodes machine) (id node) ≫= parentNode) as [p|];
    [|rewrite descendantLoop_None; eauto].
  eapply descendantLoop_returns; [done|lia|lia].
Qed.

Lemma moved_forest fuel selected candidates candidate :
  selected ∈ nodes machine ->
  parentCandidates fuel machine (Some selected) = Some candidates ->
  candidate ∈ candidates ->
  forest (handleNodePatch (Some selected) (parentChosen (id candidate)) machine)
         (movedRank machine rank (id selected)).
Proof.
  intros Hselected Hcandidates Hcandidate.
  destruct (keepWhere_kept _ _ _ _ Hcandidates Hcandidate) as [Hin Hkept].
  pose proof (candidate_outside _ _ _ Hin Hkept) as Houtside.
  intros node' p Hnode' Hparent. cbn [handleNodePatch nodes] in Hnode'.
  apply list_elem_of_fmap in Hnode' as (node & -> & Hnode).
  unfold movedRank. case_bool_decide as Hid.
  - pose proof (Hforest node p Hnode Hparent) as Hfalls.
    destruct (below machine rank (id selected) p) eqn:Hp.
    + rewrite (below_child node p _ Hnode Hparent Hp). done.
    + destruct (below machine rank (id selected) (id node)); lia.
  - cbn [patchNode id parentNode parentChosen patch_parentNode] in *.
    rewrite (Hnamed _ Hin) in Hparent. cbn iota in Hparent.
    rewrite (Hnamed _ Hin) in Hparent. injection Hparent as <-.
    rewrite Hid, (below_self selected _ Hselected eq_refl), Houtside. lia.
Qed.

End Reparenting.

(** X20.  The parents the editor offers for a node keep the document a
    forest.  On a forest whose ids are distinct and not empty
    [parentCandidates] returns once the fuel covers the ranks, and making
    any node it returns the parent of the selected node, or choosing the
    root, gives a document whose [parentNode] links again form a forest. *)
Theorem parentCandidates_keep_forest machine rank fuel selected :
  forest machine rank ->
  NoDup (id <$> nodes machine) ->
  (forall node, node ∈ nodes machine -> Js.truthy (id node) = true) ->
  selected ∈ nodes machine ->
  (rankBound machine rank + 2 <= fuel ->
   is_Some (parentCandidates fuel machine (Some selected)))
  /\ (forall candidates candidate,
        parentCandidates fuel machine (Some selected) = Some candidates ->
        candidate ∈ candidates ->
        exists rank',
          forest (handleNodePatch (Some selected) (parentChosen (id candidate)) machine)
                 rank')
  /\ forest (handleNodePatch (Some selected) (parentChosen "") machine) rank.
Proof.
  intros Hforest Hdistinct Hnamed Hselected. split; [|split].
  - by apply parentCandidates_returns.
  - intros candidates candidate Hcandidates Hcandidate.
    exists (movedRank machine rank (id selected)). by eapply moved_forest.
  - intros node' p Hnode' Hparent. cbn [handleNodePatch nodes] in Hnode'.
    apply list_elem_of_fmap in Hnode' as (node & -> & Hnode).
    case_bool_decide; [by apply Hforest|done].
Qed.

Lemma parentCandidates_keep_forest_witness :
  is_Some (parentCandidates 5 Examples.checkoutMachine (Some Samples.review))
  /\ exists rank',
       forest (handleNodePatch (Some Samples.review) (parentChosen "cart")
                 Examples.checkoutMachine) rank'.
Proof.
  destruct (parentCandidates_keep_forest Examples.checkoutMachine Cases.checkoutRank 5
              Samples.review (wf_forest _ _ checkout_wf))
    as (Hreturns & Hkeeps & _).
  - apply (bool_decide_unpack _). vm_compute. exact I.
  - intros node Hin. each_member Hin; done.
  - apply elem_of_cons. right. apply elem_of_cons. right. by left.
  - split; [apply Hreturns; vm_compute; lia|].
    apply (Hkeeps [Samples.cart; Examples.node "confirm" "Confirm" atomic 1020 180 None None None]
             Samples.cart); [vm_compute; reflexivity|by left].
Defined.

(** ** Events that fire are on offer *)

Section Offered.
Context `{Platform}.

Lemma triggerLoop_taken fuel maps leaves eventType activeLeafIds step edgeId :
  triggerLoop fuel maps leaves eventType activeLeafIds = Some step ->
  takenEdgeId step = Some edgeId ->
  exists leaf chain edge,
    leaf ∈ leaves /\ getAncestors fuel (Some leaf) maps = Some chain
    /\ findInChain chain eventType maps = Gives (Some edge) /\ edge_id edge = edgeId.
Proof.
  induction leaves as [|leaf leaves IH].
  - simpl. by intros [= <-].
  - rewrite triggerLoop_cons. unfold findTransitionForEvent.
    destruct (getAncestors fuel (Some leaf) maps) as [chain|] eqn:Hchain; [|done].
    cbn [mbind option_bind].
    destruct (findInChain chain eventType maps) as [[edge|]| |] eqn:Hedge;
      cbn [mbind option_bind]; try done.
    + destruct (enterNode (enterFuel maps) (target edge) maps ∅) as [nextLeaves|]; [|done].
      cbn [mbind option_bind]. intros [= <-] [= <-].
      exists leaf, chain, edge. split; [by left|done].
    + intros Hrest Htaken. destruct (IH Hrest Htaken) as (l & c & e & Hl & Hrest').
      exists l, c, e. split; [by right|done].
Qed.

(** X21.  An event that fires is on offer: when [triggerSimulationEvent]
    takes a transition on an event whose name is not blank, the name,
    trimmed, is in the list [getAvailableEvents] returns for the same
    active leaves. *)
Theorem fired_event_is_offered fuel machine activeLeafIds eventType step edgeId events :
  triggerSimulationEvent fuel machine activeLeafIds eventType = Some step ->
  takenEdgeId step = Some edgeId ->
  getAvailableEvents fuel machine activeLeafIds = Some events ->
  Js.truthy (Js.trim eventType) = true ->
  Js.trim eventType ∈ events.
Proof.
  unfold triggerSimulationEvent. intros Hstep Htaken Hevents Hnamed.
  destruct (triggerLoop_taken _ _ _ _ _ _ _ Hstep Htaken)
    as (leaf & chain & edge & Hleaf & Hchain & Hfound & _).
  destruct (findInChain_Some _ _ _ _ Hfound)
    as (below & sourceId & above & earlier & later & -> & _ & Hedges & _ & Hevent & _).
  apply (getAvailableEvents_elem _ _ _ _ _ Hevents).
  exists leaf, (below ++ sourceId :: above), sourceId. split; [done|]. split; [done|].
  split; [apply elem_of_app; right; by left|].
  exists edge. rewrite outgoing_buildMaps. fold (leaving machine sourceId).
  rewrite Hedges, Hevent. split; [apply elem_of_app; right; by left|done].
Qed.

End Offered.

Lemma fired_event_is_offered_witness :
  exists events,
    getAvailableEvents (H:=Reference.platform) 5 Examples.checkoutMachine ["cart"]
    = Some events
    /\ "BEGIN_CHECKOUT" ∈ events.
Proof.
  eexists. split; [vm_compute; reflexivity|].
  eapply (fired_event_is_offered (H:=Reference.platform) 5 Examples.checkoutMachine
            ["cart"] "BEGIN_CHECKOUT"); vm_compute; reflexivity.
Defined.
